(** * git-rewrite-commits: quality scoring, redaction and orchestration

    A shallow embedding of [src/index.ts] (class [GitCommitRewriter]), of
    [createProvider] and of the command line of [ClaudeCodeProvider].

    Text is a sequence of characters, [list ascii]; the characters are the
    code units 0..255.  The regular expressions of the source are kept as
    syntax trees and run by a backtracking matcher that follows the
    ECMAScript semantics of the constructs the source uses: greedy and lazy
    quantifiers, alternation in order, capture groups, [^] and [$] with the
    [m] flag, the [i] flag, positive lookahead and the global [replace]. *)

From Stdlib Require Import Ascii String Bool Arith ZArith Lia List.
Import ListNotations.

Set Implicit Arguments.

Definition text := list ascii.

(** String literals of the source are written [str DQ...DQ]. *)
Definition str (s : string) : text := list_ascii_of_string s.

Definition code (c : ascii) : nat := nat_of_ascii c.

Definition chr (n : nat) : ascii := ascii_of_nat n.

(** ** Characters *)

Module Chars.

Definition in_range (lo hi c : ascii) : bool :=
  (code lo <=? code c) && (code c <=? code hi).

Definition is_lower (c : ascii) : bool := in_range "a" "z" c.
Definition is_upper (c : ascii) : bool := in_range "A" "Z" c.
Definition is_digit (c : ascii) : bool := in_range "0" "9" c.
Definition is_alnum (c : ascii) : bool := is_lower c || is_upper c || is_digit c.

(** [toUpperCase] and [toLowerCase] on one character (ASCII letters). *)
Definition upper (c : ascii) : ascii :=
  if is_lower c then chr (code c - 32) else c.


(** The code units that [String.prototype.toUpperCase] writes for one code
    unit: the ASCII letters and the letters 224..254 of Latin-1 (but the
    division sign 247) go to their capitals, 32 below; the sharp s (223)
    becomes [SS].  The capitals of the micro sign (181) and of the y with
    diaeresis (255) are code units above 255, which a [text] does not hold:
    these two are left as they are. *)
Definition upper_units (c : ascii) : text :=
  if is_lower c then [chr (code c - 32)]
  else if code c =? 223 then ["S"; "S"]%char
  else if (224 <=? code c) && (code c <=? 254) && negb (code c =? 247)
       then [chr (code c - 32)]
  else [c].

Definition lower (c : ascii) : ascii :=
  if is_upper c then chr (code c + 32) else c.

(** LineTerminator: LF and CR. *)
Definition is_line_terminator (c : ascii) : bool :=
  (code c =? 10) || (code c =? 13).

(** WhiteSpace and LineTerminator, the set of [\s]:
    TAB, LF, VT, FF, CR, SP and NBSP. *)
Definition is_space (c : ascii) : bool :=
  ((9 <=? code c) && (code c <=? 13)) || (code c =? 32) || (code c =? 160).

End Chars.

Definition toUpperCase (s : text) : text := flat_map Chars.upper_units s.
Definition toLowerCase (s : text) : text := map Chars.lower s.

Definition ascii_eqb (a b : ascii) : bool := Ascii.eqb a b.

Fixpoint text_eqb (a b : text) : bool :=
  match a, b with
  | [], [] => true
  | x :: a', y :: b' => ascii_eqb x y && text_eqb a' b'
  | _, _ => false
  end.

(** ** Regular expressions *)

Module Regex.

(** Members of a character class [[...]]. *)
Inductive citem : Type :=
| IChar (c : ascii)
| IRange (lo hi : ascii)
| ISpace                       (* \s *)
| INotSpace.                   (* \S *)

Inductive re : Type :=
| Empty
| Char (c : ascii)
| Dot                                            (* .  *)
| Class (negated : bool) (items : list citem)    (* [...] and [^...] *)
| Bol                                            (* ^ *)
| Eol                                            (* $ *)
| Seq (a b : re)
| Alt (a b : re)
| Quant (greedy : bool) (lo : nat) (hi : option nat) (body : re)
| Group (n : nat) (body : re)                    (* n-th capture group *)
| Lookahead (body : re).                         (* (?=...) *)

Record flags : Type := { ignoreCase : bool; multiline : bool }.

Definition no_flags : flags := {| ignoreCase := false; multiline := false |}.
Definition flags_m : flags := {| ignoreCase := false; multiline := true |}.
Definition flags_i : flags := {| ignoreCase := true; multiline := false |}.
Definition flags_mi : flags := {| ignoreCase := true; multiline := true |}.

(** A position in the subject: the characters before it (nearest first),
    the characters after it, and the captures so far. *)
Record mstate : Type := {
  before : text;
  after : text;
  caps : list (nat * text)
}.

Definition start_state (pre_rev rest : text) : mstate :=
  {| before := pre_rev; after := rest; caps := [] |}.

Fixpoint get_cap (n : nat) (cs : list (nat * text)) : option text :=
  match cs with
  | [] => None
  | (m, v) :: cs' => if Nat.eqb n m then Some v else get_cap n cs'
  end.

Definition clear_caps (ns : list nat) (cs : list (nat * text)) : list (nat * text) :=
  filter (fun p => negb (existsb (Nat.eqb (fst p)) ns)) cs.

Definition set_cap (n : nat) (v : text) (cs : list (nat * text)) : list (nat * text) :=
  (n, v) :: clear_caps [n] cs.

(** The text consumed between an earlier state [s] and a later one [s']. *)
Definition consumed (s s' : mstate) : text :=
  rev (firstn (length (before s') - length (before s)) (before s')).

Definition step (s : mstate) (x : ascii) (t : text) : mstate :=
  {| before := x :: before s; after := t; caps := caps s |}.

Definition canon (fl : flags) (c : ascii) : ascii :=
  if ignoreCase fl then Chars.upper c else c.

Definition char_matches (fl : flags) (c x : ascii) : bool :=
  ascii_eqb (canon fl c) (canon fl x).

Definition item_has (it : citem) (x : ascii) : bool :=
  match it with
  | IChar c => ascii_eqb c x
  | IRange lo hi => Chars.in_range lo hi x
  | ISpace => Chars.is_space x
  | INotSpace => negb (Chars.is_space x)
  end.

(** Some member of the class has the canonical form of [x]. *)
Definition item_matches (fl : flags) (it : citem) (x : ascii) : bool :=
  item_has it x ||
  (ignoreCase fl && (item_has it (Chars.upper x) || item_has it (Chars.lower x))).

Definition class_matches (fl : flags) (negated : bool) (items : list citem)
    (x : ascii) : bool :=
  xorb negated (existsb (fun it => item_matches fl it x) items).

Definition at_bol (fl : flags) (s : mstate) : bool :=
  match before s with
  | [] => true
  | p :: _ => multiline fl && Chars.is_line_terminator p
  end.

Definition at_eol (fl : flags) (s : mstate) : bool :=
  match after s with
  | [] => true
  | x :: _ => multiline fl && Chars.is_line_terminator x
  end.

Fixpoint groups_of (r : re) : list nat :=
  match r with
  | Seq a b | Alt a b => groups_of a ++ groups_of b
  | Quant _ _ _ b | Lookahead b => groups_of b
  | Group n b => n :: groups_of b
  | _ => []
  end.

Definition below (cnt : nat) (hi : option nat) : bool :=
  match hi with
  | None => true
  | Some h => cnt <? h
  end.

Definition or_else {A} (a : option A) (b : unit -> option A) : option A :=
  match a with
  | Some x => Some x
  | None => b tt
  end.

Definition one_char (p : ascii -> bool) (k : mstate -> option mstate)
    (s : mstate) : option mstate :=
  match after s with
  | x :: t => if p x then k (step s x t) else None
  | [] => None
  end.

(** RepeatMatcher: the iterations of a quantifier whose body is run by [m].
    [cnt] iterations are done.  An iteration starts with the captures of the
    body cleared; one beyond the [lo] required iterations that consumes
    nothing is rejected.  Greedy quantifiers try one more iteration first,
    lazy ones try to stop first. *)
Fixpoint repeat_loop (m : (mstate -> option mstate) -> mstate -> option mstate)
    (inner : list nat) (greedy : bool) (lo : nat) (hi : option nat)
    (k : mstate -> option mstate) (fuel cnt : nat) (s0 : mstate)
    {struct fuel} : option mstate :=
  let stop (_ : unit) := if lo <=? cnt then k s0 else None in
  match fuel with
  | O => stop tt
  | S fuel' =>
      let more (_ : unit) :=
        if below cnt hi then
          m (fun s1 =>
               if (cnt <? lo) || (length (after s1) <? length (after s0))
               then repeat_loop m inner greedy lo hi k fuel' (S cnt) s1
               else None)
            {| before := before s0; after := after s0;
               caps := clear_caps inner (caps s0) |}
        else None in
      if greedy then or_else (more tt) stop else or_else (stop tt) more
  end.

(** The backtracking matcher, in continuation-passing style: [rmatch fl r k s]
    tries the alternatives of [r] at [s] in the order of the specification
    and returns the first one that the continuation [k] accepts.

    A quantifier is given [lo + length (after s)] iterations, which is as
    many as it can make: each iteration beyond the first [lo] consumes a
    character. *)
Fixpoint rmatch (fl : flags) (r : re) (k : mstate -> option mstate)
    (s : mstate) {struct r} : option mstate :=
  match r with
  | Empty => k s
  | Char c => one_char (char_matches fl c) k s
  | Dot => one_char (fun x => negb (Chars.is_line_terminator x)) k s
  | Class neg items => one_char (class_matches fl neg items) k s
  | Bol => if at_bol fl s then k s else None
  | Eol => if at_eol fl s then k s else None
  | Seq a b => rmatch fl a (rmatch fl b k) s
  | Alt a b => or_else (rmatch fl a k s) (fun _ => rmatch fl b k s)
  | Quant greedy lo hi body =>
      repeat_loop (rmatch fl body) (groups_of body) greedy lo hi k
        (lo + length (after s)) 0 s
  | Group n body =>
      rmatch fl body
        (fun s1 => k {| before := before s1; after := after s1;
                        caps := set_cap n (consumed s s1) (caps s1) |}) s
  | Lookahead body =>
      match rmatch fl body Some s with
      | Some s1 => k {| before := before s; after := after s; caps := caps s1 |}
      | None => None
      end
  end.

(** One attempt at one position. *)
Definition match_at (fl : flags) (r : re) (pre_rev rest : text) : option mstate :=
  rmatch fl r Some (start_state pre_rev rest).

(** The result handed to a replacement: the matched text and the groups. *)
Record found : Type := {
  whole : text;
  groups : list (nat * text);
  prefix_rev : text;      (* the subject before the match, nearest first *)
  suffix : text           (* the subject after the match *)
}.

Definition group (n : nat) (m : found) : text :=
  match get_cap n (groups m) with
  | Some v => v
  | None => []
  end.

Definition found_of (pre_rev : text) (s1 : mstate) : found :=
  {| whole := consumed (start_state pre_rev []) s1;
     groups := caps s1;
     prefix_rev := pre_rev;
     suffix := after s1 |}.

(** [exec] without the global flag: the leftmost position with a match. *)
Fixpoint search (fl : flags) (r : re) (pre_rev rest : text) : option found :=
  match match_at fl r pre_rev rest with
  | Some s1 => Some (found_of pre_rev s1)
  | None =>
      match rest with
      | [] => None
      | x :: rest' => search fl r (x :: pre_rev) rest'
      end
  end.

(** [RegExp.prototype.test] *)
Definition test (fl : flags) (r : re) (s : text) : bool :=
  match search fl r [] s with
  | Some _ => true
  | None => false
  end.

(** [String.prototype.replace] with a global regular expression: the matches
    are found left to right, each search starting where the previous match
    ended (one character further after an empty match), and every match is
    replaced by [rep]. *)
Fixpoint replace_from (fuel : nat) (fl : flags) (r : re) (rep : found -> text)
    (pre_rev rest : text) : text :=
  match fuel with
  | O => rest
  | S fuel' =>
      match match_at fl r pre_rev rest with
      | Some s1 =>
          let m := found_of pre_rev s1 in
          match whole m, rest with
          | [], [] => rep m
          | [], x :: rest' =>
              rep m ++ x :: replace_from fuel' fl r rep (x :: pre_rev) rest'
          | _ :: _, _ =>
              rep m ++ replace_from fuel' fl r rep (before s1) (after s1)
          end
      | None =>
          match rest with
          | [] => []
          | x :: rest' => x :: replace_from fuel' fl r rep (x :: pre_rev) rest'
          end
      end
  end.

Definition replace_all (fl : flags) (r : re) (rep : found -> text) (s : text) : text :=
  replace_from (S (length s)) fl r rep [] s.

(** *** Writing patterns *)

Fixpoint lit_list (s : text) : re :=
  match s with
  | [] => Empty
  | [c] => Char c
  | c :: s' => Seq (Char c) (lit_list s')
  end.

Definition lit (s : string) : re := lit_list (str s).

Fixpoint seqs (rs : list re) : re :=
  match rs with
  | [] => Empty
  | [r] => r
  | r :: rs' => Seq r (seqs rs')
  end.

Fixpoint alts (rs : list re) : re :=
  match rs with
  | [] => Empty
  | [r] => r
  | r :: rs' => Alt r (alts rs')
  end.

Definition star (r : re) : re := Quant true 0 None r.          (* r*  *)
Definition star_lazy (r : re) : re := Quant false 0 None r.    (* r*? *)
Definition plus (r : re) : re := Quant true 1 None r.          (* r+  *)
Definition opt (r : re) : re := Quant true 0 (Some 1) r.       (* r?  *)
Definition at_least (n : nat) (r : re) : re := Quant true n None r.   (* r{n,} *)
Definition exactly (n : nat) (r : re) : re := Quant true n (Some n) r. (* r{n} *)

End Regex.

Import Regex.

(** ** Options *)

(** The fields of [RewriteOptions] that the modelled methods read.  An absent
    field is [None]. *)
Record RewriteOptions : Type := {
  verbose : bool;
  skipWellFormed : bool;
  minQualityScore : option Z;
  template : option text;
  language : option text;
  prompt : option text
}.

(** [x || d] on a number: [undefined] and [0] are falsy. *)
Definition number_or (x : option Z) (d : Z) : Z :=
  match x with
  | Some v => if Z.eqb v 0 then d else v
  | None => d
  end.

(** Truthiness of an optional string: [undefined] and [''] are falsy. *)
Definition truthy (x : option text) : bool :=
  match x with
  | Some (_ :: _) => true
  | _ => false
  end.

(** ** Quality scorer: [assessCommitQuality] *)

Module Scorer.

Definition commit_types : re :=
  alts (map lit ["feat"; "fix"; "docs"; "style"; "refactor"; "test"; "chore";
                 "perf"; "ci"; "build"; "revert"]%string).

(** [(\([^)]+\))?] as group [n] *)
Definition scope (n : nat) : re :=
  opt (Group n (seqs [Char "("; plus (Class true [IChar ")"]); Char ")"])).

(** [/^(feat|fix|...|revert)(\([^)]+\))?: .+/] *)
Definition conventionalPattern : re :=
  seqs [Bol; Group 1 commit_types; scope 2; lit ": "; plus Dot].

(** [/^(feat|fix|...|revert)?(\([^)]+\))?: [a-z]/] *)
Definition presentTensePattern : re :=
  seqs [Bol; opt (Group 1 commit_types); scope 2; lit ": ";
        Class false [IRange "a" "z"]].

Definition genericMessages : list text :=
  map str ["update"; "fix"; "change"; "modify"; "commit"; "initial"; "test";
           "wip"]%string.

(** [message.split('\n')[0]] *)
Fixpoint first_line (s : text) : text :=
  match s with
  | [] => []
  | c :: s' => if ascii_eqb c (chr 10) then [] else c :: first_line s'
  end.

(** [s.endsWith('.')] *)
Definition ends_with_period (s : text) : bool :=
  match rev s with
  | c :: _ => ascii_eqb c "."
  | [] => false
  end.

Definition hasConventionalFormat (message : text) : bool :=
  test no_flags conventionalPattern message.

Definition isGeneric (message : text) : bool :=
  existsb (fun generic =>
             text_eqb (toLowerCase message) generic
             || text_eqb (toLowerCase message) (generic ++ str ".")
             || text_eqb (toLowerCase message) (generic ++ str " commit"))
          genericMessages.

Definition hasPresentTense (message : text) : bool :=
  test no_flags presentTensePattern message.

(** [reasons.join(', ')] *)
Fixpoint join (sep : text) (l : list text) : text :=
  match l with
  | [] => []
  | [x] => x
  | x :: l' => x ++ sep ++ join sep l'
  end.

Record quality : Type := {
  score : Z;
  isWellFormed : bool;
  reason : text
}.

(** The five checks, each giving its points and the reasons it pushes. *)
Definition check_conventional (message : text) : Z * list text :=
  if hasConventionalFormat message
  then (4%Z, [str "follows conventional format"]) else (0%Z, []).

Definition check_length (message : text) : Z * list text :=
  let n := length (first_line message) in
  if (10 <=? n) && (n <=? 72) then (2%Z, [str "appropriate length"])
  else if n <? 10 then (0%Z, [str "too short"])
  else (0%Z, [str "too long"]).

Definition check_generic (message : text) : Z * list text :=
  if negb (isGeneric message) then (2%Z, [str "descriptive"])
  else (0%Z, [str "too generic"]).

Definition check_present_tense (message : text) : Z * list text :=
  if hasPresentTense message then (1%Z, [str "uses present tense"]) else (0%Z, []).

Definition check_period (message : text) : Z * list text :=
  if negb (ends_with_period (first_line message))
  then (1%Z, [str "no trailing period"]) else (0%Z, []).

Definition checks (message : text) : list (Z * list text) :=
  [check_conventional message; check_length message; check_generic message;
   check_present_tense message; check_period message].

Definition assessCommitQuality (options : RewriteOptions) (message : text)
    : quality :=
  let results := checks message in
  let score := fold_left (fun acc r => acc + fst r)%Z results 0%Z in
  let reasons := concat (map snd results) in
  {| score := score;
     isWellFormed := (number_or (minQualityScore options) 7 <=? score)%Z;
     reason := join (str ", ") reasons |}.

End Scorer.

Definition default_options : RewriteOptions :=
  {| verbose := false; skipWellFormed := true; minQualityScore := Some 7%Z;
     template := None; language := Some (str "en"); prompt := None |}.

Definition with_min (o : RewriteOptions) (m : option Z) : RewriteOptions :=
  {| verbose := verbose o; skipWellFormed := skipWellFormed o;
     minQualityScore := m; template := template o; language := language o;
     prompt := prompt o |}.

(** [s.split('\n')[0]] *)
Definition first_line : text -> text := Scorer.first_line.

(** In the patterns quoted in comments, DQ stands for the double-quote
    character. *)

Definition nl : text := ["010"%char].
Definition dquote : ascii := "034"%char.

(** ** Redactor: [redactSensitivePatterns] *)

Module Redactor.

(** A [replace] call: the flags and pattern of its regular expression and its
    replacement (a [$n] template or a callback). *)
Record rule : Type := {
  rflags : flags;
  pattern : re;
  replacement : found -> text
}.

Definition apply_rule (r : rule) (s : text) : text :=
  replace_all (rflags r) (pattern r) (replacement r) s.

(** [[\s\S]] *)
Definition any_all : re := Class false [ISpace; INotSpace].

(** [^(diff --git a/.*P.*?$[\s\S]*?)(?=^diff --git |$)] for a path pattern [P] *)
Definition hunk_of (path : re) : re :=
  seqs [Bol;
        Group 1 (seqs [lit "diff --git a/"; star Dot; path; star_lazy Dot; Eol;
                       star_lazy any_all]);
        Lookahead (Alt (Seq Bol (lit "diff --git ")) Eol)].

(** [/^(diff --git a\/.*\.env.*?$[\s\S]*?)(?=^diff --git |$)/gm] replaced by
    ['$1[.ENV FILE CONTENT COMPLETELY HIDDEN FOR SECURITY]\n'] *)
Definition env_rule : rule :=
  {| rflags := flags_m;
     pattern := hunk_of (lit ".env");
     replacement := fun m =>
       group 1 m ++ str "[.ENV FILE CONTENT COMPLETELY HIDDEN FOR SECURITY]" ++ nl |}.

Definition lower_letters : re := Class false [IRange "a" "z"].

(** The [source] of each entry of [sensitiveFiles]; their groups are numbered
    from 2, after the group of [hunk_of]. *)
Definition sensitiveFiles : list re :=
  [ seqs [lit ".env"; opt (Group 2 (Seq (Char ".") (plus lower_letters))); Eol];
    Seq (lit ".pem") Eol;
    Seq (lit ".key") Eol;
    Seq (lit ".p12") Eol;
    Seq (lit ".pfx") Eol;
    lit "id_rsa";
    lit "credentials";
    seqs [lit "secret"; opt (Char "s"); Char ".";
          Group 2 (alts [lit "json"; seqs [Char "y"; opt (Char "a"); lit "ml"];
                         lit "toml"; lit "ini"]);
          Eol] ].

(** [header.match(/a\/(.*?) b\//)?.[1] || 'sensitive file'] *)
Definition fileName (header : text) : text :=
  match search no_flags (seqs [lit "a/"; Group 1 (star_lazy Dot); lit " b/"])
               [] header with
  | Some m => match group 1 m with
              | [] => str "sensitive file"
              | name => name
              end
  | None => str "sensitive file"
  end.

(** The callback of the [sensitiveFiles] loop, called with group 1. *)
Definition hide_file (header : text) : text :=
  first_line header ++ nl ++ str "[" ++ toUpperCase (fileName header)
    ++ str " CONTENT COMPLETELY HIDDEN FOR SECURITY]" ++ nl.

(** [new RegExp(`^(diff --git a/.*${pattern.source}.*?$[\\s\\S]*?)(?=^diff --git |$)`, 'gmi')] *)
Definition file_rule (path : re) : rule :=
  {| rflags := flags_mi;
     pattern := hunk_of path;
     replacement := fun m => hide_file (group 1 m) |}.

Definition alnum_items : list citem :=
  [IRange "a" "z"; IRange "A" "Z"; IRange "0" "9"].

Definition alnum : re := Class false alnum_items.

(** [(['DQ]?)] as group [n] *)
Definition quote (n : nat) : re :=
  Group n (opt (Class false [IChar "'"; IChar dquote])).

(** [/(['DQ]?)(BODY)(['DQ]?)/g] replaced by ['$1TAG$3'] *)
Definition quoted_rule (body : re) (tag : string) : rule :=
  {| rflags := no_flags;
     pattern := seqs [quote 1; Group 2 body; quote 3];
     replacement := fun m => group 1 m ++ str tag ++ group 3 m |}.

(** [sk-[a-zA-Z0-9]{32,}|sk_[a-zA-Z0-9_-]{32,}] *)
Definition openai_key : re :=
  Alt (Seq (lit "sk-") (at_least 32 alnum))
      (Seq (lit "sk_")
           (at_least 32 (Class false (alnum_items ++ [IChar "_"; IChar "-"])))).

Definition openai_rule : rule := quoted_rule openai_key "[REDACTED_OPENAI_KEY]".

(** [ghp_[a-zA-Z0-9]{36,}|ghs_[a-zA-Z0-9]{36,}|gho_[a-zA-Z0-9]{36,}] *)
Definition github_rule : rule :=
  quoted_rule
    (alts [Seq (lit "ghp_") (at_least 36 alnum);
           Seq (lit "ghs_") (at_least 36 alnum);
           Seq (lit "gho_") (at_least 36 alnum)])
    "[REDACTED_GITHUB_TOKEN]".

(** [xox[pboa]-[a-zA-Z0-9-]{10,}] *)
Definition slack_rule : rule :=
  quoted_rule
    (seqs [lit "xox"; Class false [IChar "p"; IChar "b"; IChar "o"; IChar "a"];
           Char "-"; at_least 10 (Class false (alnum_items ++ [IChar "-"]))])
    "[REDACTED_SLACK_TOKEN]".

(** [/(['DQ]?)([a-zA-Z0-9]{32,})\.apps\.googleusercontent\.com(['DQ]?)/g] *)
Definition google_rule : rule :=
  {| rflags := no_flags;
     pattern := seqs [quote 1; Group 2 (at_least 32 alnum);
                      lit ".apps.googleusercontent.com"; quote 3];
     replacement := fun m =>
       group 1 m ++ str "[REDACTED_GOOGLE_CLIENT_ID]" ++ group 3 m |}.

(** [/(AKIA[0-9A-Z]{16})/g] *)
Definition aws_access_rule : rule :=
  {| rflags := no_flags;
     pattern := Group 1 (Seq (lit "AKIA")
                  (exactly 16 (Class false [IRange "0" "9"; IRange "A" "Z"])));
     replacement := fun _ => str "[REDACTED_AWS_ACCESS_KEY]" |}.

Definition base64_items : list citem :=
  [IRange "0" "9"; IRange "a" "z"; IRange "A" "Z"; IChar "/"; IChar "+"; IChar "="].

(** [/(['DQ]?)([0-9a-zA-Z/+=]{40})(['DQ]?)/g] with its callback, which tests
    group 2 against [/^[A-Za-z0-9/+=]{40}$/]. *)
Definition aws_secret_rule : rule :=
  {| rflags := no_flags;
     pattern := seqs [quote 1; Group 2 (exactly 40 (Class false base64_items));
                      quote 3];
     replacement := fun m =>
       if test no_flags
            (seqs [Bol;
                   exactly 40 (Class false [IRange "A" "Z"; IRange "a" "z";
                                            IRange "0" "9"; IChar "/"; IChar "+";
                                            IChar "="]);
                   Eol])
            (group 2 m)
       then group 1 m ++ str "[REDACTED_AWS_SECRET_KEY]" ++ group 3 m
       else whole m |}.

(** [sk_live_[a-zA-Z0-9]{24,}|pk_live_...|sk_test_...|pk_test_...] *)
Definition stripe_rule : rule :=
  quoted_rule
    (alts [Seq (lit "sk_live_") (at_least 24 alnum);
           Seq (lit "pk_live_") (at_least 24 alnum);
           Seq (lit "sk_test_") (at_least 24 alnum);
           Seq (lit "pk_test_") (at_least 24 alnum)])
    "[REDACTED_STRIPE_KEY]".

(** [(RSA |DSA |EC |OPENSSH )?] as group [n] *)
Definition key_kind (n : nat) : re :=
  opt (Group n (alts [lit "RSA "; lit "DSA "; lit "EC "; lit "OPENSSH "])).

(** [/-----BEGIN (RSA |DSA |EC |OPENSSH )?PRIVATE KEY-----[\s\S]*?-----END (RSA |DSA |EC |OPENSSH )?PRIVATE KEY-----/g] *)
Definition private_key_rule : rule :=
  {| rflags := no_flags;
     pattern := seqs [lit "-----BEGIN "; key_kind 1; lit "PRIVATE KEY-----";
                      star_lazy any_all;
                      lit "-----END "; key_kind 2; lit "PRIVATE KEY-----"];
     replacement := fun _ => str "[REDACTED_PRIVATE_KEY]" |}.

Definition base64url : re := Class false (alnum_items ++ [IChar "_"; IChar "-"]).

(** [eyJ[a-zA-Z0-9_-]+\.eyJ[a-zA-Z0-9_-]+\.[a-zA-Z0-9_-]+] *)
Definition jwt_rule : rule :=
  quoted_rule
    (seqs [lit "eyJ"; plus base64url; Char "."; lit "eyJ"; plus base64url;
           Char "."; plus base64url])
    "[REDACTED_JWT_TOKEN]".

Definition quote_char : re := Class false [IChar "'"; IChar dquote].

(** [/(password|passwd|pwd|secret|api_key|apikey|auth_token|access_token|private_key)[\s]*[=:][\s]*['DQ]([^'DQ]{8,})['DQ]/gi] *)
Definition password_rule : rule :=
  {| rflags := flags_i;
     pattern :=
       seqs [Group 1 (alts (map lit ["password"; "passwd"; "pwd"; "secret";
                                     "api_key"; "apikey"; "auth_token";
                                     "access_token"; "private_key"]%string));
             star (Class false [ISpace]);
             Class false [IChar "="; IChar ":"];
             star (Class false [ISpace]);
             quote_char;
             Group 2 (at_least 8 (Class true [IChar "'"; IChar dquote]));
             quote_char];
     replacement := fun m => group 1 m ++ str "=[REDACTED]" |}.

(** [/(mongodb(\+srv)?|postgres(ql)?|mysql|redis):\/\/[^@\s]+@[^\s]+/gi] *)
Definition connection_rule : rule :=
  {| rflags := flags_i;
     pattern :=
       seqs [Group 1 (alts [Seq (lit "mongodb") (opt (Group 2 (lit "+srv")));
                            Seq (lit "postgres") (opt (Group 3 (lit "ql")));
                            lit "mysql"; lit "redis"]);
             lit "://";
             plus (Class true [IChar "@"; ISpace]);
             Char "@";
             plus (Class true [ISpace])];
     replacement := fun m => group 1 m ++ str "://[REDACTED_CONNECTION_STRING]" |}.

(** [/Bearer\s+[a-zA-Z0-9_\-\.]+/gi] *)
Definition bearer_rule : rule :=
  {| rflags := flags_i;
     pattern :=
       seqs [lit "Bearer"; plus (Class false [ISpace]);
             plus (Class false (alnum_items ++ [IChar "_"; IChar "-"; IChar "."]))];
     replacement := fun _ => str "Bearer [REDACTED_TOKEN]" |}.

(** The [replace] calls after the file loop, in the order of the source. *)
Definition token_rules : list rule :=
  [openai_rule; github_rule; slack_rule; google_rule; aws_access_rule;
   aws_secret_rule; stripe_rule; private_key_rule; jwt_rule; password_rule;
   connection_rule; bearer_rule].


Definition redactSensitivePatterns (t : text) : text :=
  let redacted := apply_rule env_rule t in
  let redacted :=
    fold_left (fun acc path => apply_rule (file_rule path) acc)
              sensitiveFiles redacted in
  fold_left (fun acc r => apply_rule r acc) token_rules redacted.

End Redactor.

(** ** Results of calls that may throw *)

Inductive outcome (A : Type) : Type :=
| Returned (a : A)
| Thrown (message : text).

Arguments Returned {A} a.
Arguments Thrown {A} message.

(** ** Message composer: [generateCommitMessage] *)

Module Composer.

Definition join : text -> list text -> text := Scorer.join.

(** The pattern of [template.match]: between [^] and [$], group 1 is a lazy
    run of [.], group 2 is a colon or hyphen with optional white space on
    both sides, group 3 is a greedy run of [.]. *)
Definition template_pattern : re :=
  seqs [Bol; Group 1 (star_lazy Dot);
        Group 2 (seqs [star (Class false [ISpace]);
                       Class false [IChar ":"; IChar "-"];
                       star (Class false [ISpace])]);
        Group 3 (star Dot); Eol].

Record parsed_template : Type := {
  prefix : text;
  separator : text;
  example : text
}.

Definition parseTemplate (template : text) : parsed_template :=
  match search no_flags template_pattern [] template with
  | Some m => {| prefix := group 1 m; separator := group 2 m; example := group 3 m |}
  | None => {| prefix := []; separator := str ": "; example := template |}
  end.

Definition languageMap : list (string * string) :=
  [("en", "English"); ("es", "Spanish"); ("fr", "French"); ("de", "German");
   ("it", "Italian"); ("pt", "Portuguese"); ("ru", "Russian");
   ("ja", "Japanese"); ("ko", "Korean"); ("zh", "Chinese");
   ("zh-cn", "Simplified Chinese"); ("zh-tw", "Traditional Chinese");
   ("ar", "Arabic"); ("hi", "Hindi"); ("nl", "Dutch"); ("pl", "Polish");
   ("tr", "Turkish"); ("sv", "Swedish"); ("da", "Danish"); ("no", "Norwegian");
   ("fi", "Finnish")]%string.

(** What a plain object has besides its own keys, among the keys that a
    lower-cased text can be, and what a template literal writes for the
    value: the function [Object] for [constructor], the prototype object for
    [__proto__]. *)
Definition inherited : list (string * string) :=
  [("constructor", "function Object() { [native code] }");
   ("__proto__", "[object Object]")]%string.

Fixpoint lookup (key : text) (table : list (string * string)) : option text :=
  match table with
  | [] => None
  | (k, v) :: table' =>
      if text_eqb key (str k) then Some (str v) else lookup key table'
  end.

(** [languageMap[language.toLowerCase()] || language]: the keys of the table
    itself, then the inherited ones. *)
Definition getLanguageInstructions (language : text) : text :=
  let langName := match lookup (toLowerCase language) (languageMap ++ inherited) with
                  | Some name => name
                  | None => language
                  end in
  str "Write the commit message in " ++ langName ++ str ".".

Definition option_text (x : option text) : text :=
  match x with
  | Some t => t
  | None => []
  end.

Definition formatInstructions (options : RewriteOptions) : text :=
  if truthy (template options) then
    let t := option_text (template options) in
    match prefix (parseTemplate t) with
    | _ :: _ =>
        join nl
          [str "Follow this EXACT format: " ++ t;
           str "Where the message part should describe what was changed.";
           str "Example: If template is " ++ [dquote] ++ str "(feat): message"
             ++ [dquote] ++ str ", generate something like " ++ [dquote]
             ++ str "(feat): add user authentication" ++ [dquote];
           str "Example: If template is " ++ [dquote]
             ++ str "[JIRA-XXX] type: message" ++ [dquote]
             ++ str ", generate something like " ++ [dquote]
             ++ str "[JIRA-123] fix: resolve null pointer exception" ++ [dquote]]
    | [] => str "Use this format as a guide: " ++ t
    end
  else
    join nl
      [str "1. Follows the format: <type>(<scope>): <subject>";
       str "2. Types can be: feat, fix, docs, style, refactor, test, chore, perf, ci, build, revert";
       str "3. Scope is optional but recommended (e.g., auth, api, ui)";
       str "4. All should be in lowercase"].

Definition languageInstruction (options : RewriteOptions) : text :=
  if truthy (language options)
     && negb (text_eqb (option_text (language options)) (str "en"))
  then getLanguageInstructions (option_text (language options))
  else str "Write the commit message in English.".

(** [s.substring(0, 8000)] *)
Definition diff_limit : nat := 8000.

Definition substring0 (n : nat) (s : text) : text := firstn n s.

(** The lines of the prompt before the embedded diff. *)
Definition prompt_head (options : RewriteOptions) (files : list text)
    (oldMessage : text) : list text :=
  [(if truthy (prompt options)
    then str "You are a git commit message generator. Analyze the following git diff and file changes, then "
           ++ option_text (prompt options)
    else str "You are a git commit message generator. Analyze the following git diff and file changes, then generate a clear, concise commit message.");
   [];
   str "Old commit message: " ++ [dquote] ++ oldMessage ++ [dquote];
   [];
   str "Files changed:";
   join nl files;
   [];
   str "Git diff (truncated if too long, sensitive data redacted):"].

(** The lines of the prompt after the embedded diff. *)
Definition prompt_tail (options : RewriteOptions) : list text :=
  if truthy (prompt options) then
    [[];
     (if truthy (template options)
      then str "Format: " ++ option_text (template options) else []);
     languageInstruction options;
     [];
     str "Return ONLY the commit message, nothing else."]
  else
    [[];
     str "Generate a commit message that:";
     formatInstructions options;
     str "4. Subject should be clear and descriptive";
     str "5. Be concise but informative";
     str "6. Focus on WHAT was changed and WHY, not HOW";
     str "7. Use present tense (" ++ [dquote] ++ str "add" ++ [dquote]
       ++ str " not " ++ [dquote] ++ str "added" ++ [dquote] ++ str ")";
     str "8. Don't end with a period";
     str "9. Maximum 72 characters for the first line";
     str "10. Lowercase the first letter";
     str "11. " ++ languageInstruction options;
     [];
     str "Return ONLY the commit message, nothing else. No explanations, just the message."].

(** The diff as it is embedded: redacted, then cut. *)
Definition embedded_diff (diff : text) : text :=
  let redactedDiff := Redactor.redactSensitivePatterns diff in
  substring0 diff_limit redactedDiff.

Definition build_prompt (options : RewriteOptions) (diff : text)
    (files : list text) (oldMessage : text) : text :=
  join nl (prompt_head options files oldMessage
             ++ [embedded_diff diff] ++ prompt_tail options).

Definition systemPrompt : text :=
  str "You are a helpful assistant that generates clear, conventional git commit messages.".

(** [AIProvider.generateCommitMessage(prompt, systemPrompt)] *)
Definition AIProvider : Type := text -> text -> outcome text.

(** The result of [generateCommitMessage]: the message it resolves to and the
    lines it wrote with [console.error]. *)
Record generated : Type := {
  message : text;
  errors : list text
}.

Definition generateCommitMessage (provider : AIProvider)
    (options : RewriteOptions) (diff : text) (files : list text)
    (oldMessage : text) : generated :=
  match provider (build_prompt options diff files oldMessage) systemPrompt with
  | Returned m => {| message := m; errors := [] |}
  | Thrown e =>
      {| message := oldMessage;
         errors := if verbose options
                   then [str "Error generating commit message: " ++ e]
                   else [] |}
  end.

End Composer.

(** ** Orchestrator: the commit loop of [rewrite] *)

Module Orchestrator.

Import Composer.

Record CommitInfo : Type := {
  hash : text;
  info_message : text;       (* [message]: the subject line *)
  files : list text;
  diff : text
}.

(** The collaborators of the loop: [getCommitInfo], the provider, and
    [execCommand(`git log -1 --format=%B ${commit}`).trim()]. *)
Record world : Type := {
  getCommitInfo : text -> outcome CommitInfo;
  provider : AIProvider;
  originalMessage : text -> outcome text
}.

(** [messageMap]: an object from hashes to messages. *)
Definition messageMap : Type := list (text * text).

Fixpoint get (m : messageMap) (key : text) : option text :=
  match m with
  | [] => None
  | (k, v) :: m' => if text_eqb key k then Some v else get m' key
  end.

Definition set (m : messageMap) (key value : text) : messageMap :=
  (key, value) :: m.

(** What the loop has accumulated. *)
Record progress : Type := {
  map_ : messageMap;
  skippedCount : nat;
  improvedCount : nat;
  failed : list text;          (* hashes reported by [spinner.fail] *)
  logged : list text           (* lines of [console.error] *)
}.

Definition initial : progress :=
  {| map_ := []; skippedCount := 0; improvedCount := 0; failed := []; logged := [] |}.

(** One iteration of the [for] loop, with its [try]/[catch]. *)
Definition process (w : world) (options : RewriteOptions) (p : progress)
    (h : text) : progress :=
  match getCommitInfo w h with
  | Thrown _ =>
      {| map_ := map_ p; skippedCount := skippedCount p;
         improvedCount := improvedCount p; failed := failed p ++ [h];
         logged := logged p |}
  | Returned commitInfo =>
      if skipWellFormed options
         && Scorer.isWellFormed
              (Scorer.assessCommitQuality options (info_message commitInfo))
      then
        {| map_ := map_ p; skippedCount := S (skippedCount p);
           improvedCount := improvedCount p; failed := failed p;
           logged := logged p |}
      else
        let g := generateCommitMessage (provider w) options (diff commitInfo)
                   (files commitInfo) (info_message commitInfo) in
        if negb (text_eqb (message g) (info_message commitInfo)) then
          {| map_ := set (map_ p) h (message g); skippedCount := skippedCount p;
             improvedCount := S (improvedCount p); failed := failed p;
             logged := logged p ++ errors g |}
        else
          {| map_ := map_ p; skippedCount := skippedCount p;
             improvedCount := improvedCount p; failed := failed p;
             logged := logged p ++ errors g |}
  end.

Definition run_loop (w : world) (options : RewriteOptions)
    (commits : list text) : progress :=
  fold_left (process w options) commits initial.

(** [if (messageMap[commit])]: the entry exists and is not the empty string. *)
Definition recorded (m : messageMap) (commit : text) : option text :=
  match get m commit with
  | Some (c :: v) => Some (c :: v)
  | _ => None
  end.

(** The second loop: [orderedMessages]. *)
Fixpoint ordered (w : world) (m : messageMap) (commits : list text)
    : outcome (list text) :=
  match commits with
  | [] => Returned []
  | commit :: rest =>
      match recorded m commit with
      | Some v =>
          match ordered w m rest with
          | Returned l => Returned (v :: l)
          | Thrown e => Thrown e
          end
      | None =>
          match originalMessage w commit with
          | Returned v =>
              match ordered w m rest with
              | Returned l => Returned (v :: l)
              | Thrown e => Thrown e
              end
          | Thrown e => Thrown e
          end
      end
  end.

(** [rewrite], from the commit loop to [orderedMessages]. *)
Definition orderedMessages (w : world) (options : RewriteOptions)
    (commits : list text) : outcome (list text) :=
  ordered w (map_ (run_loop w options commits)) commits.

End Orchestrator.

(** ** Occurrences *)

(** [s.startsWith(p)] *)
Fixpoint starts_with (p s : text) : bool :=
  match p, s with
  | [], _ => true
  | x :: p', y :: s' => ascii_eqb x y && starts_with p' s'
  | _ :: _, [] => false
  end.

(** [s.includes(p)] *)
Fixpoint occurs (p s : text) : bool :=
  starts_with p s ||
  match s with
  | [] => false
  | _ :: s' => occurs p s'
  end.

(** [n] copies of a character. *)
Definition copies (n : nat) (c : ascii) : text := repeat c n.

(** ** Derived notions used in the statements *)

Module Outcome.

Import Composer Orchestrator.

(** What one iteration records for a commit; [None] when it records nothing
    (the commit could not be read, was skipped, or kept its message). *)
Definition replacement_for (w : world) (options : RewriteOptions) (h : text)
    : option text :=
  match getCommitInfo w h with
  | Thrown _ => None
  | Returned ci =>
      if skipWellFormed options
         && Scorer.isWellFormed
              (Scorer.assessCommitQuality options (info_message ci))
      then None
      else
        let g := generateCommitMessage (provider w) options (diff ci)
                   (files ci) (info_message ci) in
        if negb (text_eqb (message g) (info_message ci))
        then Some (message g) else None
  end.

(** The message of the ordered list for one commit. *)
Definition final_message (w : world) (options : RewriteOptions)
    (orig : text -> text) (h : text) : text :=
  match replacement_for w options h with
  | Some (c :: v) => c :: v
  | _ => orig h
  end.

(** [getCommitInfo] throws for the commit. *)
Definition unreadable (w : world) (h : text) : bool :=
  match getCommitInfo w h with
  | Thrown _ => true
  | Returned _ => false
  end.

End Outcome.

(** A provider that fails on the second of three commits. *)
Module Scenario.

Import Composer Orchestrator.

Definition info (h m f d : string) : CommitInfo :=
  {| hash := str h; info_message := str m; files := [str f]; diff := str d |}.

Definition first : CommitInfo := info "a1b2c3d4" "update" "README.md" "+hello".
Definition second : CommitInfo := info "e5f6a7b8" "wip" "src/index.ts" "+let x = 1;".
Definition third : CommitInfo := info "c9d0e1f2" "changes" "package.json" "+version".

Definition generated_text : text := str "docs: describe the change".

Definition flaky : AIProvider :=
  fun p _ =>
    if text_eqb p (build_prompt default_options (diff second) (files second)
                     (info_message second))
    then Thrown (str "connect ECONNREFUSED")
    else Returned generated_text.

Definition w : world :=
  {| getCommitInfo := fun h =>
       if text_eqb h (hash first) then Returned first
       else if text_eqb h (hash second) then Returned second
       else if text_eqb h (hash third) then Returned third
       else Thrown (str "Command failed");
     provider := flaky;
     originalMessage := fun h =>
       if text_eqb h (hash first) then Returned (str "update")
       else if text_eqb h (hash second) then Returned (str "wip")
       else if text_eqb h (hash third) then Returned (str "changes")
       else Thrown (str "Command failed") |}.

Definition commits : list text := [hash first; hash second; hash third].

Definition orig (h : text) : text :=
  match originalMessage w h with
  | Returned m => m
  | Thrown _ => []
  end.

End Scenario.

(** ** Sample texts *)

Module Samples.

Definition lines (l : list string) : text :=
  concat (map (fun s => str s ++ nl) l).

(** A diff that adds one line to [.env]. *)
Definition env_diff : text :=
  lines ["diff --git a/.env b/.env";
         "index e69de29..4b825dc 100644";
         "--- a/.env";
         "+++ b/.env";
         "@@ -0,0 +1 @@";
         "+DB_PASS=hunter2"]%string.











End Samples.

(** ** Lines of a command's output *)

Module Lines.

(** The characters that [trim] removes are those of [\s]. *)
Fixpoint trim_start (s : text) : text :=
  match s with
  | [] => []
  | c :: s' => if Chars.is_space c then trim_start s' else s
  end.

(** [s.trim()] *)
Definition trim (s : text) : text := rev (trim_start (rev (trim_start s))).

(** [s.split('\n')] *)
Fixpoint split_nl (s : text) : list text :=
  match s with
  | [] => [[]]
  | c :: s' =>
      if ascii_eqb c "010" then [] :: split_nl s'
      else match split_nl s' with
           | l :: ls => (c :: l) :: ls
           | [] => [[c]]
           end
  end.

(** [Boolean(s)] for a string *)
Definition nonempty (s : text) : bool :=
  match s with
  | [] => false
  | _ :: _ => true
  end.

(** [output.trim().split('\n').filter(Boolean)], as in [getCommits],
    [getCommitInfo] and [generateForStaged]. *)
Definition lines_of (output : text) : list text :=
  filter nonempty (split_nl (trim output)).

(** [lines.join('\n')] *)
Definition unlines (l : list text) : text := Scorer.join nl l.

Definition not_lf (c : ascii) : bool := negb (ascii_eqb c "010").

(** A line that is not empty, has no line feed, and neither starts nor ends
    with white space. *)
Definition tidy (line : text) : bool :=
  match line with
  | [] => false
  | c :: _ =>
      negb (Chars.is_space c) && negb (Chars.is_space (last line c))
      && forallb not_lf line
  end.

End Lines.

(** ** The message filter that [rewriteHistory] writes *)

Module MsgFilter.

(** One run of the script: [messages] is the parsed mapping file, [counter]
    the number in the counter file, [oldMessage] what the script reads from
    its standard input.  The result is what it writes to its standard output
    and the number it leaves in the counter file. *)
Definition filter_msg (messages : list text) (counter : nat)
    (oldMessage : text) : text * nat :=
  let newMessage := nth_error messages counter in
  (match newMessage with
   | Some (c :: m) => c :: m
   | _ => Lines.trim oldMessage
   end,
   S counter).

(** [git filter-branch --msg-filter] runs the script once for each commit, in
    the order in which it rewrites them; the counter file starts at 0. *)
Fixpoint run_from (messages : list text) (counter : nat) (olds : list text)
    : list text * nat :=
  match olds with
  | [] => ([], counter)
  | old :: olds' =>
      let (out, counter') := filter_msg messages counter old in
      let (outs, final) := run_from messages counter' olds' in
      (out :: outs, final)
  end.

Definition run (messages olds : list text) : list text * nat :=
  run_from messages 0 olds.

End MsgFilter.

(** ** Providers: [createProvider] and the constructor of [GitCommitRewriter] *)

Module Providers.

Record ProviderOptions : Type := {
  provider_name : option text;     (* [provider] *)
  apiKey : option text;
  model : option text;
  ollamaUrl : option text
}.

(** The provider objects, by their class and constructor arguments. *)
Inductive provider_object : Type :=
| OllamaProvider (model : text) (url : option text)
| ClaudeCodeProvider (model : text)
| OpenAIProvider (apiKey model : text).

(** [x || d] on strings *)
Definition text_or (x : option text) (d : text) : text :=
  if truthy x then Composer.option_text x else d.

(** [x || y] on optional strings *)
Definition first_truthy (x y : option text) : option text :=
  if truthy x then x else y.

Definition key_required : text :=
  str "OpenAI API key is required. Set OPENAI_API_KEY environment variable or pass it as an option.".

(** [createProvider(options)]; [env_key] is [process.env.OPENAI_API_KEY]. *)
Definition createProvider (env_key : option text) (options : ProviderOptions)
    : outcome provider_object :=
  let providerType := text_or (provider_name options) (str "openai") in
  if text_eqb providerType (str "ollama") then
    Returned (OllamaProvider (text_or (model options) (str "llama3.2"))
                (ollamaUrl options))
  else if text_eqb providerType (str "claude-code") then
    Returned (ClaudeCodeProvider (text_or (model options) (str "haiku")))
  else
    let key := first_truthy (apiKey options) env_key in
    if negb (truthy key) then Thrown key_required
    else Returned (OpenAIProvider (Composer.option_text key)
                     (text_or (model options) (str "gpt-3.5-turbo"))).

(** The provider that [new GitCommitRewriter(options)] builds. *)
Definition construct (env_key : option text) (options : ProviderOptions)
    : outcome provider_object :=
  let provider := text_or (provider_name options) (str "openai") in
  let model :=
    text_or (model options)
      (if text_eqb provider (str "ollama") then str "llama3.2"
       else str "gpt-3.5-turbo") in
  if text_eqb provider (str "openai")
     && negb (truthy (first_truthy (apiKey options) env_key))
  then Thrown key_required
  else createProvider env_key
         {| provider_name := Some provider; apiKey := apiKey options;
            model := Some model; ollamaUrl := ollamaUrl options |}.

End Providers.

(** ** The command line of [ClaudeCodeProvider] *)

Module ClaudeCode.












End ClaudeCode.

(** ** Staged changes: [generateForStaged] *)

Module Staged.

(** The collaborators: whether [git rev-parse --git-dir] succeeds, what
    [checkRemoteAPIConsent] resolves to, the outputs of
    [git diff --cached --name-only] and [git diff --cached], the provider. *)
Record world : Type := {
  isRepository : bool;
  hasConsent : bool;
  stagedNames : outcome text;
  stagedDiff : outcome text;
  provider : Composer.AIProvider
}.

Definition generateForStaged (w : world) (options : RewriteOptions)
    : outcome text :=
  if negb (isRepository w) then Thrown (str "Not a git repository!")
  else if negb (hasConsent w)
  then Thrown (str "User declined to send data to remote AI provider")
  else
    match stagedNames w with
    | Thrown e => Thrown e
    | Returned names =>
        match Lines.lines_of names with
        | [] =>
            Thrown (str "No staged changes found. Stage your changes with: git add <files>")
        | stagedFiles =>
            match stagedDiff w with
            | Thrown e => Thrown e
            | Returned diff =>
                if negb (Lines.nonempty diff)
                   || negb (Lines.nonempty (Lines.trim diff))
                then Thrown (str "No staged changes found")
                else
                  Returned
                    (Composer.message
                       (Composer.generateCommitMessage (provider w) options
                          diff stagedFiles []))
            end
        end
    end.

(** A repository with staged changes whose provider cannot be reached. *)
Definition offline (names diff : text) : world :=
  {| isRepository := true; hasConsent := true;
     stagedNames := Returned names; stagedDiff := Returned diff;
     provider := fun _ _ => Thrown (str "connect ECONNREFUSED") |}.

End Staged.

(** ** Notions used in the statements about the scorer *)

Module ScorerShapes.

(** The message has a colon. *)
Definition has_colon (message : text) : bool := existsb (ascii_eqb ":") message.

(** The lower-case forms of the messages that [isGeneric] accepts. *)
Definition generic_forms : list text :=
  flat_map (fun generic => [generic; generic ++ str "."; generic ++ str " commit"])
           Scorer.genericMessages.

End ScorerShapes.

(** ** A history with one well-formed commit *)

Module History.

Import Composer Orchestrator.

Definition good : CommitInfo :=
  Scenario.info "0f1e2d3c" "feat(api): add search endpoint" "src/api.ts" "+search".
Definition poor : CommitInfo :=
  Scenario.info "4b5a6978" "wip" "src/index.ts" "+let x = 1;".

(** A provider that answers every prompt with the same message. *)
Definition eager : AIProvider := fun _ _ => Returned (str "fix: everything").

Definition w : world :=
  {| getCommitInfo := fun h =>
       if text_eqb h (hash good) then Returned good
       else if text_eqb h (hash poor) then Returned poor
       else Thrown (str "Command failed");
     provider := eager;
     originalMessage := fun h =>
       if text_eqb h (hash good) then Returned (info_message good)
       else if text_eqb h (hash poor) then Returned (info_message poor)
       else Thrown (str "Command failed") |}.

Definition commits : list text := [hash good; hash poor].

Definition orig (h : text) : text :=
  match originalMessage w h with
  | Returned m => m
  | Thrown _ => []
  end.

End History.

(** ** What a match is *)

Module Semantics.

(** The iterations of a quantifier, from [cnt] done: [M] runs the body once. *)
Inductive iterates (M : mstate -> mstate -> Prop) (inner : list nat)
    (lo : nat) (hi : option nat) : nat -> mstate -> mstate -> Prop :=
| iterates_stop cnt s :
    lo <= cnt -> iterates M inner lo hi cnt s s
| iterates_more cnt s s1 s2 :
    below cnt hi = true ->
    M {| before := before s; after := after s;
         caps := clear_caps inner (caps s) |} s1 ->
    iterates M inner lo hi (S cnt) s1 s2 ->
    iterates M inner lo hi cnt s s2.

(** [matches fl r s s1]: some way of matching [r] leads from [s] to [s1].
    The order of the alternatives is left out, so every result of [rmatch]
    is one of these, but [rmatch] picks the first. *)
Fixpoint matches (fl : flags) (r : re) (s s1 : mstate) {struct r} : Prop :=
  match r with
  | Empty => s1 = s
  | Char c =>
      exists x t, after s = x :: t /\ char_matches fl c x = true /\ s1 = step s x t
  | Dot =>
      exists x t, after s = x :: t /\ Chars.is_line_terminator x = false
                  /\ s1 = step s x t
  | Class neg items =>
      exists x t, after s = x :: t /\ class_matches fl neg items x = true
                  /\ s1 = step s x t
  | Bol => at_bol fl s = true /\ s1 = s
  | Eol => at_eol fl s = true /\ s1 = s
  | Seq a b => exists sm, matches fl a s sm /\ matches fl b sm s1
  | Alt a b => matches fl a s s1 \/ matches fl b s s1
  | Quant _ lo hi body =>
      iterates (matches fl body) (groups_of body) lo hi 0 s s1
  | Group n body =>
      exists sb, matches fl body s sb
                 /\ s1 = {| before := before sb; after := after sb;
                            caps := set_cap n (consumed s sb) (caps sb) |}
  | Lookahead body =>
      exists sb, matches fl body s sb
                 /\ s1 = {| before := before s; after := after s;
                            caps := caps sb |}
  end.

(** [s1] lies [u] further in the same subject than [s]. *)
Definition advanced (u : text) (s s1 : mstate) : Prop :=
  before s1 = rev u ++ before s /\ after s = u ++ after s1.

End Semantics.

(** ** Shape of an OpenAI-style key *)

Module Token.

(** The number of alphanumerics that [sk-[a-zA-Z0-9]{32,}] asks for, and the
    length of the shortest key. *)
Definition run : nat := 32.
Definition size : nat := 35.

(** The characters allowed at position [j] of a shortest key. *)
Definition ok (j : nat) (c : ascii) : bool :=
  match j with
  | 0 => ascii_eqb c "s"
  | 1 => ascii_eqb c "k"
  | 2 => ascii_eqb c "-"
  | _ => Chars.is_alnum c && (j <? size)
  end.

(** The [j] characters before a position, given nearest first, are the first
    [j] characters of a key. *)
Fixpoint fits_rev (j : nat) (pre_rev : text) : bool :=
  match j, pre_rev with
  | 0, _ => true
  | S j', c :: p => ok j' c && fits_rev j' p
  | S _, [] => false
  end.

(** A shortest key ends somewhere in [t], when [t] follows [pre_rev]. *)
Fixpoint hit (pre_rev t : text) : bool :=
  fits_rev size pre_rev ||
  match t with
  | [] => false
  | c :: t' => hit (c :: pre_rev) t'
  end.

(** [s] holds [sk-] followed by at least 32 alphanumerics. *)
Definition has_key (s : text) : bool := hit [] s.

(** A character that is at no position of a key. *)
Definition barrier (c : ascii) : bool :=
  negb (ascii_eqb c "-" || Chars.is_alnum c).

(** A replacement text that starts and ends with a barrier and holds no key. *)
Definition inert (r : text) : bool :=
  match r with
  | [] => false
  | b :: r' =>
      barrier b && negb (hit [b] r')
      && match rev r with
         | c :: _ => barrier c
         | [] => false
         end
  end.

(** [c'] is at no position of a key where [c] is not. *)
Definition weaker (c' c : ascii) : Prop :=
  forall j, ok j c' = true -> ok j c = true.

(** Every beginning of a key that ends [pre'] also ends [pre]. *)
Definition no_better (pre' pre : text) : Prop :=
  forall j, fits_rev j pre' = true -> fits_rev j pre = true.

(** A replacement [rep] for the matched text [w] that brings no key: [w]
    starts with [g], and [rep] puts [g'], no better than [g] character by
    character, in front of a tail that is either inert, or empty when [g] is
    all of [w]. *)
Definition harmless (w rep : text) : Prop :=
  exists g w2 g' tail,
    w = g ++ w2 /\ rep = g' ++ tail /\ Forall2 weaker g' g
    /\ (inert tail = true \/ (tail = [] /\ w2 = [])).

(** Every match of the rule is replaced harmlessly. *)
Definition safe_rule (r : Redactor.rule) : Prop :=
  forall pre rest s1,
    match_at (Redactor.rflags r) (Redactor.pattern r) pre rest = Some s1 ->
    harmless (whole (found_of pre s1)) (Redactor.replacement r (found_of pre s1)).

(** In the subject [rev pre ++ rest], the pattern was tried without success
    at the start of every beginning of a key that ends the output [pre']. *)
Definition tried (fl : flags) (r : re) (pre' pre rest : text) : Prop :=
  forall j, 1 <= j -> fits_rev j pre' = true ->
    fits_rev j pre = true
    /\ match_at fl r (skipn j pre) (rev (firstn j pre) ++ rest) = None.

(** The characters of [t] are allowed at the positions [i], [i + 1], ... of a
    key. *)
Fixpoint fits_fwd (i : nat) (t : text) : bool :=
  match t with
  | [] => true
  | c :: t' => ok i c && fits_fwd (S i) t'
  end.

(** What [(['DQ]?)] captures. *)
Definition quotes : list text := [[]; ["'"%char]; [dquote]].

(** The tag is inert between any two captured quotes. *)
Definition tag_ok (tag : text) : bool :=
  forallb (fun q1 => forallb (fun q3 => inert (q1 ++ tag ++ q3)) quotes) quotes.

Definition all_ascii : list ascii := map ascii_of_nat (seq 0 256).

End Token.

(** ** Shapes of the token rules *)

Module RuleShapes.

Import Semantics Token Redactor.

(** A pattern whose matches end with a capture of [(['DQ]?)] as group 3. *)
Definition closes_quote (X : re) : Prop :=
  forall s s', matches no_flags X s s' ->
    exists q3, In q3 quotes /\ get_cap 3 (caps s') = Some q3.

(** An alphanumeric other than [s] and [k]. *)
Definition plain_letter (c : ascii) : bool :=
  Chars.is_alnum c && negb (ascii_eqb c "s") && negb (ascii_eqb c "k").

(** The token rules after the OpenAI-key rule. *)
Definition later_rules : list rule :=
  [github_rule; slack_rule; google_rule; aws_access_rule; aws_secret_rule;
   stripe_rule; private_key_rule; jwt_rule; password_rule; connection_rule;
   bearer_rule].

End RuleShapes.

(** ** Shape of the rules that hide a file *)

Module HunkShapes.

Definition line_terminators : text := ["010"; "013"]%char.

Definition not_terminator (c : ascii) : bool :=
  negb (Chars.is_line_terminator c).

(** No match of [r] goes over a line terminator. *)
Fixpoint one_line (fl : flags) (r : re) : bool :=
  match r with
  | Empty | Bol | Eol | Dot => true
  | Char c => forallb (fun x => negb (char_matches fl c x)) line_terminators
  | Class neg items =>
      forallb (fun x => negb (class_matches fl neg items x)) line_terminators
  | Seq a b | Alt a b => one_line fl a && one_line fl b
  | Quant _ _ _ b | Group _ b => one_line fl b
  | Lookahead _ => true
  end.

(** The part of [hunk_of P] before [[\s\S]*?]: the line of the header. *)
Definition header (path : re) : re :=
  seqs [lit "diff --git a/"; star Dot; path; star_lazy Dot; Eol].

(** The [replace] calls that are to hide the content of a file. *)
Definition file_rules : list Redactor.rule :=
  Redactor.env_rule :: map Redactor.file_rule Redactor.sensitiveFiles.






(** The first part of [redactSensitivePatterns]: the [.env] rule and the
    loop over [sensitiveFiles]. *)
Definition hide_files (t : text) : text :=
  fold_left (fun acc path => Redactor.apply_rule (Redactor.file_rule path) acc)
            Redactor.sensitiveFiles
            (Redactor.apply_rule Redactor.env_rule t).

(** [kept a b]: [b] is [a] with characters inserted; every character of [a]
    is in [b], in the same order. *)
Inductive kept : text -> text -> Prop :=
| kept_nil : kept [] []
| kept_insert x a b : kept a b -> kept a (x :: b)
| kept_same x a b : kept a b -> kept (x :: a) (x :: b).

End HunkShapes.

(** ** What a global replacement copies and what it replaces *)

Module Spans.

Section Replaced.

Variables (fl : flags) (pat : re) (rep : found -> text).


End Replaced.



End Spans.

(** * Properties *)

(** ** Texts *)

Lemma ascii_eqb_eq (a b : ascii) : ascii_eqb a b = true <-> a = b.
Proof. apply Ascii.eqb_eq. Qed.

Lemma text_eqb_eq (a b : text) : text_eqb a b = true <-> a = b.
Proof.
  revert b; induction a as [| x a IH]; intros [| y b]; simpl;
    try (split; [discriminate | congruence]); try tauto.
  rewrite andb_true_iff, ascii_eqb_eq, IH. split.
  - intros [-> ->]; reflexivity.
  - intros E; injection E; auto.
Qed.

Lemma text_eqb_refl (a : text) : text_eqb a a = true.
Proof. apply text_eqb_eq; reflexivity. Qed.

Lemma text_eqb_neq (a b : text) : text_eqb a b = false <-> a <> b.
Proof.
  destruct (text_eqb a b) eqn:E.
  - apply text_eqb_eq in E. split; [discriminate | congruence].
  - split; [| reflexivity]. intros _ H. apply text_eqb_eq in H. congruence.
Qed.

(** ** Folds *)

Lemma fold_left_cons {A B} (f : A -> B -> A) (b : B) (l : list B) (a : A) :
  fold_left f (b :: l) a = fold_left f l (f a b).
Proof. reflexivity. Qed.


(** ** The matcher and the matches *)

Module SemanticsFacts.

Import Semantics.

Lemma or_else_some {A} (a : option A) (b : unit -> option A) (v : A) :
  or_else a b = Some v -> a = Some v \/ b tt = Some v.
Proof. destruct a; simpl; auto. Qed.

Lemma one_char_some p k s s' :
  one_char p k s = Some s' ->
  exists x t, after s = x :: t /\ p x = true /\ k (step s x t) = Some s'.
Proof.
  unfold one_char. destruct (after s) as [| x t]; [discriminate |].
  destruct (p x) eqn:E; [| discriminate]. intros H. exists x, t. auto.
Qed.

(** Soundness of the loop of a quantifier, given soundness of its body. *)
Lemma repeat_loop_sound (m : (mstate -> option mstate) -> mstate -> option mstate)
    (M : mstate -> mstate -> Prop) inner greedy lo hi k
    (Hm : forall k0 s s', m k0 s = Some s' ->
            exists s1, M s s1 /\ k0 s1 = Some s') :
  forall fuel cnt s0 s',
    repeat_loop m inner greedy lo hi k fuel cnt s0 = Some s' ->
    exists s1, iterates M inner lo hi cnt s0 s1 /\ k s1 = Some s'.
Proof.
  assert (Hstop : forall cnt s0 s',
             (if lo <=? cnt then k s0 else None) = Some s' ->
             exists s1, iterates M inner lo hi cnt s0 s1 /\ k s1 = Some s').
  { intros cnt s0 s' H. destruct (Nat.leb_spec lo cnt); [| discriminate].
    exists s0. split; [apply iterates_stop; assumption | exact H]. }
  induction fuel as [| fuel IH]; intros cnt s0 s' H.
  - apply Hstop. exact H.
  - cbn [repeat_loop] in H.
    assert (Hmore : (if below cnt hi then
               m (fun s1 =>
                    if (cnt <? lo) || (length (after s1) <? length (after s0))
                    then repeat_loop m inner greedy lo hi k fuel (S cnt) s1
                    else None)
                 {| before := before s0; after := after s0;
                    caps := clear_caps inner (caps s0) |}
             else None) = Some s' ->
            exists s1, iterates M inner lo hi cnt s0 s1 /\ k s1 = Some s').
    { destruct (below cnt hi) eqn:Eb; [| discriminate]. intros Hb.
      apply Hm in Hb. destruct Hb as (s1 & HM & Hk).
      destruct ((cnt <? lo) || _); [| discriminate].
      apply IH in Hk. destruct Hk as (s2 & Hit & Hk2).
      exists s2. split; [| exact Hk2].
      eapply iterates_more; eassumption. }
    destruct greedy; apply or_else_some in H; destruct H as [H | H]; auto.
Qed.

(** Every result of the matcher is a match that its continuation accepted. *)
Theorem rmatch_sound fl r : forall k s s',
  rmatch fl r k s = Some s' ->
  exists s1, matches fl r s s1 /\ k s1 = Some s'.
Proof.
  induction r as [| c | | neg items | | | a IHa b IHb | a IHa b IHb
                 | greedy lo hi body IH | n body IH | body IH];
    intros k s s' H; cbn [rmatch] in H; cbn [matches].
  - exists s. auto.
  - apply one_char_some in H. destruct H as (x & t & Ha & Hp & Hk).
    exists (step s x t). split; [exists x, t; auto | exact Hk].
  - apply one_char_some in H. destruct H as (x & t & Ha & Hp & Hk).
    exists (step s x t). split; [| exact Hk].
    exists x, t. rewrite negb_true_iff in Hp. auto.
  - apply one_char_some in H. destruct H as (x & t & Ha & Hp & Hk).
    exists (step s x t). split; [exists x, t; auto | exact Hk].
  - destruct (at_bol fl s) eqn:E; [| discriminate]. exists s. auto.
  - destruct (at_eol fl s) eqn:E; [| discriminate]. exists s. auto.
  - apply IHa in H. destruct H as (sm & Hma & H).
    apply IHb in H. destruct H as (s1 & Hmb & H).
    exists s1. split; [exists sm; auto | exact H].
  - apply or_else_some in H. destruct H as [H | H].
    + apply IHa in H. destruct H as (s1 & Hm & H). exists s1. auto.
    + apply IHb in H. destruct H as (s1 & Hm & H). exists s1. auto.
  - eapply repeat_loop_sound in H; [exact H | exact IH].
  - apply IH in H. destruct H as (sb & Hm & H).
    eexists. split; [exists sb; split; [exact Hm | reflexivity] | exact H].
  - destruct (rmatch fl body Some s) as [sb |] eqn:E; [| discriminate].
    apply IH in E. destruct E as (sb' & Hm & E). injection E as ->.
    eexists. split; [exists sb; split; [exact Hm | reflexivity] | exact H].
Qed.

Lemma match_at_sound fl r pre rest s1 :
  match_at fl r pre rest = Some s1 ->
  matches fl r (start_state pre rest) s1.
Proof.
  intros H. apply rmatch_sound in H. destruct H as (s & Hm & E).
  injection E as ->. exact Hm.
Qed.

(** *** Positions *)

Lemma advanced_refl s : advanced [] s s.
Proof. split; reflexivity. Qed.

Lemma advanced_step s x t : after s = x :: t -> advanced [x] s (step s x t).
Proof. intros H. split; [reflexivity | exact H]. Qed.

Lemma advanced_trans u v s sm s1 :
  advanced u s sm -> advanced v sm s1 -> advanced (u ++ v) s s1.
Proof.
  intros [B1 A1] [B2 A2]. split.
  - rewrite B2, B1, rev_app_distr, app_assoc. reflexivity.
  - rewrite A1, A2, app_assoc. reflexivity.
Qed.

Lemma iterates_advanced (M : mstate -> mstate -> Prop) inner lo hi
    (HM : forall s s1, M s s1 -> exists u, advanced u s s1) :
  forall cnt s s1, iterates M inner lo hi cnt s s1 -> exists u, advanced u s s1.
Proof.
  induction 1 as [cnt s Hle | cnt s s1 s2 Hb Hbody Hit IH].
  - exists []. apply advanced_refl.
  - apply HM in Hbody. destruct Hbody as (u & Hu). destruct IH as (v & Hv).
    exists (u ++ v). eapply advanced_trans; [| exact Hv]. exact Hu.
Qed.

(** A match consumes a piece of the subject and leaves the rest in place. *)
Theorem matches_advanced fl r : forall s s1,
  matches fl r s s1 -> exists u, advanced u s s1.
Proof.
  induction r as [| c | | neg items | | | a IHa b IHb | a IHa b IHb
                 | greedy lo hi body IH | n body IH | body IH];
    intros s s1 H; cbn [matches] in H.
  - subst. exists []. apply advanced_refl.
  - destruct H as (x & t & Ha & _ & ->). exists [x]. apply advanced_step; auto.
  - destruct H as (x & t & Ha & _ & ->). exists [x]. apply advanced_step; auto.
  - destruct H as (x & t & Ha & _ & ->). exists [x]. apply advanced_step; auto.
  - destruct H as [_ ->]. exists []. apply advanced_refl.
  - destruct H as [_ ->]. exists []. apply advanced_refl.
  - destruct H as (sm & Ha & Hb).
    apply IHa in Ha. apply IHb in Hb. destruct Ha as (u & Hu), Hb as (v & Hv).
    exists (u ++ v). eapply advanced_trans; eassumption.
  - destruct H as [H | H]; [apply IHa in H | apply IHb in H]; exact H.
  - eapply iterates_advanced; [| exact H].
    intros s0 s2 Hm. apply IH in Hm. exact Hm.
  - destruct H as (sb & Hm & ->). apply IH in Hm. destruct Hm as (u & Hu).
    exists u. exact Hu.
  - destruct H as (sb & Hm & ->). exists []. split; reflexivity.
Qed.

Lemma consumed_advanced u s s1 : advanced u s s1 -> consumed s s1 = u.
Proof.
  intros [B _]. unfold consumed. rewrite B, length_app, length_rev.
  replace (length u + length (before s) - length (before s)) with (length u)
    by lia.
  rewrite <- (length_rev u), firstn_app, Nat.sub_diag, firstn_all.
  cbn [firstn]. rewrite app_nil_r. apply rev_involutive.
Qed.

(** *** Captures *)

Lemma get_cap_clear n ns cs :
  ~ In n ns -> get_cap n (clear_caps ns cs) = get_cap n cs.
Proof.
  intros Hn. unfold clear_caps.
  induction cs as [| [m v] cs IH]; [reflexivity |].
  cbn [filter fst get_cap].
  destruct (existsb (Nat.eqb m) ns) eqn:E; cbn [negb get_cap].
  - rewrite IH. destruct (Nat.eqb_spec n m) as [-> | _]; [| reflexivity].
    exfalso. apply Hn. apply existsb_exists in E. destruct E as (x & Hx & Ex).
    apply Nat.eqb_eq in Ex. subst x. exact Hx.
  - rewrite IH. reflexivity.
Qed.

Lemma get_cap_set_same n v cs : get_cap n (set_cap n v cs) = Some v.
Proof. unfold set_cap. cbn [get_cap]. rewrite Nat.eqb_refl. reflexivity. Qed.

Lemma get_cap_set_other n m v cs :
  n <> m -> get_cap n (set_cap m v cs) = get_cap n cs.
Proof.
  intros Hn. unfold set_cap. cbn [get_cap].
  destruct (Nat.eqb_spec n m); [contradiction |].
  apply get_cap_clear. intros [E | []]. congruence.
Qed.

Lemma iterates_frame (M : mstate -> mstate -> Prop) inner lo hi n
    (Hn : ~ In n inner)
    (HM : forall s s1, M s s1 -> get_cap n (caps s1) = get_cap n (caps s)) :
  forall cnt s s1, iterates M inner lo hi cnt s s1 ->
    get_cap n (caps s1) = get_cap n (caps s).
Proof.
  induction 1 as [cnt s Hle | cnt s s1 s2 Hb Hbody Hit IH]; [reflexivity |].
  rewrite IH. apply HM in Hbody. rewrite Hbody. cbn [caps].
  apply get_cap_clear. exact Hn.
Qed.

(** A pattern changes the captures of its own groups only. *)
Theorem matches_frame fl n r : forall s s1,
  matches fl r s s1 -> ~ In n (groups_of r) ->
  get_cap n (caps s1) = get_cap n (caps s).
Proof.
  induction r as [| c | | neg items | | | a IHa b IHb | a IHa b IHb
                 | greedy lo hi body IH | m body IH | body IH];
    intros s s1 H Hn; cbn [matches] in H; cbn [groups_of] in Hn.
  - subst. reflexivity.
  - destruct H as (x & t & _ & _ & ->). reflexivity.
  - destruct H as (x & t & _ & _ & ->). reflexivity.
  - destruct H as (x & t & _ & _ & ->). reflexivity.
  - destruct H as [_ ->]. reflexivity.
  - destruct H as [_ ->]. reflexivity.
  - destruct H as (sm & Ha & Hb).
    rewrite (@IHb _ _ Hb), (@IHa _ _ Ha); [reflexivity | |];
      intros Hin; apply Hn; apply in_or_app; auto.
  - destruct H as [H | H]; [apply (@IHa _ _ H) | apply (@IHb _ _ H)];
      intros Hin; apply Hn; apply in_or_app; auto.
  - eapply iterates_frame; [exact Hn | | exact H].
    intros s0 s2 Hm. apply (@IH _ _ Hm). exact Hn.
  - destruct H as (sb & Hm & ->). cbn [caps].
    rewrite get_cap_set_other by (intros E; apply Hn; left; congruence).
    apply (@IH _ _ Hm). intros Hin. apply Hn. right. exact Hin.
  - destruct H as (sb & Hm & ->). cbn [caps]. apply (@IH _ _ Hm). exact Hn.
Qed.

(** A group captures what its body consumed. *)
Lemma matches_group fl n body s s1 :
  matches fl (Group n body) s s1 ->
  exists u, advanced u s s1 /\ get_cap n (caps s1) = Some u.
Proof.
  cbn [matches]. intros (sb & Hm & ->).
  apply matches_advanced in Hm. destruct Hm as (u & Hu).
  exists u. split; [exact Hu |]. cbn [caps].
  rewrite get_cap_set_same. f_equal. apply consumed_advanced. exact Hu.
Qed.

(** *** Literals *)

Lemma matches_lit_list fl t : forall s s1,
  matches fl (lit_list t) s s1 ->
  exists g, Forall2 (fun c x => char_matches fl c x = true) t g
            /\ advanced g s s1.
Proof.
  induction t as [| c t IH]; intros s s1 H.
  - cbn in H. subst. exists []. split; [constructor | apply advanced_refl].
  - assert (Hs : exists sm, matches fl (Char c) s sm /\ matches fl (lit_list t) sm s1).
    { destruct t as [| c' t'].
      - exists s1. split; [exact H | reflexivity].
      - exact H. }
    destruct Hs as (sm & Hc & Ht). apply IH in Ht. destruct Ht as (g & Hg & Ha).
    cbn [matches] in Hc. destruct Hc as (x & tl & Hx & Hcm & ->).
    exists (x :: g). split; [constructor; assumption |].
    change (x :: g) with ([x] ++ g).
    eapply advanced_trans; [apply advanced_step; exact Hx | exact Ha].
Qed.

(** *** What a replacement is given *)

Lemma found_of_match fl r pre rest s1 :
  match_at fl r pre rest = Some s1 ->
  matches fl r (start_state pre rest) s1
  /\ rest = whole (found_of pre s1) ++ after s1
  /\ before s1 = rev (whole (found_of pre s1)) ++ pre.
Proof.
  intros H. apply match_at_sound in H. split; [exact H |].
  destruct (@matches_advanced _ _ _ _ H) as (u & Hu).
  assert (E : whole (found_of pre s1) = u).
  { cbn [found_of whole]. unfold consumed. cbn [start_state before].
    apply (consumed_advanced Hu). }
  rewrite E. destruct Hu as [B A]. split; [exact A | exact B].
Qed.

End SemanticsFacts.

(** ** Keys and replacements *)

Module TokenFacts.

Import Token.

Lemma ok_barrier j c : barrier c = true -> ok j c = false.
Proof.
  intros Hb. destruct (ok j c) eqn:E; [exfalso | reflexivity].
  unfold barrier in Hb. rewrite negb_true_iff, orb_false_iff in Hb.
  destruct Hb as [Hd Ha].
  destruct j as [| [| [| j]]]; cbn [ok] in E.
  - apply ascii_eqb_eq in E. subst c. discriminate Ha.
  - apply ascii_eqb_eq in E. subst c. discriminate Ha.
  - apply ascii_eqb_eq in E. subst c. discriminate Hd.
  - apply andb_true_iff in E. destruct E as [E _]. congruence.
Qed.

Lemma fits_rev_barrier j b p : barrier b = true -> fits_rev (S j) (b :: p) = false.
Proof. intros Hb. cbn [fits_rev]. rewrite (@ok_barrier j b Hb). reflexivity. Qed.

Lemma weaker_refl c : weaker c c.
Proof. intros j H. exact H. Qed.

Lemma no_better_refl p : no_better p p.
Proof. intros j H. exact H. Qed.

Lemma no_better_cons c' c p' p :
  weaker c' c -> no_better p' p -> no_better (c' :: p') (c :: p).
Proof.
  intros Hw Hn [| j]; [reflexivity |]. cbn [fits_rev].
  rewrite !andb_true_iff. intros [Ho Hf]. split; [apply Hw | apply Hn]; assumption.
Qed.

Lemma no_better_barrier b p' p : barrier b = true -> no_better (b :: p') p.
Proof.
  intros Hb [| j]; [reflexivity |]. rewrite (@fits_rev_barrier j b p' Hb). discriminate.
Qed.

Lemma no_better_app g' g :
  Forall2 weaker g' g ->
  forall p' p, no_better p' p -> no_better (rev g' ++ p') (rev g ++ p).
Proof.
  induction 1 as [| c' c g' g Hw Hg IH]; intros p' p Hn; [exact Hn |].
  cbn [rev]. rewrite <- !app_assoc. cbn [app].
  apply IH. apply no_better_cons; assumption.
Qed.

Lemma hit_unfold p t :
  hit p t = fits_rev size p || match t with
                               | [] => false
                               | c :: t' => hit (c :: p) t'
                               end.
Proof. destruct t; reflexivity. Qed.

Lemma hit_mono t : forall p' p,
  no_better p' p -> hit p' t = true -> hit p t = true.
Proof.
  induction t as [| c t IH]; intros p' p Hn;
    rewrite (hit_unfold p'), (hit_unfold p), !orb_true_iff.
  - intros [H | H]; [left; apply Hn; exact H | discriminate].
  - intros [H | H]; [left; apply Hn; exact H | right].
    eapply IH; [| exact H]. apply no_better_cons; [apply weaker_refl | exact Hn].
Qed.

Lemma hit_weaker g' g :
  Forall2 weaker g' g ->
  forall p' p, no_better p' p -> hit p' g' = true -> hit p g = true.
Proof.
  induction 1 as [| c' c g' g Hw Hg IH]; intros p' p Hn;
    rewrite (hit_unfold p'), (hit_unfold p), !orb_true_iff.
  - intros [H | H]; [left; apply Hn; exact H | discriminate].
  - intros [H | H]; [left; apply Hn; exact H | right].
    eapply IH; [| exact H]. apply no_better_cons; assumption.
Qed.

Lemma hit_app a : forall p b,
  hit p (a ++ b) = hit p a || hit (rev a ++ p) b.
Proof.
  induction a as [| c a IH]; intros p b.
  - cbn [app rev]. rewrite (hit_unfold p b), (hit_unfold p []).
    destruct (fits_rev size p); reflexivity.
  - cbn [app rev]. rewrite (hit_unfold p (c :: a ++ b)), (hit_unfold p (c :: a)).
    rewrite IH, <- app_assoc. cbn [app]. rewrite orb_assoc. reflexivity.
Qed.

Lemma hit_end a p : fits_rev size (rev a ++ p) = true -> hit p a = true.
Proof.
  intros H. rewrite <- (app_nil_r a), hit_app.
  rewrite (hit_unfold (rev a ++ p) []), H. apply orb_true_r.
Qed.

Lemma hit_nil p : hit p [] = fits_rev size p.
Proof. rewrite hit_unfold. apply orb_false_r. Qed.

Lemma inert_parts r :
  inert r = true ->
  exists b r' c l, r = b :: r' /\ barrier b = true /\ hit [b] r' = false
                   /\ rev r = c :: l /\ barrier c = true.
Proof.
  unfold inert. destruct r as [| b r']; [discriminate |].
  destruct (rev (b :: r')) as [| c l] eqn:Er;
    [rewrite andb_false_r; discriminate |].
  rewrite !andb_true_iff, negb_true_iff. intros [[Hb Hh] Hc].
  exists b, r', c, l. auto.
Qed.

Lemma inert_hit r p' :
  inert r = true -> hit p' r = true -> fits_rev size p' = true.
Proof.
  intros Hi H. destruct (@inert_parts r Hi) as (b & r' & c & l & -> & Hb & Hh & _).
  rewrite hit_unfold in H. apply orb_true_iff in H. destruct H as [H | H]; [exact H |].
  apply (@hit_mono r' (b :: p') [b]) in H; [congruence |].
  apply no_better_barrier. exact Hb.
Qed.

Lemma inert_end r p' p : inert r = true -> no_better (rev r ++ p') p.
Proof.
  intros Hi. destruct (@inert_parts r Hi) as (b & r' & c & l & _ & _ & _ & Er & Hc).
  rewrite Er. cbn [app]. apply no_better_barrier. exact Hc.
Qed.

Section Harmless.

Variables (w rep p' p : text).
Hypothesis Hh : harmless w rep.
Hypothesis Hn : no_better p' p.

Lemma harmless_hit : hit p' rep = true -> hit p w = true.
Proof.
  destruct Hh as (g & w2 & g' & tail & -> & -> & Hg & Ht).
  rewrite !hit_app, !orb_true_iff. intros [H | H]; left.
  - eapply hit_weaker; eassumption.
  - apply hit_end. apply (@no_better_app g' g Hg p' p Hn).
    destruct Ht as [Ht | [-> _]].
    + eapply inert_hit; eassumption.
    + rewrite hit_nil in H. exact H.
Qed.

Lemma harmless_end : no_better (rev rep ++ p') (rev w ++ p).
Proof.
  destruct Hh as (g & w2 & g' & tail & -> & -> & Hg & Ht).
  destruct Ht as [Ht | [-> ->]].
  - rewrite rev_app_distr, <- app_assoc. apply inert_end. exact Ht.
  - rewrite !app_nil_r. apply no_better_app; assumption.
Qed.

End Harmless.

(** A [replace] whose replacements are harmless brings no key: a key that
    ends in its output ends in its input. *)
Lemma replace_from_no_new_key fl pat rep
    (Hsafe : forall pre rest s1,
        match_at fl pat pre rest = Some s1 ->
        harmless (whole (found_of pre s1)) (rep (found_of pre s1))) :
  forall fuel pre rest pre',
    no_better pre' pre ->
    hit pre' (replace_from fuel fl pat rep pre rest) = true ->
    hit pre rest = true.
Proof.
  induction fuel as [| fuel IH]; intros pre rest pre' Hn H.
  - cbn [replace_from] in H. eapply hit_mono; eassumption.
  - cbn [replace_from] in H.
    destruct (match_at fl pat pre rest) as [s1 |] eqn:Em.
    + pose proof (@Hsafe _ _ _ Em) as Hh.
      destruct (@SemanticsFacts.found_of_match _ _ _ _ _ Em) as (_ & Hrest & Hbefore).
      set (m := found_of pre s1) in *.
      assert (Hrep : hit pre' (rep m) = true -> hit pre rest = true).
      { intros Hr. rewrite Hrest, hit_app. apply orb_true_iff. left.
        eapply harmless_hit; eassumption. }
      pose proof (@harmless_end _ _ _ _ Hh Hn) as Hend.
      destruct (whole m) as [| y w] eqn:Ew.
      * cbn [rev app] in Hend. cbn [app] in Hrest.
        destruct rest as [| x rest'].
        -- auto.
        -- rewrite hit_app in H. apply orb_true_iff in H.
           destruct H as [H | H]; [auto |].
           rewrite hit_unfold in H. apply orb_true_iff in H.
           rewrite hit_unfold. apply orb_true_iff.
           destruct H as [H | H]; [left; apply Hend; exact H | right].
           eapply IH; [| exact H].
           apply no_better_cons; [apply weaker_refl | exact Hend].
      * rewrite hit_app in H. apply orb_true_iff in H.
        destruct H as [H | H]; [auto |].
        rewrite Hrest, hit_app. apply orb_true_iff. right.
        rewrite <- Hbefore. eapply IH; [| exact H].
        rewrite Hbefore. exact Hend.
    + destruct rest as [| x rest']; [eapply hit_mono; eassumption |].
      rewrite hit_unfold in H. apply orb_true_iff in H.
      rewrite hit_unfold. apply orb_true_iff.
      destruct H as [H | H]; [left; apply Hn; exact H | right].
      eapply IH; [| exact H].
      apply no_better_cons; [apply weaker_refl | exact Hn].
Qed.

Lemma apply_rule_no_new_key (r : Redactor.rule) (s : text) :
  safe_rule r -> has_key (Redactor.apply_rule r s) = true -> has_key s = true.
Proof.
  intros Hs. unfold has_key, Redactor.apply_rule, replace_all.
  apply replace_from_no_new_key; [exact Hs | apply no_better_refl].
Qed.

End TokenFacts.

(** ** The replacements of the token rules *)

Module RuleFacts.

Import Semantics SemanticsFacts Token TokenFacts Redactor RuleShapes.

Lemma matches_seq fl a b s s1 :
  matches fl (Seq a b) s s1 ->
  exists sm, matches fl a s sm /\ matches fl b sm s1.
Proof. intros H. exact H. Qed.

(** An optional character: nothing or one character of the class. *)
Lemma matches_opt_class fl neg items s s1 :
  matches fl (opt (Class neg items)) s s1 ->
  advanced [] s s1
  \/ exists x, class_matches fl neg items x = true /\ advanced [x] s s1.
Proof.
  unfold opt. cbn [matches groups_of]. intros H.
  inversion H as [cnt s0 Hle | cnt s0 sa sb Hb Hbody Hit]; subst.
  - left. apply advanced_refl.
  - right. cbn [matches] in Hbody.
    destruct Hbody as (x & t & Hx & Hc & ->). cbn [after] in Hx.
    exists x. split; [exact Hc |].
    inversion Hit as [cnt s0 Hle | cnt s0 sa' sb' Hb' Hbody' Hit']; subst.
    + split; [reflexivity | exact Hx].
    + discriminate Hb'.
Qed.

Lemma quote_class x :
  class_matches no_flags false [IChar "'"; IChar dquote] x = true ->
  x = "'"%char \/ x = dquote.
Proof.
  unfold class_matches, item_matches. cbn [existsb ignoreCase no_flags xorb andb].
  rewrite !orb_false_r. cbn [item_has]. rewrite orb_true_iff, !ascii_eqb_eq.
  intros [H | H]; auto.
Qed.

(** [(['DQ]?)] consumes and captures nothing or one quote. *)
Lemma matches_quote n s s1 :
  matches no_flags (quote n) s s1 ->
  exists q, In q quotes /\ advanced q s s1 /\ get_cap n (caps s1) = Some q.
Proof.
  intros H. destruct (@matches_group _ _ _ _ _ H) as (u & Hu & Hcap).
  exists u. split; [| auto].
  unfold quote in H. cbn [matches] in H. destruct H as (sb & Hm & ->).
  assert (Hsb : advanced u s sb) by exact Hu.
  apply matches_opt_class in Hm. destruct Hm as [Ha | (x & Hx & Ha)].
  - assert (u = []) as ->.
    { rewrite <- (consumed_advanced Hsb). apply consumed_advanced. exact Ha. }
    left. reflexivity.
  - assert (u = [x]) as ->.
    { rewrite <- (consumed_advanced Hsb). apply consumed_advanced. exact Ha. }
    apply quote_class in Hx. destruct Hx as [-> | ->];
      [right; left | right; right; left]; reflexivity.
Qed.

Lemma group_found n pre s1 u :
  get_cap n (caps s1) = Some u -> group n (found_of pre s1) = u.
Proof. intros H. unfold group. cbn [found_of groups]. rewrite H. reflexivity. Qed.

Lemma harmless_inert w rep : inert rep = true -> harmless w rep.
Proof.
  intros H. exists [], w, [], rep. repeat split; [constructor | left; exact H].
Qed.

Lemma harmless_same w : harmless w w.
Proof.
  exists w, [], w, []. rewrite !app_nil_r. repeat split; [| right; auto].
  induction w; constructor; [apply weaker_refl | assumption].
Qed.

Lemma harmless_keep g w2 tail :
  inert tail = true -> harmless (g ++ w2) (g ++ tail).
Proof.
  intros H. exists g, w2, g, tail. repeat split; [| left; exact H].
  induction g; constructor; [apply weaker_refl | assumption].
Qed.

Lemma tag_ok_inert tag q1 q3 :
  tag_ok tag = true -> In q1 quotes -> In q3 quotes ->
  inert (q1 ++ tag ++ q3) = true.
Proof.
  unfold tag_ok. rewrite forallb_forall. intros H H1 H3.
  specialize (H q1 H1). rewrite forallb_forall in H. apply H. exact H3.
Qed.


Lemma closes_quote_last a : closes_quote (Seq a (quote 3)).
Proof.
  intros s s' H. apply matches_seq in H. destruct H as (sm & _ & H3).
  apply matches_quote in H3. destruct H3 as (q3 & Hq3 & _ & Hc3).
  exists q3. auto.
Qed.

Lemma closes_quote_seq a X : closes_quote X -> closes_quote (Seq a X).
Proof.
  intros HX s s' H. apply matches_seq in H. destruct H as (sm & _ & H3).
  apply HX in H3. exact H3.
Qed.

(** The matches of [(['DQ]?)X] where [X] ends with [(['DQ]?)]: groups 1 and 3
    are quotes or empty. *)
Lemma quoted_groups X pre rest s1 :
  ~ In 1 (groups_of X) -> closes_quote X ->
  match_at no_flags (Seq (quote 1) X) pre rest = Some s1 ->
  exists q1 q3, In q1 quotes /\ In q3 quotes
    /\ group 1 (found_of pre s1) = q1 /\ group 3 (found_of pre s1) = q3.
Proof.
  intros Hn HX H. apply match_at_sound in H.
  apply matches_seq in H. destruct H as (sa & H1 & Hrest).
  pose proof (@matches_frame no_flags 1 _ _ _ Hrest Hn) as Hframe.
  apply HX in Hrest. destruct Hrest as (q3 & Hq3 & Hc3).
  apply matches_quote in H1. destruct H1 as (q1 & Hq1 & _ & Hc1).
  exists q1, q3. repeat split; try assumption; apply group_found; [| exact Hc3].
  rewrite Hframe. exact Hc1.
Qed.

Lemma quoted_rule_safe body tag :
  ~ In 1 (groups_of body) -> tag_ok (str tag) = true ->
  safe_rule (quoted_rule body tag).
Proof.
  intros Hb Htag pre rest s1 Hm.
  change (pattern (quoted_rule body tag))
    with (Seq (quote 1) (Seq (Group 2 body) (quote 3))) in Hm.
  apply quoted_groups in Hm; [| | apply closes_quote_last].
  - destruct Hm as (q1 & q3 & Hq1 & Hq3 & E1 & E3).
    cbn [replacement quoted_rule]. rewrite E1, E3.
    apply harmless_inert. apply tag_ok_inert; assumption.
  - cbn [groups_of quote opt]. intros [E | Hin]; [discriminate |].
    apply in_app_or in Hin. destruct Hin as [Hin | [E | []]]; [auto | discriminate].
Qed.

Lemma openai_rule_inert pre rest s1 :
  match_at (rflags openai_rule) (pattern openai_rule) pre rest = Some s1 ->
  inert (replacement openai_rule (found_of pre s1)) = true.
Proof.
  intros Hm.
  change (pattern openai_rule)
    with (Seq (quote 1) (Seq (Group 2 openai_key) (quote 3))) in Hm.
  apply quoted_groups in Hm; [| | apply closes_quote_last].
  - destruct Hm as (q1 & q3 & Hq1 & Hq3 & E1 & E3).
    cbn [replacement openai_rule quoted_rule]. rewrite E1, E3.
    apply tag_ok_inert; [vm_compute; reflexivity | assumption | assumption].
  - vm_compute. intros [E | [E | []]]; discriminate.
Qed.

Lemma github_rule_safe : safe_rule github_rule.
Proof.
  apply quoted_rule_safe; [vm_compute; intros [] | vm_compute; reflexivity].
Qed.

Lemma slack_rule_safe : safe_rule slack_rule.
Proof.
  apply quoted_rule_safe; [vm_compute; intros [] | vm_compute; reflexivity].
Qed.

Lemma stripe_rule_safe : safe_rule stripe_rule.
Proof.
  apply quoted_rule_safe; [vm_compute; intros [] | vm_compute; reflexivity].
Qed.

Lemma jwt_rule_safe : safe_rule jwt_rule.
Proof.
  apply quoted_rule_safe; [vm_compute; intros [] | vm_compute; reflexivity].
Qed.

Lemma google_rule_safe : safe_rule google_rule.
Proof.
  intros pre rest s1 Hm.
  change (pattern google_rule)
    with (Seq (quote 1)
            (Seq (Group 2 (at_least 32 alnum))
               (Seq (lit ".apps.googleusercontent.com") (quote 3)))) in Hm.
  apply quoted_groups in Hm;
    [| | apply closes_quote_seq; apply closes_quote_last].
  - destruct Hm as (q1 & q3 & Hq1 & Hq3 & E1 & E3).
    cbn [replacement google_rule]. rewrite E1, E3.
    apply harmless_inert.
    apply tag_ok_inert; [vm_compute; reflexivity | assumption | assumption].
  - vm_compute. intros [E | [E | []]]; discriminate.
Qed.

Lemma aws_secret_rule_safe : safe_rule aws_secret_rule.
Proof.
  intros pre rest s1 Hm.
  change (pattern aws_secret_rule)
    with (Seq (quote 1)
            (Seq (Group 2 (exactly 40 (Class false base64_items))) (quote 3)))
    in Hm.
  apply quoted_groups in Hm; [| | apply closes_quote_last].
  - destruct Hm as (q1 & q3 & Hq1 & Hq3 & E1 & E3).
    cbn [replacement aws_secret_rule]. rewrite E1, E3.
    destruct (test no_flags _ _); [| apply harmless_same].
    apply harmless_inert.
    apply tag_ok_inert; [vm_compute; reflexivity | assumption | assumption].
  - vm_compute. intros [E | [E | []]]; discriminate.
Qed.

Lemma aws_access_rule_safe : safe_rule aws_access_rule.
Proof.
  intros pre rest s1 _. apply harmless_inert. vm_compute. reflexivity.
Qed.

Lemma private_key_rule_safe : safe_rule private_key_rule.
Proof.
  intros pre rest s1 _. apply harmless_inert. vm_compute. reflexivity.
Qed.

(** The matched text of a pattern that starts with [a] starts with what [a]
    consumed. *)
Lemma whole_split fl a X pre rest s1 u sa :
  match_at fl (Seq a X) pre rest = Some s1 ->
  advanced u (start_state pre rest) sa -> matches fl X sa s1 ->
  exists v, whole (found_of pre s1) = u ++ v.
Proof.
  intros Hm Hu HX.
  destruct (@found_of_match _ _ _ _ _ Hm) as (_ & _ & Hbefore).
  apply matches_advanced in HX. destruct HX as (v & Hv).
  exists v. pose proof (advanced_trans Hu Hv) as [B _].
  cbn [start_state before] in B. rewrite Hbefore in B.
  apply app_inv_tail in B. rewrite <- (rev_involutive (whole _)), B.
  apply rev_involutive.
Qed.

(** A rule whose pattern starts with group 1 and whose replacement is group 1
    followed by an inert tail. *)
Lemma keep_group1_safe fl a X tail (r : rule) :
  rflags r = fl -> pattern r = Seq (Group 1 a) X ->
  (forall m, replacement r m = group 1 m ++ tail) ->
  ~ In 1 (groups_of X) -> inert tail = true ->
  safe_rule r.
Proof.
  intros Hfl Hpat Hrep Hn Htail pre rest s1 Hm. rewrite Hfl, Hpat in Hm.
  pose proof Hm as H. apply match_at_sound in H.
  apply matches_seq in H. destruct H as (sa & H1 & HX).
  apply matches_group in H1. destruct H1 as (u & Hu & Hcap).
  destruct (@whole_split _ _ _ _ _ _ _ _ Hm Hu HX) as (v & Hw).
  rewrite Hrep, Hw.
  rewrite (@group_found 1 pre s1 u).
  - apply harmless_keep. exact Htail.
  - rewrite (@matches_frame fl 1 _ _ _ HX Hn). exact Hcap.
Qed.

Lemma password_rule_safe : safe_rule password_rule.
Proof.
  eapply keep_group1_safe with (tail := str "=[REDACTED]");
    [reflexivity | reflexivity | reflexivity | | vm_compute; reflexivity].
  vm_compute. intros [E | []]. discriminate.
Qed.

Lemma connection_rule_safe : safe_rule connection_rule.
Proof.
  eapply keep_group1_safe with (tail := str "://[REDACTED_CONNECTION_STRING]");
    [reflexivity | reflexivity | reflexivity | | vm_compute; reflexivity].
  vm_compute. intros [].
Qed.

(** *** Letters in another case *)

Lemma upper_alnum c :
  Chars.is_alnum c = true -> Chars.is_alnum (Chars.upper c) = true.
Proof.
  destruct c as [[|] [|] [|] [|] [|] [|] [|] [|]];
    vm_compute; intros H; congruence.
Qed.

Lemma alnum_ignore_case c x :
  Chars.is_alnum c = true -> char_matches flags_i c x = true ->
  Chars.is_alnum x = true.
Proof.
  intros Hc Hm. unfold char_matches, canon in Hm. cbn [ignoreCase flags_i] in Hm.
  apply ascii_eqb_eq in Hm.
  destruct (Chars.is_lower x) eqn:El.
  - unfold Chars.is_alnum. rewrite El. reflexivity.
  - unfold Chars.upper in Hm at 2. rewrite El in Hm. subst x.
    apply upper_alnum. exact Hc.
Qed.


Lemma weaker_plain_letter c x :
  plain_letter c = true -> char_matches flags_i c x = true -> weaker c x.
Proof.
  unfold plain_letter. rewrite !andb_true_iff, !negb_true_iff.
  intros [[Ha Hs] Hk] Hm j Hj.
  destruct j as [| [| [| j]]]; cbn [ok] in *; try congruence.
  - apply ascii_eqb_eq in Hj. subst c. discriminate Ha.
  - apply andb_true_iff in Hj. destruct Hj as [_ Hj].
    rewrite (@alnum_ignore_case c x Ha Hm). exact Hj.
Qed.

Lemma Forall2_weaker t : forall g,
  forallb plain_letter t = true ->
  Forall2 (fun c x => char_matches flags_i c x = true) t g ->
  Forall2 weaker t g.
Proof.
  induction t as [| c t IH]; intros g Hp H; inversion H; subst; constructor.
  - cbn [forallb] in Hp. apply andb_true_iff in Hp.
    apply weaker_plain_letter; tauto.
  - cbn [forallb] in Hp. apply andb_true_iff in Hp. apply IH; tauto.
Qed.

Lemma bearer_rule_safe : safe_rule bearer_rule.
Proof.
  intros pre rest s1 Hm.
  change (pattern bearer_rule)
    with (Seq (lit "Bearer")
            (Seq (plus (Class false [ISpace]))
               (plus (Class false
                        (alnum_items ++ [IChar "_"; IChar "-"; IChar "."])))))
    in Hm.
  pose proof Hm as H. apply match_at_sound in H.
  apply matches_seq in H. destruct H as (sa & H1 & HX).
  apply matches_lit_list in H1. destruct H1 as (g & Hg & Hu).
  destruct (@whole_split _ _ _ _ _ _ _ _ Hm Hu HX) as (v & Hw).
  exists g, v, (str "Bearer"), (str " [REDACTED_TOKEN]").
  split; [exact Hw |]. split; [reflexivity |]. split.
  - apply Forall2_weaker; [vm_compute; reflexivity | exact Hg].
  - left. vm_compute. reflexivity.
Qed.

End RuleFacts.

(** ** Quality scorer *)

Module ScorerFacts.

Import Scorer.

Lemma score_sum (options : RewriteOptions) (message : text) :
  score (assessCommitQuality options message)
  = (fst (check_conventional message) + fst (check_length message)
     + fst (check_generic message) + fst (check_present_tense message)
     + fst (check_period message))%Z.
Proof. reflexivity. Qed.

(** X1. Whatever the message and the options, the score lies between 0 and
    10. *)
Lemma score_bounds (options : RewriteOptions) (message : text) :
  (0 <= score (assessCommitQuality options message) <= 10)%Z.
Proof.
  rewrite score_sum.
  unfold check_conventional, check_length, check_generic, check_present_tense,
    check_period.
  repeat match goal with |- context [if ?b then _ else _] => destruct b end;
    simpl; lia.
Qed.

(** C7. The empty message scores 3: the conventional-format test fails (+0),
    the length check fails with reason "too short" (+0), the empty string is
    not generic (+2), the present-tense test fails (+0) and there is no
    trailing period (+1). *)
Theorem empty_message_trace (options : RewriteOptions) :
  hasConventionalFormat [] = false
  /\ check_conventional [] = (0%Z, [])
  /\ check_length [] = (0%Z, [str "too short"])
  /\ isGeneric [] = false
  /\ check_generic [] = (2%Z, [str "descriptive"])
  /\ hasPresentTense [] = false
  /\ check_present_tense [] = (0%Z, [])
  /\ check_period [] = (1%Z, [str "no trailing period"])
  /\ score (assessCommitQuality options []) = 3%Z
  /\ reason (assessCommitQuality options [])
     = str "too short, descriptive, no trailing period".
Proof. repeat split; reflexivity. Qed.

(** C4, as stated, fails when the configured threshold is 0: the score 3 of
    the empty message is at least 0, yet the message is not acceptable. *)
Lemma threshold_zero_counterexample :
  ~ (forall (options : RewriteOptions) (message : text) (m : Z),
        minQualityScore options = Some m -> (0 <= m <= 10)%Z ->
        (isWellFormed (assessCommitQuality options message) = true
         <-> (m <= score (assessCommitQuality options message))%Z)).
Proof.
  intro H.
  specialize (H (with_min default_options (Some 0%Z)) [] 0%Z eq_refl).
  assert (Hr : (0 <= 0 <= 10)%Z) by lia.
  destruct (H Hr) as [_ Hback].
  assert (Hs : (0 <= score (assessCommitQuality
                              (with_min default_options (Some 0%Z)) []))%Z)
    by (vm_compute; discriminate).
  specialize (Hback Hs). vm_compute in Hback. discriminate.
Qed.

(** An unset threshold and the threshold 0 both stand for 7. *)
Lemma isWellFormed_default (options : RewriteOptions) (message : text) :
  minQualityScore options = None \/ minQualityScore options = Some 0%Z ->
  isWellFormed (assessCommitQuality options message) = true
  <-> (7 <= score (assessCommitQuality options message))%Z.
Proof.
  intros [H | H]; unfold assessCommitQuality; simpl; rewrite H; simpl;
    apply Z.leb_le.
Qed.

(** A configured threshold other than 0 is the one that is used. *)
Lemma isWellFormed_configured (options : RewriteOptions) (message : text)
    (m : Z) :
  minQualityScore options = Some m -> m <> 0%Z ->
  isWellFormed (assessCommitQuality options message) = true
  <-> (m <= score (assessCommitQuality options message))%Z.
Proof.
  intros Hm Hnz.
  unfold assessCommitQuality; simpl. rewrite Hm. unfold number_or.
  destruct (Z.eqb_spec m 0) as [E | _]; [contradiction |].
  apply Z.leb_le.
Qed.

(** C4, amended. For every message and every configured threshold other
    than 0, the message is acceptable exactly when its score is at least the
    threshold; an unset threshold and the threshold 0 both stand for the
    default 7: the message is then acceptable exactly when its score is at
    least 7. *)
Theorem isWellFormed_threshold (options : RewriteOptions) (message : text) :
  (forall m : Z, minQualityScore options = Some m -> m <> 0%Z ->
     (isWellFormed (assessCommitQuality options message) = true
      <-> (m <= score (assessCommitQuality options message))%Z))
  /\ (minQualityScore options = None \/ minQualityScore options = Some 0%Z ->
      (isWellFormed (assessCommitQuality options message) = true
       <-> (7 <= score (assessCommitQuality options message))%Z)).
Proof.
  split.
  - intros m Hm Hnz. apply isWellFormed_configured; assumption.
  - apply isWellFormed_default.
Qed.

Lemma isWellFormed_threshold_witness :
  (isWellFormed (assessCommitQuality (with_min default_options (Some 10%Z))
                   (str "fix: resolve null pointer exception")) = true
   <-> (10 <= score (assessCommitQuality
                       (with_min default_options (Some 10%Z))
                       (str "fix: resolve null pointer exception")))%Z)
  /\ (isWellFormed (assessCommitQuality (with_min default_options (Some 0%Z))
                      (str "fix: resolve null pointer exception")) = true
      <-> (7 <= score (assessCommitQuality
                         (with_min default_options (Some 0%Z))
                         (str "fix: resolve null pointer exception")))%Z)
  /\ (isWellFormed (assessCommitQuality (with_min default_options None)
                      (str "wip")) = true
      <-> (7 <= score (assessCommitQuality (with_min default_options None)
                         (str "wip")))%Z).
Proof.
  split; [| split].
  - apply (proj1 (isWellFormed_threshold
                    (with_min default_options (Some 10%Z))
                    (str "fix: resolve null pointer exception")) 10%Z);
      [reflexivity | discriminate].
  - apply (proj2 (isWellFormed_threshold
                    (with_min default_options (Some 0%Z))
                    (str "fix: resolve null pointer exception"))).
    right. reflexivity.
  - apply (proj2 (isWellFormed_threshold (with_min default_options None)
                    (str "wip"))).
    left. reflexivity.
Defined.

(** C5, as stated, fails: with the prefix "fix: " the message "add login page"
    keeps its length bucket and has no trailing period either way, and the
    score rises by 5, because the present-tense test looks for [": "] followed
    by a lower-case letter and so passes only with the prefix. *)
Lemma conventional_prefix_counterexample :
  let plain := str "add login page" in
  let conventional := str "fix: " ++ plain in
  hasConventionalFormat conventional = true
  /\ hasConventionalFormat plain = false
  /\ check_length conventional = check_length plain
  /\ check_period conventional = check_period plain
  /\ score (assessCommitQuality default_options conventional)
     = (score (assessCommitQuality default_options plain) + 5)%Z
  /\ score (assessCommitQuality default_options conventional)
     <> (score (assessCommitQuality default_options plain) + 4)%Z.
Proof. repeat split; try reflexivity. vm_compute; discriminate. Qed.

(** C5, amended. If one message has the conventional format and the other has
    not, and the two agree on the length bucket, on being generic, on the
    present-tense test and on the trailing period, then the conventional one
    scores exactly 4 more. *)
Theorem conventional_adds_4 (options : RewriteOptions)
    (conventional plain : text)
    (Hc : hasConventionalFormat conventional = true)
    (Hp : hasConventionalFormat plain = false)
    (Hlen : check_length conventional = check_length plain)
    (Hgen : isGeneric conventional = isGeneric plain)
    (Htense : hasPresentTense conventional = hasPresentTense plain)
    (Hdot : ends_with_period (first_line conventional)
            = ends_with_period (first_line plain)) :
  score (assessCommitQuality options conventional)
  = (score (assessCommitQuality options plain) + 4)%Z.
Proof.
  rewrite !score_sum.
  unfold check_conventional, check_generic, check_present_tense, check_period.
  rewrite Hc, Hp, Hlen, Hgen, Htense, Hdot.
  generalize (fst (check_length plain)).
  destruct (isGeneric plain), (hasPresentTense plain),
    (ends_with_period (first_line plain));
    cbv beta iota delta [fst negb]; intros; lia.
Qed.

Lemma conventional_adds_4_witness :
  score (assessCommitQuality default_options (str "fix: Add login page"))
  = (score (assessCommitQuality default_options (str "Add login page")) + 4)%Z.
Proof.
  apply (@conventional_adds_4 default_options (str "fix: Add login page")
           (str "Add login page")); reflexivity.
Defined.

End ScorerFacts.

(** ** Message composer *)

Module ComposerFacts.

Import Composer.

Lemma join_app (sep : text) (a b : list text) :
  a <> [] -> b <> [] -> join sep (a ++ b) = join sep a ++ sep ++ join sep b.
Proof.
  intros Ha Hb. induction a as [| x a IH]; [congruence |].
  destruct a as [| y a].
  - destruct b; [congruence | reflexivity].
  - change (join sep ((x :: y :: a) ++ b))
      with (x ++ sep ++ join sep ((y :: a) ++ b)).
    rewrite IH by discriminate.
    change (join sep (x :: y :: a)) with (x ++ sep ++ join sep (y :: a)).
    rewrite <- !app_assoc. reflexivity.
Qed.

Lemma prompt_head_nonempty options files oldMessage :
  prompt_head options files oldMessage <> [].
Proof. discriminate. Qed.

Lemma prompt_tail_nonempty options : prompt_tail options <> [].
Proof. unfold prompt_tail. destruct (truthy (prompt options)); discriminate. Qed.

(** The prompt is the head, the embedded diff and the tail, on lines of their
    own; head and tail do not depend on the diff. *)
Lemma build_prompt_shape options diff files oldMessage :
  build_prompt options diff files oldMessage
  = join nl (prompt_head options files oldMessage) ++ nl
      ++ embedded_diff diff ++ nl ++ join nl (prompt_tail options).
Proof.
  unfold build_prompt.
  rewrite join_app;
    [| apply prompt_head_nonempty
     | destruct (prompt_tail options); discriminate].
  f_equal. f_equal.
  change ([embedded_diff diff] ++ prompt_tail options)
    with (embedded_diff diff :: prompt_tail options).
  pose proof (prompt_tail_nonempty options) as Ht.
  destruct (prompt_tail options) as [| t ts]; [congruence | reflexivity].
Qed.



End ComposerFacts.

(** ** Orchestrator *)

Module OrchestratorFacts.

Import Composer Orchestrator Outcome.


Lemma process_map w options p h :
  map_ (process w options p h)
  = match replacement_for w options h with
    | Some v => set (map_ p) h v
    | None => map_ p
    end.
Proof.
  unfold process, replacement_for.
  destruct (getCommitInfo w h) as [ci | e]; [| reflexivity].
  destruct (skipWellFormed options && _); [reflexivity |].
  cbv zeta.
  destruct (negb (text_eqb _ _)); reflexivity.
Qed.

Lemma get_set m k v h :
  get (set m k v) h = if text_eqb h k then Some v else get m h.
Proof. reflexivity. Qed.

(** After the loop, the map holds for each commit of the list what its own
    iteration recorded, whatever happened to the other commits. *)
Lemma get_fold_process w options commits : forall p h,
  get (map_ (fold_left (process w options) commits p)) h
  = if existsb (text_eqb h) commits
    then match replacement_for w options h with
         | Some v => Some v
         | None => get (map_ p) h
         end
    else get (map_ p) h.
Proof.
  induction commits as [| c cs IH]; intros p h; [reflexivity |].
  cbn [fold_left existsb]. rewrite IH, process_map.
  destruct (text_eqb h c) eqn:Ehc.
  - apply text_eqb_eq in Ehc; subst c. cbn [orb].
    destruct (replacement_for w options h) as [v |] eqn:Er.
    + rewrite get_set, text_eqb_refl. destruct (existsb _ cs); reflexivity.
    + destruct (existsb _ cs); reflexivity.
  - cbn [orb].
    destruct (replacement_for w options c) as [v |];
      [rewrite get_set, Ehc |]; reflexivity.
Qed.

Lemma existsb_text_eqb_In (h : text) (l : list text) :
  In h l -> existsb (text_eqb h) l = true.
Proof.
  intros H. apply existsb_exists. exists h. split; [exact H | apply text_eqb_refl].
Qed.

Lemma get_run_loop w options commits h :
  In h commits ->
  get (map_ (run_loop w options commits)) h = replacement_for w options h.
Proof.
  intros H. unfold run_loop. rewrite get_fold_process.
  rewrite existsb_text_eqb_In by exact H.
  destruct (replacement_for w options h); reflexivity.
Qed.


Lemma ordered_map w (orig : text -> text) m (f : text -> text) commits :
  (forall h, In h commits -> originalMessage w h = Returned (orig h)) ->
  (forall h, In h commits ->
     f h = match recorded m h with Some v => v | None => orig h end) ->
  ordered w m commits = Returned (map f commits).
Proof.
  induction commits as [| c cs IH]; intros Ho Hf; [reflexivity |].
  cbn [ordered map].
  rewrite IH;
    [| intros; apply Ho; right; assumption
     | intros; apply Hf; right; assumption].
  rewrite (Hf c) by (left; reflexivity).
  destruct (recorded m c); [reflexivity |].
  rewrite Ho by (left; reflexivity). reflexivity.
Qed.

(** The ordered list is aligned with the commits, and each entry depends on
    its own commit only. *)
Lemma orderedMessages_map w options (orig : text -> text) commits :
  (forall h, In h commits -> originalMessage w h = Returned (orig h)) ->
  orderedMessages w options commits
  = Returned (map (final_message w options orig) commits).
Proof.
  intros Ho. unfold orderedMessages. apply (ordered_map w orig); [exact Ho |].
  intros h Hin. unfold final_message, recorded.
  rewrite get_run_loop by exact Hin.
  destruct (replacement_for w options h) as [[| c v] |]; reflexivity.
Qed.

Lemma generate_thrown pr options d fs old e :
  pr (build_prompt options d fs old) systemPrompt = Thrown e ->
  generateCommitMessage pr options d fs old
  = {| message := old;
       errors := if verbose options
                 then [str "Error generating commit message: " ++ e] else [] |}.
Proof. intros H. unfold generateCommitMessage. rewrite H. reflexivity. Qed.

Lemma generate_returned pr options d fs old g :
  pr (build_prompt options d fs old) systemPrompt = Returned g ->
  generateCommitMessage pr options d fs old = {| message := g; errors := [] |}.
Proof. intros H. unfold generateCommitMessage. rewrite H. reflexivity. Qed.

(** C3. Whatever the provider does, the commit loop ends normally and the
    ordered list has one message per commit.  For a commit that is sent to the
    provider: if the provider throws, [generateCommitMessage] returns the
    original subject, writes the error only when [verbose] is set, and the
    ordered list has the commit's original message at its position; if the
    provider returns a non-empty message different from the subject, the list
    has that message at the commit's position. *)
Theorem generation_failure_keeps_original
    (w : world) (options : RewriteOptions) (commits : list text)
    (orig : text -> text)
    (Horig : forall h, In h commits -> originalMessage w h = Returned (orig h)) :
  exists l,
    orderedMessages w options commits = Returned l
    /\ length l = length commits
    /\ forall i h ci,
         nth_error commits i = Some h ->
         getCommitInfo w h = Returned ci ->
         skipWellFormed options
         && Scorer.isWellFormed
              (Scorer.assessCommitQuality options (info_message ci)) = false ->
         match provider w (build_prompt options (diff ci) (files ci)
                             (info_message ci)) systemPrompt with
         | Thrown e =>
             generateCommitMessage (provider w) options (diff ci) (files ci)
               (info_message ci)
             = {| message := info_message ci;
                  errors := if verbose options
                            then [str "Error generating commit message: " ++ e]
                            else [] |}
             /\ nth_error l i = Some (orig h)
         | Returned g =>
             g <> [] -> g <> info_message ci -> nth_error l i = Some g
         end.
Proof.
  exists (map (final_message w options orig) commits).
  split; [apply orderedMessages_map; exact Horig |].
  split; [apply length_map |].
  intros i h ci Hi Hci Hskip.
  assert (Hnth : nth_error (map (final_message w options orig) commits) i
                 = Some (final_message w options orig h))
    by (rewrite nth_error_map, Hi; reflexivity).
  rewrite Hnth. unfold final_message, replacement_for.
  rewrite Hci, Hskip. cbv zeta.
  destruct (provider w _ systemPrompt) as [g | e] eqn:Ep.
  - intros Hne Hdiff. erewrite generate_returned by exact Ep. cbn [message].
    apply text_eqb_neq in Hdiff. rewrite Hdiff. cbn [negb].
    destruct g; [congruence | reflexivity].
  - erewrite generate_thrown by exact Ep. cbn [message].
    rewrite text_eqb_refl. split; reflexivity.
Qed.

(** Three commits whose second generation call fails. *)
Corollary three_commits_middle_fails
    (w : world) (options : RewriteOptions) (c1 c2 c3 : text)
    (i1 i2 i3 : CommitInfo) (g1 g3 e m2 : text)
    (H1 : getCommitInfo w c1 = Returned i1)
    (H2 : getCommitInfo w c2 = Returned i2)
    (H3 : getCommitInfo w c3 = Returned i3)
    (Hskip : skipWellFormed options = false)
    (P1 : provider w (build_prompt options (diff i1) (files i1) (info_message i1))
            systemPrompt = Returned g1)
    (P2 : provider w (build_prompt options (diff i2) (files i2) (info_message i2))
            systemPrompt = Thrown e)
    (P3 : provider w (build_prompt options (diff i3) (files i3) (info_message i3))
            systemPrompt = Returned g3)
    (N1 : g1 <> []) (D1 : g1 <> info_message i1)
    (N3 : g3 <> []) (D3 : g3 <> info_message i3)
    (O2 : originalMessage w c2 = Returned m2) :
  orderedMessages w options [c1; c2; c3] = Returned [g1; m2; g3].
Proof.
  assert (R1 : replacement_for w options c1 = Some g1).
  { unfold replacement_for. rewrite H1, Hskip. cbn [andb]. cbv zeta.
    erewrite generate_returned by exact P1. cbn [message].
    apply text_eqb_neq in D1. rewrite D1. reflexivity. }
  assert (R2 : replacement_for w options c2 = None).
  { unfold replacement_for. rewrite H2, Hskip. cbn [andb]. cbv zeta.
    erewrite generate_thrown by exact P2. cbn [message].
    rewrite text_eqb_refl. reflexivity. }
  assert (R3 : replacement_for w options c3 = Some g3).
  { unfold replacement_for. rewrite H3, Hskip. cbn [andb]. cbv zeta.
    erewrite generate_returned by exact P3. cbn [message].
    apply text_eqb_neq in D3. rewrite D3. reflexivity. }
  unfold orderedMessages. cbn [ordered]. unfold recorded.
  rewrite !get_run_loop by (cbn [In]; auto).
  rewrite R1, R2, R3, O2.
  destruct g1; [congruence |]. destruct g3; [congruence |]. reflexivity.
Qed.


Example three_commits_example :
  orderedMessages Scenario.w default_options Scenario.commits
  = Returned [Scenario.generated_text; str "wip"; Scenario.generated_text].
Proof. vm_compute. reflexivity. Qed.

Lemma generation_failure_keeps_original_witness :
  (forall h, In h Scenario.commits ->
     originalMessage Scenario.w h = Returned (Scenario.orig h))
  /\ exists l,
       orderedMessages Scenario.w default_options Scenario.commits = Returned l
       /\ length l = length Scenario.commits
       /\ forall i h ci,
            nth_error Scenario.commits i = Some h ->
            getCommitInfo Scenario.w h = Returned ci ->
            skipWellFormed default_options
            && Scorer.isWellFormed
                 (Scorer.assessCommitQuality default_options (info_message ci))
            = false ->
            match provider Scenario.w
                    (build_prompt default_options (diff ci) (files ci)
                       (info_message ci)) systemPrompt with
            | Thrown e =>
                generateCommitMessage (provider Scenario.w) default_options
                  (diff ci) (files ci) (info_message ci)
                = {| message := info_message ci;
                     errors := if verbose default_options
                               then [str "Error generating commit message: " ++ e]
                               else [] |}
                /\ nth_error l i = Some (Scenario.orig h)
            | Returned g =>
                g <> [] -> g <> info_message ci -> nth_error l i = Some g
            end.
Proof.
  assert (H : forall h, In h Scenario.commits ->
                originalMessage Scenario.w h = Returned (Scenario.orig h)).
  { intros h [E | [E | [E | []]]]; subst h; vm_compute; reflexivity. }
  split; [exact H |].
  exact (@generation_failure_keeps_original Scenario.w default_options
           Scenario.commits Scenario.orig H).
Defined.

End OrchestratorFacts.

(** ** Redactor: behaviour on given inputs *)

Module RedactorExamples.

Import Redactor Samples.



(** C1, evaluated on [env_diff]: the marker is appended to the header line,
    and the whole body, secret included, is still in the output. *)
Theorem env_hunk_body_survives :
  redactSensitivePatterns env_diff
  = lines ["diff --git a/.env b/.env[.ENV FILE CONTENT COMPLETELY HIDDEN FOR SECURITY]";
           "";
           "index e69de29..4b825dc 100644";
           "--- a/.env";
           "+++ b/.env";
           "@@ -0,0 +1 @@";
           "+DB_PASS=hunter2"]%string
  /\ occurs (str "+DB_PASS=hunter2") (redactSensitivePatterns env_diff) = true.
Proof. split; vm_compute; reflexivity. Qed.

(** The same happens with the files of the [sensitiveFiles] loop: the marker
    line is inserted after the header and the body stays. *)
Example pem_hunk_body_survives :
  redactSensitivePatterns
    (lines ["diff --git a/certs/server.pem b/certs/server.pem";
            "+MIIEvQIBADANBg"]%string)
  = lines ["diff --git a/certs/server.pem b/certs/server.pem";
           "[CERTS/SERVER.PEM CONTENT COMPLETELY HIDDEN FOR SECURITY]";
           "";
           "+MIIEvQIBADANBg"]%string.
Proof. vm_compute. reflexivity. Qed.











(** C10. The 40-character rule has no boundary anchors: in a 41-character
    identifier it replaces the first 40 characters and leaves the last, and it
    replaces a 40-digit hexadecimal object name inside a sentence. *)
Theorem aws_secret_rule_matches_inside_longer_runs :
  length (copies 41 "a") = 41
  /\ redactSensitivePatterns (copies 41 "a") = str "[REDACTED_AWS_SECRET_KEY]a"
  /\ length (str "4b825dc642cb6eb9a060e54bf8d69288fbee4904") = 40
  /\ redactSensitivePatterns
       (str "parent 4b825dc642cb6eb9a060e54bf8d69288fbee4904 (empty tree)")
     = str "parent [REDACTED_AWS_SECRET_KEY] (empty tree)"
  /\ redactSensitivePatterns
       (str "commit_4b825dc642cb6eb9a060e54bf8d69288fbee4904_x")
     = str "commit_[REDACTED_AWS_SECRET_KEY]_x".
Proof. repeat split; vm_compute; reflexivity. Qed.

End RedactorExamples.

(** ** Redactor: general facts *)

Module RedactorFacts.

Import Redactor Samples.








(** *** What is copied and what is replaced *)












End RedactorFacts.

(** ** The OpenAI-key rule leaves no key *)

Module OpenaiFacts.

Import Semantics SemanticsFacts Token TokenFacts Redactor RuleShapes RuleFacts.

Lemma or_else_left {A} (a : option A) b : a <> None -> or_else a b <> None.
Proof. destruct a; [discriminate | congruence]. Qed.

Lemma or_else_right {A} (a : option A) b : b tt <> None -> or_else a b <> None.
Proof. destruct a; [discriminate | auto]. Qed.

(** A quantifier that may stop succeeds when its continuation does. *)
Lemma repeat_loop_stop m inner greedy lo hi k fuel cnt s0 :
  lo <= cnt -> k s0 <> None ->
  repeat_loop m inner greedy lo hi k fuel cnt s0 <> None.
Proof.
  intros Hle Hk.
  assert (Hstop : (if lo <=? cnt then k s0 else None) <> None)
    by (destruct (Nat.leb_spec lo cnt); [exact Hk | lia]).
  destruct fuel as [| fuel]; cbn [repeat_loop]; [exact Hstop |].
  destruct greedy; [apply or_else_right | apply or_else_left]; exact Hstop.
Qed.

Lemma rmatch_optional fl greedy hi body k s :
  k s <> None -> rmatch fl (Quant greedy 0 hi body) k s <> None.
Proof. intros Hk. cbn [rmatch]. apply repeat_loop_stop; [lia | exact Hk]. Qed.

Lemma rmatch_quote fl n k s :
  (forall cs, k {| before := before s; after := after s; caps := cs |} <> None) ->
  rmatch fl (quote n) k s <> None.
Proof.
  intros Hk. unfold quote. cbn [rmatch]. apply rmatch_optional. apply Hk.
Qed.

(** A greedy run of at least [lo] characters of a class, before a
    continuation that always succeeds, succeeds on a subject that starts
    with enough such characters. *)
Lemma repeat_class_total (m : (mstate -> option mstate) -> mstate -> option mstate)
    (p : ascii -> bool) inner lo k
    (Hm : forall k0 s x t, after s = x :: t -> p x = true ->
            m k0 s = k0 (step s x t))
    (Hk : forall s, k s <> None) :
  forall fuel cnt s0 w rest,
    after s0 = w ++ rest -> forallb p w = true ->
    lo <= cnt + length w -> lo - cnt <= fuel ->
    repeat_loop m inner true lo None k fuel cnt s0 <> None.
Proof.
  induction fuel as [| fuel IH]; intros cnt s0 w rest Ha Hp Hlo Hf.
  - apply repeat_loop_stop; [lia | apply Hk].
  - destruct (Nat.le_gt_cases lo cnt) as [Hle | Hgt];
      [apply repeat_loop_stop; [exact Hle | apply Hk] |].
    destruct w as [| x w]; [cbn [length] in Hlo; lia |].
    cbn [forallb] in Hp. apply andb_true_iff in Hp. destruct Hp as [Hx Hw].
    cbn [repeat_loop below]. apply or_else_left.
    erewrite Hm; [| cbn [after]; exact Ha | exact Hx].
    assert (E : (cnt <? lo) = true) by (apply Nat.ltb_lt; exact Hgt).
    rewrite E. cbn [orb].
    apply (IH (S cnt) _ w rest); [reflexivity | exact Hw | |];
      cbn [length] in Hlo; lia.
Qed.

Lemma forallb_same {A} (f g : A -> bool) (l : list A) :
  (forall x, f x = g x) -> forallb f l = forallb g l.
Proof.
  intros H. induction l as [| x l IH]; [reflexivity |].
  cbn [forallb]. rewrite H, IH. reflexivity.
Qed.

Lemma char_matches_refl fl c : char_matches fl c c = true.
Proof. unfold char_matches. apply ascii_eqb_eq. reflexivity. Qed.

(** A literal at the head of the subject is consumed. *)
Lemma rmatch_lit_list fl t : forall k s rest,
  after s = t ++ rest ->
  rmatch fl (lit_list t) k s
  = k {| before := rev t ++ before s; after := rest; caps := caps s |}.
Proof.
  induction t as [| c t IH]; intros k s rest Ha.
  - cbn in *. destruct s; cbn in *; subst; reflexivity.
  - assert (E : rmatch fl (lit_list (c :: t)) k s
                = rmatch fl (Char c) (rmatch fl (lit_list t) k) s).
    { destruct t; reflexivity. }
    rewrite E. cbn [rmatch]. unfold one_char. rewrite Ha. cbn [app].
    rewrite char_matches_refl, (IH _ _ rest) by reflexivity.
    cbn [step before after caps rev]. rewrite <- app_assoc. reflexivity.
Qed.

Lemma class_alnum x :
  class_matches no_flags false alnum_items x = Chars.is_alnum x.
Proof.
  unfold class_matches, alnum_items, item_matches, Chars.is_alnum,
    Chars.is_lower, Chars.is_upper, Chars.is_digit.
  cbn [existsb item_has ignoreCase no_flags xorb andb].
  destruct (Chars.in_range "a" "z" x), (Chars.in_range "A" "Z" x),
    (Chars.in_range "0" "9" x); reflexivity.
Qed.

(** The pattern of the rule matches wherever [sk-] and 32 alphanumerics
    start. *)
Lemma openai_pattern_complete pre w rest :
  forallb Chars.is_alnum w = true -> length w = run ->
  match_at no_flags (pattern openai_rule) pre (str "sk-" ++ w ++ rest) <> None.
Proof.
  intros Hw Hlen. unfold match_at.
  change (pattern openai_rule)
    with (Seq (quote 1) (Seq (Group 2 openai_key) (quote 3))).
  cbn [rmatch]. apply rmatch_quote. intros cs.
  cbn [start_state before after]. unfold openai_key. cbn [rmatch].
  apply or_else_left.
  unfold lit. rewrite (@rmatch_lit_list no_flags (str "sk-") _ _ (w ++ rest))
    by reflexivity.
  unfold at_least. cbn [rmatch].
  apply (@repeat_class_total (rmatch no_flags alnum)
           (class_matches no_flags false alnum_items) _ _ _) with (w := w) (rest := rest).
  - intros k0 s x t Ha Hx. cbn [rmatch alnum]. unfold one_char.
    rewrite Ha, Hx. reflexivity.
  - intros s. apply rmatch_quote. intros cs'. discriminate.
  - reflexivity.
  - rewrite <- Hw. apply forallb_same. intros x. apply class_alnum.
  - rewrite Hlen. unfold run. lia.
  - lia.
Qed.

(** *** Keys read forwards and backwards *)

Lemma fits_rev_length j : forall p, fits_rev j p = true -> length (firstn j p) = j.
Proof.
  induction j as [| j IH]; intros p H; [reflexivity |].
  destruct p as [| c p]; [discriminate |]. cbn [fits_rev] in H.
  apply andb_true_iff in H. cbn [firstn length]. rewrite IH; tauto.
Qed.

Lemma fits_rev_fwd j : forall p acc,
  fits_rev j p = true -> fits_fwd j acc = true ->
  fits_fwd 0 (rev (firstn j p) ++ acc) = true.
Proof.
  induction j as [| j IH]; intros p acc H Hacc; [exact Hacc |].
  destruct p as [| c p]; [discriminate |]. cbn [fits_rev] in H.
  apply andb_true_iff in H. destruct H as [Hc Hp].
  cbn [firstn rev]. rewrite <- app_assoc. cbn [app].
  apply IH; [exact Hp |]. cbn [fits_fwd]. rewrite Hc, Hacc. reflexivity.
Qed.

Lemma fits_fwd_rev t : forall i p,
  fits_fwd i t = true -> fits_rev i p = true ->
  fits_rev (i + length t) (rev t ++ p) = true.
Proof.
  induction t as [| c t IH]; intros i p Ht Hp.
  - cbn [length rev app]. rewrite Nat.add_0_r. exact Hp.
  - cbn [fits_fwd] in Ht. apply andb_true_iff in Ht. destruct Ht as [Hc Ht].
    cbn [length rev]. rewrite <- app_assoc, Nat.add_succ_r. cbn [app].
    apply (IH (S i)); [exact Ht |]. cbn [fits_rev]. rewrite Hc, Hp. reflexivity.
Qed.

Lemma ok_alnum i c : 3 <= i -> ok i c = true -> Chars.is_alnum c = true.
Proof.
  intros Hi. destruct i as [| [| [| i]]]; try lia. cbn [ok].
  rewrite andb_true_iff. tauto.
Qed.

Lemma alnum_ok i c : 3 <= i -> i < size -> Chars.is_alnum c = true -> ok i c = true.
Proof.
  intros Hi Hs Hc. destruct i as [| [| [| i]]]; try lia. cbn [ok].
  rewrite Hc. apply Nat.ltb_lt in Hs. rewrite Hs. reflexivity.
Qed.

Lemma fits_fwd_alnum w : forall i,
  3 <= i -> fits_fwd i w = true -> forallb Chars.is_alnum w = true.
Proof.
  induction w as [| c w IH]; intros i Hi H; [reflexivity |].
  cbn [fits_fwd] in H. apply andb_true_iff in H. destruct H as [Hc Hw].
  cbn [forallb]. rewrite (@ok_alnum i c Hi Hc). apply (IH (S i)); [lia | exact Hw].
Qed.

Lemma alnum_fits_fwd w : forall i,
  3 <= i -> i + length w <= size -> forallb Chars.is_alnum w = true ->
  fits_fwd i w = true.
Proof.
  induction w as [| c w IH]; intros i Hi Hs H; [reflexivity |].
  cbn [forallb] in H. apply andb_true_iff in H. destruct H as [Hc Hw].
  cbn [length] in Hs. cbn [fits_fwd].
  rewrite alnum_ok by (try assumption; lia).
  apply IH; [lia | lia | exact Hw].
Qed.

(** A text of 35 characters that fits is [sk-] and 32 alphanumerics. *)
Lemma fits_fwd_key t :
  fits_fwd 0 t = true -> length t = size ->
  exists w, t = str "sk-" ++ w /\ forallb Chars.is_alnum w = true
            /\ length w = run.
Proof.
  intros H Hlen.
  destruct t as [| c0 [| c1 [| c2 w]]]; try discriminate Hlen.
  cbn [fits_fwd ok] in H. rewrite !andb_true_iff, !ascii_eqb_eq in H.
  destruct H as (-> & -> & -> & Hw).
  exists w. split; [reflexivity |]. split.
  - apply (@fits_fwd_alnum w 3); [lia | exact Hw].
  - cbn [length] in Hlen. unfold size in Hlen. unfold run. lia.
Qed.

Lemma openai_complete_at pre rest :
  fits_rev size pre = true ->
  match_at no_flags (pattern openai_rule) (skipn size pre)
    (rev (firstn size pre) ++ rest) <> None.
Proof.
  intros H.
  pose proof (@fits_rev_fwd size pre [] H eq_refl) as Hf.
  rewrite app_nil_r in Hf.
  apply fits_fwd_key in Hf;
    [| rewrite length_rev; apply fits_rev_length; exact H].
  destruct Hf as (w & -> & Hw & Hlen).
  rewrite <- app_assoc. apply openai_pattern_complete; assumption.
Qed.

(** *** The scan of [replace] *)

Lemma tried_nothing fl pat pre rest : tried fl pat [] pre rest.
Proof. intros [| j] Hj H; [lia | discriminate]. Qed.

Lemma tried_inert fl pat r pre' pre rest :
  inert r = true -> tried fl pat (rev r ++ pre') pre rest.
Proof.
  intros Hi [| j] Hj H; [lia |]. exfalso.
  destruct (@inert_parts r Hi) as (b & r' & c & l & _ & _ & _ & Er & Hc).
  rewrite Er in H. cbn [app] in H.
  rewrite (@fits_rev_barrier j c (l ++ pre') Hc) in H. discriminate.
Qed.

Lemma tried_next fl pat pre' pre x rest :
  tried fl pat pre' pre (x :: rest) ->
  match_at fl pat pre (x :: rest) = None ->
  tried fl pat (x :: pre') (x :: pre) rest.
Proof.
  intros Ht Hnone [| j] Hj H; [lia |].
  cbn [fits_rev] in H. apply andb_true_iff in H. destruct H as [Hx Hp].
  destruct j as [| j].
  - split; [cbn [fits_rev]; rewrite Hx; reflexivity | exact Hnone].
  - destruct (Ht (S j)) as [Hf Hm]; [lia | exact Hp |].
    split; [cbn [fits_rev] in *; rewrite Hx, Hf; reflexivity |].
    change (skipn (S (S j)) (x :: pre)) with (skipn (S j) pre).
    change (firstn (S (S j)) (x :: pre)) with (x :: firstn (S j) pre).
    cbn [rev]. rewrite <- app_assoc. exact Hm.
Qed.

(** When the pattern matches wherever a key starts, every match is not empty
    and every replacement is inert, the output of [replace] holds no key. *)
Lemma replace_from_no_key fl pat rep
    (Hcomplete : forall pre rest, fits_rev size pre = true ->
        match_at fl pat (skipn size pre) (rev (firstn size pre) ++ rest)
        <> None)
    (Hrep : forall pre rest s1, match_at fl pat pre rest = Some s1 ->
        inert (rep (found_of pre s1)) = true
        /\ whole (found_of pre s1) <> []) :
  forall fuel pre rest pre',
    length rest < fuel -> tried fl pat pre' pre rest ->
    hit pre' (replace_from fuel fl pat rep pre rest) = false.
Proof.
  assert (Hnofit : forall pre' pre rest,
             tried fl pat pre' pre rest -> fits_rev size pre' = false).
  { intros pre' pre rest Ht. destruct (fits_rev size pre') eqn:E; [| reflexivity].
    destruct (Ht size) as [Hf Hm]; [unfold size; lia | exact E |].
    exfalso. apply (@Hcomplete pre rest Hf). exact Hm. }
  induction fuel as [| fuel IH]; intros pre rest pre' Hlen Ht; [lia |].
  cbn [replace_from].
  destruct (match_at fl pat pre rest) as [s1 |] eqn:Em.
  - destruct (@Hrep _ _ _ Em) as [Hi Hne].
    destruct (@found_of_match _ _ _ _ _ Em) as (_ & Hrest & Hbefore).
    destruct (whole (found_of pre s1)) as [| y w] eqn:Ew; [congruence |].
    rewrite hit_app. apply orb_false_iff. split.
    + destruct (hit pre' (rep (found_of pre s1))) eqn:Eh; [| reflexivity].
      apply (@inert_hit _ pre' Hi) in Eh.
      rewrite (Hnofit _ _ _ Ht) in Eh. discriminate.
    + apply IH; [| apply tried_inert; exact Hi].
      rewrite Hrest in Hlen. rewrite length_app in Hlen. cbn [length] in Hlen. lia.
  - destruct rest as [| x rest].
    + rewrite hit_nil. eapply Hnofit. exact Ht.
    + rewrite hit_unfold. apply orb_false_iff. split; [eapply Hnofit; exact Ht |].
      apply IH; [cbn [length] in Hlen; lia |].
      apply tried_next; assumption.
Qed.

Lemma advanced_same u v s s1 : advanced u s s1 -> advanced v s s1 -> u = v.
Proof.
  intros [B1 _] [B2 _]. rewrite B1 in B2. apply app_inv_tail in B2.
  rewrite <- (rev_involutive u), B2. apply rev_involutive.
Qed.

Lemma matches_lit_nonempty fl t s s1 :
  t <> [] -> matches fl (lit_list t) s s1 ->
  exists x g, advanced (x :: g) s s1.
Proof.
  intros Ht H. apply matches_lit_list in H. destruct H as (g & Hg & Ha).
  inversion Hg; subst; [congruence | eauto].
Qed.

(** A match of the rule is not empty. *)
Lemma openai_match_nonempty pre rest s1 :
  match_at no_flags (pattern openai_rule) pre rest = Some s1 ->
  whole (found_of pre s1) <> [].
Proof.
  intros Hm Hw.
  destruct (@found_of_match _ _ _ _ _ Hm) as (H & _ & Hbefore).
  rewrite Hw in Hbefore. cbn [rev app] in Hbefore.
  change (pattern openai_rule)
    with (Seq (quote 1) (Seq (Group 2 openai_key) (quote 3))) in H.
  apply matches_seq in H. destruct H as (sa & H1 & H).
  apply matches_seq in H. destruct H as (sb & H2 & H3).
  apply matches_advanced in H1. destruct H1 as (u1 & Hu1).
  apply matches_advanced in H3. destruct H3 as (u3 & Hu3).
  cbn [matches] in H2. destruct H2 as (sk & Hk & ->).
  assert (Hkey : exists x g, advanced (x :: g) sa sk).
  { destruct Hk as [Hk | Hk]; destruct Hk as (sl & Hl & Hq);
      unfold lit in Hl;
      (apply matches_lit_nonempty in Hl; [| vm_compute; discriminate]);
      destruct Hl as (x & g & Hg);
      apply matches_advanced in Hq; destruct Hq as (v & Hv);
      exists x, (g ++ v); apply (@advanced_trans (x :: g) v _ _ _ Hg Hv). }
  destruct Hkey as (x & g & Hg).
  assert (Hg' : advanced (x :: g) sa
                  {| before := before sk; after := after sk;
                     caps := set_cap 2 (consumed sa sk) (caps sk) |})
    by exact Hg.
  pose proof (@advanced_trans _ _ _ _ _ (@advanced_trans _ _ _ _ _ Hu1 Hg') Hu3)
    as [B _].
  cbn [start_state before] in B. rewrite Hbefore in B.
  apply (f_equal (@length ascii)) in B.
  rewrite !length_app, !length_rev, !length_app in B. cbn [length] in B. lia.
Qed.

(** After the OpenAI-key rule no [sk-] with 32 alphanumerics is left. *)
Lemma openai_rule_no_key (s : text) : has_key (apply_rule openai_rule s) = false.
Proof.
  unfold has_key, apply_rule, replace_all.
  apply replace_from_no_key.
  - intros pre rest H. apply openai_complete_at. exact H.
  - intros pre rest s1 Hm. split;
      [eapply openai_rule_inert | eapply openai_match_nonempty]; exact Hm.
  - lia.
  - apply tried_nothing.
Qed.


Lemma token_rules_split : token_rules = openai_rule :: later_rules.
Proof. reflexivity. Qed.

Lemma later_rules_safe : Forall safe_rule later_rules.
Proof.
  unfold later_rules.
  apply Forall_cons; [exact github_rule_safe |].
  apply Forall_cons; [exact slack_rule_safe |].
  apply Forall_cons; [exact google_rule_safe |].
  apply Forall_cons; [exact aws_access_rule_safe |].
  apply Forall_cons; [exact aws_secret_rule_safe |].
  apply Forall_cons; [exact stripe_rule_safe |].
  apply Forall_cons; [exact private_key_rule_safe |].
  apply Forall_cons; [exact jwt_rule_safe |].
  apply Forall_cons; [exact password_rule_safe |].
  apply Forall_cons; [exact connection_rule_safe |].
  apply Forall_cons; [exact bearer_rule_safe |].
  apply Forall_nil.
Qed.

Lemma fold_safe_no_key (rs : list rule) :
  Forall safe_rule rs -> forall s,
  has_key s = false ->
  has_key (fold_left (fun acc r => apply_rule r acc) rs s) = false.
Proof.
  induction 1 as [| r rs Hr Hrs IH]; intros s Hs; [exact Hs |].
  cbn [fold_left]. apply IH.
  destruct (has_key (apply_rule r s)) eqn:E; [| reflexivity].
  apply (@apply_rule_no_new_key r s Hr) in E. congruence.
Qed.

(** The Redactor's output holds no [sk-] followed by 32 alphanumerics. *)
Theorem redact_no_key (t : text) : has_key (redactSensitivePatterns t) = false.
Proof.
  unfold redactSensitivePatterns.
  rewrite token_rules_split, fold_left_cons.
  apply fold_safe_no_key; [exact later_rules_safe | apply openai_rule_no_key].
Qed.

(** *** Occurrences of a key *)

Lemma starts_with_app t : forall s,
  starts_with t s = true -> exists v, s = t ++ v.
Proof.
  induction t as [| c t IH]; intros s H; [exists s; reflexivity |].
  destruct s as [| x s]; [discriminate |]. cbn [starts_with] in H.
  apply andb_true_iff in H. destruct H as [Hc Ht].
  apply ascii_eqb_eq in Hc. subst x. apply IH in Ht. destruct Ht as (v & ->).
  exists v. reflexivity.
Qed.

Lemma occurs_split t : forall s,
  occurs t s = true -> exists u v, s = u ++ t ++ v.
Proof.
  induction s as [| x s IH]; cbn [occurs]; rewrite orb_true_iff; intros [H | H].
  - apply starts_with_app in H. destruct H as (v & ->). exists [], v. reflexivity.
  - discriminate.
  - apply starts_with_app in H. destruct H as (v & ->). exists [], v. reflexivity.
  - apply IH in H. destruct H as (u & v & ->). exists (x :: u), v. reflexivity.
Qed.

Lemma forallb_firstn {A} (f : A -> bool) n : forall l,
  forallb f l = true -> forallb f (firstn n l) = true.
Proof.
  induction n as [| n IH]; intros [| x l] H; try reflexivity.
  cbn [forallb firstn] in *. apply andb_true_iff in H.
  rewrite (proj1 H), IH; tauto.
Qed.

(** A text in which [sk-] is followed by 32 alphanumerics or more has a key. *)
Lemma key_has_key u w v :
  forallb Chars.is_alnum w = true -> run <= length w ->
  has_key (u ++ (str "sk-" ++ w) ++ v) = true.
Proof.
  intros Hw Hlen.
  rewrite <- (firstn_skipn run w).
  set (w1 := firstn run w).
  assert (Hl1 : length w1 = run) by (apply firstn_length_le; exact Hlen).
  assert (Hfit : fits_fwd 0 (str "sk-" ++ w1) = true).
  { change (str "sk-" ++ w1) with ("s" :: "k" :: "-" :: w1)%char.
    cbn [fits_fwd]. rewrite alnum_fits_fwd;
      [reflexivity | lia | rewrite Hl1; unfold run, size; lia |].
    apply forallb_firstn. exact Hw. }
  pose proof (@fits_fwd_rev (str "sk-" ++ w1) 0 (rev u) Hfit eq_refl) as Hrev.
  assert (Hsize : 0 + length (str "sk-" ++ w1) = size).
  { rewrite length_app, Hl1. reflexivity. }
  rewrite Hsize in Hrev.
  unfold has_key. rewrite hit_app. apply orb_true_iff. right.
  rewrite app_nil_r.
  replace ((str "sk-" ++ w1 ++ skipn run w) ++ v)
    with ((str "sk-" ++ w1) ++ skipn run w ++ v)
    by (rewrite <- !app_assoc; reflexivity).
  rewrite hit_app. apply orb_true_iff. left. apply hit_end. exact Hrev.
Qed.

(** *** The tag *)

Lemma starts_with_self t v : starts_with t (t ++ v) = true.
Proof.
  induction t as [| c t IH]; [reflexivity |].
  cbn [app starts_with]. rewrite IH, andb_true_r. apply ascii_eqb_eq. reflexivity.
Qed.

Lemma occurs_middle t a b : occurs t (a ++ t ++ b) = true.
Proof.
  induction a as [| x a IH].
  - cbn [app]. destruct (t ++ b) eqn:E; cbn [occurs]; rewrite <- E;
      rewrite starts_with_self; reflexivity.
  - cbn [app occurs]. rewrite IH. apply orb_true_r.
Qed.



Lemma no_key_no_token (s w : text) :
  forallb Chars.is_alnum w = true -> run <= length w ->
  has_key s = false -> occurs (str "sk-" ++ w) s = false.
Proof.
  intros Hw Hlen Hno.
  destruct (occurs (str "sk-" ++ w) s) eqn:E; [exfalso | reflexivity].
  apply occurs_split in E. destruct E as (u & v & ->).
  rewrite key_has_key in Hno; [discriminate | exact Hw | exact Hlen].
Qed.


End OpenaiFacts.



(** ** More on the quality scorer *)

Module ScorerMore.

Import Semantics SemanticsFacts Scorer ScorerShapes.

(** A successful search is a match at some position of the subject. *)
Lemma search_some fl r : forall rest pre m,
  search fl r pre rest = Some m ->
  exists pre' rest' s1,
    match_at fl r pre' rest' = Some s1
    /\ rev pre' ++ rest' = rev pre ++ rest
    /\ m = found_of pre' s1.
Proof.
  induction rest as [| x rest IH]; intros pre m H; cbn [search] in H.
  - destruct (match_at fl r pre []) as [s1 |] eqn:E; [| discriminate].
    injection H as <-. exists pre, [], s1. auto.
  - destruct (match_at fl r pre (x :: rest)) as [s1 |] eqn:E.
    + injection H as <-. exists pre, (x :: rest), s1. auto.
    + apply IH in H. destruct H as (pre' & rest' & s1 & Hm & Hs & ->).
      exists pre', rest', s1. split; [exact Hm |]. split; [| reflexivity].
      rewrite Hs. cbn [rev]. rewrite <- app_assoc. reflexivity.
Qed.

Lemma char_matches_no_flags c x : char_matches no_flags c x = true -> x = c.
Proof.
  unfold char_matches, canon. cbn [ignoreCase no_flags].
  intros H. apply ascii_eqb_eq in H. congruence.
Qed.

Lemma Forall2_no_flags t : forall g,
  Forall2 (fun c x => char_matches no_flags c x = true) t g -> g = t.
Proof.
  induction t as [| c t IH]; intros g H; inversion H; subst; [reflexivity |].
  f_equal; [apply char_matches_no_flags; assumption | apply IH; assumption].
Qed.

Lemma has_colon_app a b : has_colon (a ++ b) = has_colon a || has_colon b.
Proof. apply existsb_app. Qed.

(** A state reached through [: ] lies after a colon of the subject. *)
Lemma matches_colon s s1 :
  (exists sa sb, matches no_flags (lit ": ") sa sb
                 /\ (exists u, advanced u s sa) /\ (exists v, advanced v sb s1)) ->
  has_colon (after s) = true.
Proof.
  intros (sa & sb & Hl & (u & Hu) & (v & Hv)).
  apply matches_lit_list in Hl. destruct Hl as (g & Hg & Ha).
  apply Forall2_no_flags in Hg. subst g.
  destruct Hu as [_ Hu]. destruct Ha as [_ Ha]. rewrite Hu, Ha.
  rewrite !has_colon_app. cbn. rewrite orb_true_r. reflexivity.
Qed.

Lemma tested_has_colon (r : re) (message : text) :
  (forall s s1, matches no_flags r s s1 ->
     exists sa sb, matches no_flags (lit ": ") sa sb
       /\ (exists u, advanced u s sa) /\ (exists v, advanced v sb s1)) ->
  test no_flags r message = true -> has_colon message = true.
Proof.
  intros Hr H. unfold test in H.
  destruct (search no_flags r [] message) as [m |] eqn:E; [| discriminate].
  apply search_some in E. destruct E as (pre' & rest' & s1 & Hm & Hs & _).
  apply match_at_sound in Hm. apply Hr in Hm.
  apply matches_colon in Hm.
  cbn [start_state after] in Hm. cbn [rev app] in Hs. rewrite <- Hs.
  rewrite has_colon_app, Hm. apply orb_true_r.
Qed.

Lemma conventional_has_colon message :
  hasConventionalFormat message = true -> has_colon message = true.
Proof.
  apply tested_has_colon.
  intros s s1 H.
  change conventionalPattern
    with (Seq Bol (Seq (Group 1 commit_types)
            (Seq (scope 2) (Seq (lit ": ") (plus Dot))))) in H.
  destruct H as (s0 & H0 & H). destruct H as (sg & Hg & H).
  destruct H as (sc & Hc & H). destruct H as (sl & Hl & Hd).
  exists sc, sl. split; [exact Hl |]. split.
  - apply matches_advanced in H0. apply matches_advanced in Hg.
    apply matches_advanced in Hc.
    destruct H0 as (u0 & H0), Hg as (u1 & Hg), Hc as (u2 & Hc).
    exists ((u0 ++ u1) ++ u2).
    eapply advanced_trans; [eapply advanced_trans; eassumption | exact Hc].
  - apply matches_advanced in Hd. exact Hd.
Qed.

Lemma present_tense_has_colon message :
  hasPresentTense message = true -> has_colon message = true.
Proof.
  apply tested_has_colon.
  intros s s1 H.
  change presentTensePattern
    with (Seq Bol (Seq (opt (Group 1 commit_types))
            (Seq (scope 2) (Seq (lit ": ") (Class false [IRange "a" "z"])))))
    in H.
  destruct H as (s0 & H0 & H). destruct H as (sg & Hg & H).
  destruct H as (sc & Hc & H). destruct H as (sl & Hl & Hd).
  exists sc, sl. split; [exact Hl |]. split.
  - apply matches_advanced in H0. apply matches_advanced in Hg.
    apply matches_advanced in Hc.
    destruct H0 as (u0 & H0), Hg as (u1 & Hg), Hc as (u2 & Hc).
    exists ((u0 ++ u1) ++ u2).
    eapply advanced_trans; [eapply advanced_trans; eassumption | exact Hc].
  - apply matches_advanced in Hd. exact Hd.
Qed.

Lemma lower_colon c : ascii_eqb ":" (Chars.lower c) = ascii_eqb ":" c.
Proof. destruct c as [[|] [|] [|] [|] [|] [|] [|] [|]]; reflexivity. Qed.

Lemma has_colon_lower message :
  has_colon (toLowerCase message) = has_colon message.
Proof.
  induction message as [| c m IH]; [reflexivity |].
  cbn [toLowerCase map has_colon existsb]. rewrite lower_colon. f_equal. exact IH.
Qed.

Lemma isGeneric_forms message :
  isGeneric message = true -> In (toLowerCase message) generic_forms.
Proof.
  unfold isGeneric, generic_forms. intros H.
  apply existsb_exists in H. destruct H as (g & Hg & H).
  apply in_flat_map. exists g. split; [exact Hg |].
  rewrite !orb_true_iff, !text_eqb_eq in H. cbn [In].
  destruct H as [[H | H] | H]; auto.
Qed.

Lemma generic_forms_no_colon :
  forallb (fun f => negb (has_colon f)) generic_forms = true.
Proof. vm_compute. reflexivity. Qed.

Lemma generic_no_colon message :
  isGeneric message = true -> has_colon message = false.
Proof.
  intros H. apply isGeneric_forms in H.
  pose proof generic_forms_no_colon as Hall. rewrite forallb_forall in Hall.
  apply Hall in H. rewrite negb_true_iff, has_colon_lower in H. exact H.
Qed.

Lemma fst_check_length_le message : (0 <= fst (check_length message) <= 2)%Z.
Proof.
  unfold check_length.
  destruct ((10 <=? _) && _); [cbn; lia |]. destruct (_ <? 10); cbn; lia.
Qed.

Lemma fst_check_period_le message : (0 <= fst (check_period message) <= 1)%Z.
Proof. unfold check_period. destruct (negb _); cbn; lia. Qed.

Lemma fst_check_present_le message :
  (0 <= fst (check_present_tense message) <= 1)%Z.
Proof. unfold check_present_tense. destruct (hasPresentTense _); cbn; lia. Qed.

Lemma fst_check_generic_le message : (0 <= fst (check_generic message) <= 2)%Z.
Proof. unfold check_generic. destruct (negb _); cbn; lia. Qed.

(** X2. With a threshold of 7 or more (7 is the default), only messages in
    the conventional format are well formed: the other four checks give at
    most 6 points. *)
Theorem well_formed_is_conventional (options : RewriteOptions) (message : text)
    (Hth : (7 <= number_or (minQualityScore options) 7)%Z)
    (Hwf : isWellFormed (assessCommitQuality options message) = true) :
  hasConventionalFormat message = true.
Proof.
  destruct (hasConventionalFormat message) eqn:Ec; [reflexivity | exfalso].
  unfold assessCommitQuality in Hwf. cbn [isWellFormed] in Hwf.
  apply Z.leb_le in Hwf.
  change (fold_left (fun acc r => (acc + fst r)%Z) (checks message) 0%Z)
    with (score (assessCommitQuality options message)) in Hwf.
  rewrite ScorerFacts.score_sum in Hwf.
  unfold check_conventional in Hwf. rewrite Ec in Hwf. cbn [fst] in Hwf.
  pose proof (fst_check_length_le message).
  pose proof (fst_check_generic_le message).
  pose proof (fst_check_present_le message).
  pose proof (fst_check_period_le message).
  generalize dependent (fst (check_length message)).
  generalize dependent (fst (check_generic message)).
  generalize dependent (fst (check_present_tense message)).
  generalize dependent (fst (check_period message)).
  generalize dependent (number_or (minQualityScore options) 7).
  intros. lia.
Qed.

Lemma well_formed_is_conventional_witness :
  (7 <= number_or (minQualityScore default_options) 7)%Z
  /\ isWellFormed (assessCommitQuality default_options
                     (str "fix: resolve null pointer exception")) = true
  /\ hasConventionalFormat (str "fix: resolve null pointer exception") = true.
Proof.
  split; [vm_compute; discriminate | split; [reflexivity |]].
  apply (@well_formed_is_conventional default_options
           (str "fix: resolve null pointer exception"));
    [vm_compute; discriminate | reflexivity].
Defined.

(** X3. A generic message (one of the eight words, alone, with a period or
    with [ commit], in any case) has neither the conventional format nor the
    present-tense form; it scores at most 3 and is not well formed at any
    threshold from 4 on. *)
Theorem generic_scores_at_most_3 (options : RewriteOptions) (message : text)
    (Hg : isGeneric message = true) :
  hasConventionalFormat message = false
  /\ hasPresentTense message = false
  /\ (score (assessCommitQuality options message) <= 3)%Z
  /\ ((4 <= number_or (minQualityScore options) 7)%Z ->
      isWellFormed (assessCommitQuality options message) = false).
Proof.
  pose proof (generic_no_colon message Hg) as Hcolon.
  assert (Hc : hasConventionalFormat message = false).
  { destruct (hasConventionalFormat message) eqn:E; [| reflexivity].
    apply conventional_has_colon in E. congruence. }
  assert (Hp : hasPresentTense message = false).
  { destruct (hasPresentTense message) eqn:E; [| reflexivity].
    apply present_tense_has_colon in E. congruence. }
  assert (Hs : (score (assessCommitQuality options message) <= 3)%Z).
  { rewrite ScorerFacts.score_sum.
    unfold check_conventional, check_generic, check_present_tense.
    rewrite Hc, Hp, Hg. cbn [negb fst].
    pose proof (fst_check_length_le message).
    pose proof (fst_check_period_le message).
    generalize dependent (fst (check_length message)).
    generalize dependent (fst (check_period message)).
    intros. lia. }
  split; [exact Hc | split; [exact Hp | split; [exact Hs |]]].
  intros Hth. unfold assessCommitQuality. cbn [isWellFormed].
  apply Z.leb_gt.
  change (fold_left (fun acc r => (acc + fst r)%Z) (checks message) 0%Z)
    with (score (assessCommitQuality options message)).
  generalize dependent (score (assessCommitQuality options message)).
  generalize dependent (number_or (minQualityScore options) 7).
  intros. lia.
Qed.

Lemma generic_scores_at_most_3_witness :
  isGeneric (str "Initial Commit") = true
  /\ hasConventionalFormat (str "Initial Commit") = false
  /\ hasPresentTense (str "Initial Commit") = false
  /\ (score (assessCommitQuality default_options (str "Initial Commit")) <= 3)%Z
  /\ ((4 <= number_or (minQualityScore default_options) 7)%Z ->
      isWellFormed (assessCommitQuality default_options (str "Initial Commit"))
      = false).
Proof.
  split; [reflexivity |].
  apply (@generic_scores_at_most_3 default_options (str "Initial Commit")).
  reflexivity.
Defined.

(** X4. A message in the conventional format is never generic, and it scores
    at least 6. *)
Theorem conventional_scores_at_least_6 (options : RewriteOptions)
    (message : text) (Hc : hasConventionalFormat message = true) :
  isGeneric message = false
  /\ (6 <= score (assessCommitQuality options message))%Z.
Proof.
  assert (Hg : isGeneric message = false).
  { destruct (isGeneric message) eqn:E; [| reflexivity].
    apply generic_no_colon in E. apply conventional_has_colon in Hc. congruence. }
  split; [exact Hg |].
  rewrite ScorerFacts.score_sum.
  unfold check_conventional, check_generic. rewrite Hc, Hg. cbn [negb fst].
  pose proof (fst_check_length_le message).
  pose proof (fst_check_present_le message).
  pose proof (fst_check_period_le message).
  generalize dependent (fst (check_length message)).
  generalize dependent (fst (check_present_tense message)).
  generalize dependent (fst (check_period message)).
  intros. lia.
Qed.

Lemma conventional_scores_at_least_6_witness :
  hasConventionalFormat (str "feat(ui): X.") = true
  /\ isGeneric (str "feat(ui): X.") = false
  /\ (6 <= score (assessCommitQuality default_options (str "feat(ui): X.")))%Z.
Proof.
  split; [reflexivity |].
  apply (@conventional_scores_at_least_6 default_options (str "feat(ui): X.")).
  reflexivity.
Defined.

End ScorerMore.

(** ** Templates: [parseTemplate] *)

Module TemplateFacts.

Import Semantics SemanticsFacts Composer RuleFacts ScorerMore.

(** The iterations of a pattern that consumes one character with property
    [P] consume characters with property [P]. *)
Lemma iterates_chars (M : mstate -> mstate -> Prop) (P : ascii -> bool)
    inner lo hi
    (HM : forall s s1, M s s1 -> exists x, P x = true /\ advanced [x] s s1) :
  forall cnt s s1, iterates M inner lo hi cnt s s1 ->
    exists u, forallb P u = true /\ advanced u s s1.
Proof.
  induction 1 as [cnt s Hle | cnt s s1 s2 Hb Hbody Hit IH].
  - exists []. split; [reflexivity | apply advanced_refl].
  - apply HM in Hbody. destruct Hbody as (x & Hx & Ha).
    destruct IH as (u & Hu & Hau).
    exists ([x] ++ u). split; [cbn; rewrite Hx, Hu; reflexivity |].
    eapply advanced_trans; [| exact Hau]. exact Ha.
Qed.

Lemma matches_repeat_class fl greedy lo hi neg items s s1 :
  matches fl (Quant greedy lo hi (Class neg items)) s s1 ->
  exists u, forallb (class_matches fl neg items) u = true /\ advanced u s s1.
Proof.
  cbn [matches]. apply iterates_chars.
  intros s0 s2 (x & t & Ha & Hc & ->). exists x. split; [exact Hc |].
  split; [reflexivity | exact Ha].
Qed.

Lemma matches_repeat_dot fl greedy lo hi s s1 :
  matches fl (Quant greedy lo hi Dot) s s1 ->
  exists u, forallb (fun x => negb (Chars.is_line_terminator x)) u = true
            /\ advanced u s s1.
Proof.
  cbn [matches]. apply iterates_chars.
  intros s0 s2 (x & t & Ha & Hc & ->). exists x.
  split; [rewrite Hc; reflexivity |]. split; [reflexivity | exact Ha].
Qed.

Lemma at_bol_no_flags s : at_bol no_flags s = true -> before s = [].
Proof. unfold at_bol. destruct (before s); [reflexivity | discriminate]. Qed.

Lemma at_eol_no_flags s : at_eol no_flags s = true -> after s = [].
Proof. unfold at_eol. destruct (after s); [reflexivity | discriminate]. Qed.

Lemma space_class x :
  class_matches no_flags false [ISpace] x = Chars.is_space x.
Proof.
  unfold class_matches, item_matches.
  cbn [existsb item_has ignoreCase no_flags xorb andb].
  rewrite !orb_false_r. reflexivity.
Qed.

Lemma separator_class x :
  class_matches no_flags false [IChar ":"; IChar "-"] x = true ->
  x = ":"%char \/ x = "-"%char.
Proof.
  unfold class_matches, item_matches.
  cbn [existsb item_has ignoreCase no_flags xorb andb].
  rewrite !orb_false_r, orb_true_iff, !ascii_eqb_eq. intros [H | H]; auto.
Qed.

(** A group captures what its body consumed. *)
Lemma matches_group_body fl n body s s1 :
  matches fl (Group n body) s s1 ->
  exists sb u, matches fl body s sb /\ advanced u s sb /\ advanced u s s1
               /\ get_cap n (caps s1) = Some u.
Proof.
  cbn [matches]. intros (sb & Hm & ->).
  destruct (matches_advanced _ _ _ _ Hm) as (u & Hu).
  exists sb, u. split; [exact Hm |]. split; [exact Hu |].
  split; [exact Hu |]. cbn [caps].
  rewrite get_cap_set_same. f_equal. apply consumed_advanced. exact Hu.
Qed.

Lemma advanced_same_end u v s s1 :
  advanced u s s1 -> advanced v s s1 -> u = v.
Proof.
  intros [B _] [B' _]. rewrite B' in B. apply app_inv_tail in B.
  rewrite <- (rev_involutive u), <- B. apply rev_involutive.
Qed.

(** What a match of the template pattern is made of. *)
Lemma template_match pre rest s1 :
  match_at no_flags template_pattern pre rest = Some s1 ->
  pre = []
  /\ exists u1 ws1 c ws2 u3,
       rest = u1 ++ (ws1 ++ c :: ws2) ++ u3
       /\ group 1 (found_of pre s1) = u1
       /\ group 2 (found_of pre s1) = ws1 ++ c :: ws2
       /\ group 3 (found_of pre s1) = u3
       /\ (c = ":"%char \/ c = "-"%char)
       /\ forallb Chars.is_space ws1 = true
       /\ forallb Chars.is_space ws2 = true
       /\ forallb (fun x => negb (Chars.is_line_terminator x)) u1 = true
       /\ forallb (fun x => negb (Chars.is_line_terminator x)) u3 = true.
Proof.
  intros Hm. apply match_at_sound in Hm.
  change template_pattern
    with (Seq Bol
            (Seq (Group 1 (star_lazy Dot))
               (Seq (Group 2 (Seq (star (Class false [ISpace]))
                                (Seq (Class false [IChar ":"; IChar "-"])
                                     (star (Class false [ISpace])))))
                  (Seq (Group 3 (star Dot)) Eol)))) in Hm.
  destruct Hm as (s0 & [Hbol ->] & Hm).
  apply at_bol_no_flags in Hbol. cbn [start_state before] in Hbol.
  split; [exact Hbol |].
  destruct Hm as (sa & H1 & Hm).
  assert (F1 : get_cap 1 (caps s1) = get_cap 1 (caps sa)).
  { apply (@matches_frame no_flags 1 _ _ _ Hm).
    vm_compute. intros [E | [E | []]]; discriminate. }
  destruct Hm as (sb & H2 & Hm).
  assert (F2 : get_cap 2 (caps s1) = get_cap 2 (caps sb)).
  { apply (@matches_frame no_flags 2 _ _ _ Hm).
    vm_compute. intros [E | []]; discriminate. }
  destruct Hm as (sc & H3 & [Heol ->]).
  apply at_eol_no_flags in Heol.
  (* group 1 *)
  apply matches_group_body in H1. destruct H1 as (sd & u1 & D1 & B1 & A1 & C1).
  apply matches_repeat_dot in D1. destruct D1 as (u1' & L1 & A1').
  rewrite (advanced_same_end A1' B1) in L1. clear A1' u1'.
  (* group 2 *)
  apply matches_group_body in H2. destruct H2 as (se & u2 & D2 & B2 & A2 & C2).
  destruct D2 as (sw & W1 & D2). destruct D2 as (sx & X & W2).
  apply matches_repeat_class in W1. destruct W1 as (ws1 & Hws1 & Aw1).
  apply matches_repeat_class in W2. destruct W2 as (ws2 & Hws2 & Aw2).
  cbn [matches] in X. destruct X as (c & t & Hc & Hcls & ->).
  pose proof (advanced_trans Aw1 (advanced_trans (advanced_step _ Hc) Aw2))
    as A2'.
  assert (E2 : u2 = ws1 ++ [c] ++ ws2) by exact (advanced_same_end B2 A2').
  (* group 3 *)
  apply matches_group_body in H3. destruct H3 as (sf & u3 & D3 & B3 & A3 & C3).
  apply matches_repeat_dot in D3. destruct D3 as (u3' & L3 & A3').
  rewrite (advanced_same_end A3' B3) in L3. clear A3' u3'.
  exists u1, ws1, c, ws2, u3.
  pose proof (advanced_trans A1 (advanced_trans A2 A3)) as [_ Hrest].
  cbn [start_state after] in Hrest. rewrite Heol, app_nil_r in Hrest.
  rewrite E2 in Hrest. cbn [app] in Hrest.
  split; [exact Hrest |].
  split; [apply group_found; rewrite F1; exact C1 |].
  split; [apply group_found; rewrite F2, C2, E2; reflexivity |].
  split; [apply group_found; exact C3 |].
  split; [apply separator_class; exact Hcls |].
  split; [rewrite <- Hws1; apply OpenaiFacts.forallb_same; intros x;
          symmetry; apply space_class |].
  split; [rewrite <- Hws2; apply OpenaiFacts.forallb_same; intros x;
          symmetry; apply space_class |].
  split; assumption.
Qed.

(** X5. [parseTemplate] either finds no separator and returns the whole
    template as the example with the separator [: ], or cuts the template
    into prefix, separator and example: the three pieces put together are
    the template, the separator is one colon or hyphen with white space
    around it, and prefix and example hold no line break. *)
Theorem parseTemplate_cuts (template : text) :
  parseTemplate template
  = {| prefix := []; separator := str ": "; example := template |}
  \/ (prefix (parseTemplate template) ++ separator (parseTemplate template)
        ++ example (parseTemplate template) = template
      /\ (exists ws1 c ws2,
            separator (parseTemplate template) = ws1 ++ c :: ws2
            /\ (c = ":"%char \/ c = "-"%char)
            /\ forallb Chars.is_space ws1 = true
            /\ forallb Chars.is_space ws2 = true)
      /\ forallb (fun x => negb (Chars.is_line_terminator x))
           (prefix (parseTemplate template)
              ++ example (parseTemplate template)) = true).
Proof.
  unfold parseTemplate.
  destruct (search no_flags template_pattern [] template) as [m |] eqn:E;
    [right | left; reflexivity].
  apply search_some in E. destruct E as (pre' & rest' & s1 & Hm & Hs & ->).
  apply template_match in Hm.
  destruct Hm as (-> & u1 & ws1 & c & ws2 & u3 & Hr & G1 & G2 & G3 & Hc
                  & Hw1 & Hw2 & L1 & L3).
  cbn [rev app] in Hs. subst rest'. cbn [prefix separator example].
  rewrite G1, G2, G3. split; [exact Hs |]. split.
  - exists ws1, c, ws2. auto.
  - rewrite forallb_app, L1, L3. reflexivity.
Qed.

(** X6. A template without colon and without hyphen has no separator: it is
    returned whole as the example, with an empty prefix. *)
Theorem parseTemplate_without_separator (template : text)
    (Hnone : forallb (fun x => negb (ascii_eqb x ":" || ascii_eqb x "-"))
               template = true) :
  parseTemplate template
  = {| prefix := []; separator := str ": "; example := template |}.
Proof.
  unfold parseTemplate.
  destruct (search no_flags template_pattern [] template) as [m |] eqn:E;
    [exfalso | reflexivity].
  apply search_some in E. destruct E as (pre' & rest' & s1 & Hm & Hs & ->).
  apply template_match in Hm.
  destruct Hm as (-> & u1 & ws1 & c & ws2 & u3 & Hr & _ & _ & _ & Hc & _).
  cbn [rev app] in Hs. subst rest'. rewrite <- Hs in Hnone.
  rewrite !forallb_app in Hnone. cbn [forallb] in Hnone.
  rewrite !andb_true_iff, negb_true_iff, orb_false_iff in Hnone.
  destruct Hnone as (_ & (_ & (Hc1 & Hc2) & _) & _).
  destruct Hc as [-> | ->]; discriminate.
Qed.

Lemma parseTemplate_without_separator_witness :
  forallb (fun x => negb (ascii_eqb x ":" || ascii_eqb x "-"))
    (str "[JIRA] message") = true
  /\ parseTemplate (str "[JIRA] message")
     = {| prefix := []; separator := str ": ";
          example := str "[JIRA] message" |}.
Proof.
  split; [reflexivity |].
  apply (@parseTemplate_without_separator (str "[JIRA] message")). reflexivity.
Defined.

End TemplateFacts.

(** ** Lines of a command's output, and the message filter *)

Module LinesFacts.

Import Lines.

Lemma split_nl_not_nil s : split_nl s <> [].
Proof.
  destruct s as [| c s]; cbn [split_nl]; [discriminate |].
  destruct (ascii_eqb c "010"); [discriminate |].
  destruct (split_nl s); discriminate.
Qed.

Lemma split_nl_no_lf s : Forall (fun l => forallb not_lf l = true) (split_nl s).
Proof.
  induction s as [| c s IH]; cbn [split_nl].
  - repeat constructor.
  - destruct (ascii_eqb c "010") eqn:E.
    + constructor; [reflexivity | exact IH].
    + destruct (split_nl s) as [| l ls].
      * constructor; [| constructor]. cbn. unfold not_lf. rewrite E. reflexivity.
      * inversion IH as [| ? ? Hl Hls]; subst. constructor; [| exact Hls].
        cbn [forallb]. unfold not_lf at 1. rewrite E, Hl. reflexivity.
Qed.

(** X7. Every entry of the list that [getCommits], [getCommitInfo] and
    [generateForStaged] make of a command's output is non-empty and holds no
    line feed. *)
Theorem lines_of_entries (output : text) :
  Forall (fun l => l <> [] /\ forallb not_lf l = true) (lines_of output).
Proof.
  unfold lines_of. apply Forall_forall. intros l Hin.
  apply filter_In in Hin. destruct Hin as [Hin Hne]. split.
  - destruct l; [discriminate | discriminate].
  - pose proof (split_nl_no_lf (trim output)) as H.
    rewrite Forall_forall in H. apply H. exact Hin.
Qed.

Lemma trim_start_blank s : forallb Chars.is_space s = true -> trim_start s = [].
Proof.
  induction s as [| c s IH]; [reflexivity |]. cbn [forallb trim_start].
  intros H. apply andb_true_iff in H. destruct H as [Hc Hs].
  rewrite Hc. apply IH. exact Hs.
Qed.

Lemma trim_blank s : forallb Chars.is_space s = true -> trim s = [].
Proof. intros H. unfold trim. rewrite (@trim_start_blank s H). reflexivity. Qed.

Lemma lines_of_blank output :
  forallb Chars.is_space output = true -> lines_of output = [].
Proof. intros H. unfold lines_of. rewrite trim_blank by exact H. reflexivity. Qed.

Lemma trim_start_head c s :
  Chars.is_space c = false -> trim_start (c :: s) = c :: s.
Proof. intros H. cbn [trim_start]. rewrite H. reflexivity. Qed.

Lemma tidy_parts line :
  tidy line = true ->
  exists c s, line = c :: s /\ Chars.is_space c = false
              /\ Chars.is_space (last line c) = false
              /\ forallb not_lf line = true.
Proof.
  unfold tidy. destruct line as [| c s]; [discriminate |].
  rewrite !andb_true_iff, !negb_true_iff. intros [[H1 H2] H3].
  exists c, s. auto.
Qed.

Lemma split_nl_line line :
  forallb not_lf line = true -> split_nl line = [line].
Proof.
  induction line as [| c s IH]; [reflexivity |]. cbn [forallb split_nl].
  intros H. apply andb_true_iff in H. destruct H as [Hc Hs].
  unfold not_lf in Hc. apply negb_true_iff in Hc. rewrite Hc, (IH Hs).
  reflexivity.
Qed.

Lemma split_nl_app line s :
  forallb not_lf line = true ->
  split_nl (line ++ nl ++ s) = line :: split_nl s.
Proof.
  induction line as [| c l IH]; [reflexivity |]. cbn [forallb app].
  intros H. apply andb_true_iff in H. destruct H as [Hc Hs].
  unfold not_lf in Hc. apply negb_true_iff in Hc.
  cbn [split_nl]. rewrite Hc. cbn [app] in IH. rewrite (IH Hs). reflexivity.
Qed.

Lemma split_nl_unlines l :
  l <> [] -> Forall (fun x => forallb not_lf x = true) l ->
  split_nl (unlines l) = l.
Proof.
  unfold unlines. induction l as [| x l IH]; [congruence |]. intros _ H.
  inversion H as [| ? ? Hx Hl]; subst.
  destruct l as [| y l].
  - cbn [Scorer.join]. apply split_nl_line. exact Hx.
  - change (Scorer.join nl (x :: y :: l))
      with (x ++ nl ++ Scorer.join nl (y :: l)).
    rewrite split_nl_app by exact Hx. f_equal. apply IH; [discriminate | exact Hl].
Qed.

Lemma last_default (l : text) (d d' : ascii) :
  l <> [] -> last l d = last l d'.
Proof.
  induction l as [| a l IH]; [congruence |]. intros _.
  destruct l as [| b l]; [reflexivity |].
  change (last (b :: l) d = last (b :: l) d'). apply IH. discriminate.
Qed.

Lemma last_append (l1 l2 : text) (d : ascii) :
  l2 <> [] -> last (l1 ++ l2) d = last l2 d.
Proof.
  intros H. induction l1 as [| a l1 IH]; [reflexivity |].
  cbn [app]. destruct (l1 ++ l2) as [| b l] eqn:E.
  - apply app_eq_nil in E. destruct E as [_ E]. congruence.
  - exact IH.
Qed.

(** The first and the last character of the joined lines. *)
Lemma unlines_ends (d : ascii) l :
  Forall (fun x => tidy x = true) l -> l <> [] ->
  exists c s, unlines l = c :: s /\ Chars.is_space c = false
              /\ Chars.is_space (last (unlines l) d) = false.
Proof.
  unfold unlines. induction l as [| x l IH]; [congruence |]. intros H _.
  inversion H as [| ? ? Hx Hl]; subst.
  apply tidy_parts in Hx. destruct Hx as (c & s & -> & Hc & Hlast & _).
  destruct l as [| y l].
  - cbn [Scorer.join]. exists c, s. split; [reflexivity |]. split; [exact Hc |].
    rewrite (@last_default (c :: s) d c) by discriminate. exact Hlast.
  - change (Scorer.join nl ((c :: s) :: y :: l))
      with ((c :: s) ++ nl ++ Scorer.join nl (y :: l)).
    exists c, (s ++ nl ++ Scorer.join nl (y :: l)).
    split; [reflexivity |]. split; [exact Hc |].
    destruct (IH Hl) as (c' & s' & E & _ & Hl'); [discriminate |].
    rewrite E in *. rewrite app_assoc.
    rewrite last_append by discriminate. exact Hl'.
Qed.

Lemma rev_head (c : ascii) (s : text) (d : ascii) :
  exists t, rev (c :: s) = last (c :: s) d :: t.
Proof.
  destruct (rev (c :: s)) as [| x t] eqn:E.
  - apply (f_equal (@length ascii)) in E. rewrite length_rev in E. discriminate.
  - exists t. apply (f_equal (@rev ascii)) in E. rewrite rev_involutive in E.
    rewrite E. cbn [rev]. rewrite last_append by discriminate. reflexivity.
Qed.

Lemma trim_clean (c : ascii) (s : text) :
  Chars.is_space c = false -> Chars.is_space (last (c :: s) c) = false ->
  trim (c :: s) = c :: s /\ trim ((c :: s) ++ nl) = c :: s.
Proof.
  intros Hc Hl. destruct (rev_head c s c) as (t & Et).
  assert (E : trim_start (rev (c :: s)) = rev (c :: s)).
  { rewrite Et. apply trim_start_head. exact Hl. }
  unfold trim. split.
  - rewrite (@trim_start_head c s Hc), E. apply rev_involutive.
  - change ((c :: s) ++ nl) with (c :: (s ++ nl)).
    rewrite (@trim_start_head c (s ++ nl) Hc).
    change (c :: (s ++ nl)) with ((c :: s) ++ nl).
    rewrite rev_app_distr. change (rev nl) with nl.
    change (nl ++ rev (c :: s)) with ("010"%char :: rev (c :: s)).
    change (trim_start ("010"%char :: rev (c :: s)))
      with (trim_start (rev (c :: s))).
    rewrite E. apply rev_involutive.
Qed.

Lemma tidy_no_lf l :
  Forall (fun x => tidy x = true) l ->
  Forall (fun x => forallb not_lf x = true) l.
Proof.
  apply Forall_impl. intros x Hx. apply tidy_parts in Hx.
  destruct Hx as (c & s & _ & _ & _ & H). exact H.
Qed.

Lemma filter_tidy l :
  Forall (fun x => tidy x = true) l -> filter nonempty l = l.
Proof.
  induction 1 as [| x l Hx Hl IH]; [reflexivity |].
  apply tidy_parts in Hx. destruct Hx as (c & s & -> & _).
  cbn [filter nonempty]. rewrite IH. reflexivity.
Qed.

(** X8. Lines that are not empty, hold no line feed and neither start nor
    end with white space come back unchanged from a command's output, with
    or without the line feed that ends it. *)
Theorem lines_of_round_trip (l : list text)
    (Htidy : Forall (fun x => tidy x = true) l) :
  lines_of (unlines l ++ nl) = l /\ lines_of (unlines l) = l.
Proof.
  destruct l as [| x l]; [split; reflexivity |].
  destruct (@unlines_ends "000"%char (x :: l) Htidy) as (c & s & E & Hc & Hl);
    [discriminate |].
  rewrite E in Hl. rewrite (@last_default (c :: s) "000"%char c) in Hl
    by discriminate.
  destruct (@trim_clean c s Hc Hl) as [T1 T2].
  unfold lines_of. rewrite E, T1, T2, <- E.
  rewrite split_nl_unlines; [| discriminate | apply tidy_no_lf; exact Htidy].
  split; apply filter_tidy; exact Htidy.
Qed.

Lemma lines_of_round_trip_witness :
  Forall (fun x => tidy x = true) [str "src/index.ts"; str "my notes.md"]
  /\ lines_of (unlines [str "src/index.ts"; str "my notes.md"] ++ nl)
     = [str "src/index.ts"; str "my notes.md"]
  /\ lines_of (unlines [str "src/index.ts"; str "my notes.md"])
     = [str "src/index.ts"; str "my notes.md"].
Proof.
  split; [repeat constructor |].
  apply (@lines_of_round_trip [str "src/index.ts"; str "my notes.md"]).
  repeat constructor.
Defined.

End LinesFacts.

Module MsgFilterFacts.

Import Lines MsgFilter.

(** What the script writes on a run when the counter file holds [k]. *)
Lemma run_from_nth messages : forall olds counter,
  snd (run_from messages counter olds) = counter + length olds
  /\ length (fst (run_from messages counter olds)) = length olds
  /\ forall i old, nth_error olds i = Some old ->
       nth_error (fst (run_from messages counter olds)) i
       = Some (match nth_error messages (counter + i) with
               | Some (c :: m) => c :: m
               | _ => trim old
               end).
Proof.
  induction olds as [| o olds IH]; intros counter.
  - cbn [run_from fst snd length]. split; [lia |]. split; [reflexivity |].
    intros [| i] old H; discriminate.
  - cbn [run_from]. unfold filter_msg.
    destruct (run_from messages (S counter) olds) as [outs final] eqn:E.
    specialize (IH (S counter)). rewrite E in IH. cbn [fst snd] in IH.
    destruct IH as (Hf & Hlen & Hnth).
    cbn [fst snd length]. split; [lia |]. split; [lia |].
    intros [| i] old H.
    + cbn [nth_error] in H. injection H as ->. cbn [nth_error].
      rewrite Nat.add_0_r. reflexivity.
    + cbn [nth_error] in H |- *. rewrite (Hnth i old H).
      replace (S counter + i) with (counter + S i) by lia. reflexivity.
Qed.

(** X9. The message filter hands out the messages by position: its run
    number [i] (from zero) writes entry [i] of the mapping file when there is
    one and it is not empty, and the trimmed message it reads otherwise; it
    writes one message for each run and leaves the number of runs in the
    counter file. *)
Theorem filter_assigns_by_position (messages olds : list text) :
  snd (run messages olds) = length olds
  /\ length (fst (run messages olds)) = length olds
  /\ forall i old, nth_error olds i = Some old ->
       nth_error (fst (run messages olds)) i
       = Some (match nth_error messages i with
               | Some (c :: m) => c :: m
               | _ => trim old
               end).
Proof. unfold run. exact (run_from_nth messages olds 0). Qed.

End MsgFilterFacts.

(** ** Providers *)

Module ProviderFacts.

Import Providers.

Lemma text_or_truthy x d :
  Lines.nonempty d = true -> truthy (Some (text_or x d)) = true.
Proof.
  intros Hd. unfold text_or. destruct x as [[| c t] |]; cbn [truthy].
  - destruct d; [discriminate | reflexivity].
  - reflexivity.
  - destruct d; [discriminate | reflexivity].
Qed.

Lemma text_or_again x d d' :
  Lines.nonempty d = true -> text_or (Some (text_or x d)) d' = text_or x d.
Proof.
  intros Hd. unfold text_or at 1. rewrite text_or_truthy by exact Hd. reflexivity.
Qed.

Lemma text_or_default_again x (b : bool) d1 d2 d' :
  Lines.nonempty d1 = true -> Lines.nonempty d2 = true ->
  text_or (Some (text_or x (if b then d1 else d2))) d'
  = text_or x (if b then d1 else d2).
Proof. intros H1 H2. apply text_or_again. destruct b; assumption. Qed.

(** X10. The constructor of [GitCommitRewriter] throws exactly when the
    provider is neither [ollama] nor [claude-code] and no API key is given as
    an option or in the environment; the error is then the one that asks for
    an OpenAI key. *)
Theorem construct_throws_iff (env_key : option text) (options : ProviderOptions) :
  let provider := text_or (provider_name options) (str "openai") in
  let no_key := negb (truthy (first_truthy (apiKey options) env_key)) in
  (construct env_key options = Thrown key_required
   <-> text_eqb provider (str "ollama") = false
       /\ text_eqb provider (str "claude-code") = false
       /\ no_key = true)
  /\ (forall e, construct env_key options = Thrown e -> e = key_required).
Proof.
  intros provider no_key. unfold construct, createProvider. cbv zeta.
  cbn [provider_name apiKey model ollamaUrl].
  rewrite (@text_or_again (provider_name options) (str "openai") (str "openai"))
    by reflexivity. fold provider. fold no_key.
  destruct (text_eqb provider (str "openai")) eqn:Eo.
  - apply text_eqb_eq in Eo. rewrite Eo.
    change (text_eqb (str "openai") (str "ollama")) with false.
    change (text_eqb (str "openai") (str "claude-code")) with false.
    cbn [andb]. destruct no_key; split.
    + split; [intros _; auto | reflexivity].
    + intros e H. injection H as <-. reflexivity.
    + split; [discriminate | intros (_ & _ & H); discriminate].
    + discriminate.
  - cbn [andb].
    destruct (text_eqb provider (str "ollama")); [split |].
    + split; [discriminate | intros (H & _); discriminate].
    + discriminate.
    + destruct (text_eqb provider (str "claude-code")); [split |].
      * split; [discriminate | intros (_ & H & _); discriminate].
      * discriminate.
      * destruct no_key; split.
        -- split; [intros _; auto | reflexivity].
        -- intros e H. injection H as <-. reflexivity.
        -- split; [discriminate | intros (_ & _ & H); discriminate].
        -- discriminate.
Qed.

(** X11. The constructor builds the provider that [createProvider] builds
    from the same options, except for [claude-code] without a model: there
    [createProvider] takes the model [haiku], and the constructor passes
    [gpt-3.5-turbo] to the Claude provider. *)
Theorem construct_agrees_with_createProvider
    (env_key : option text) (options : ProviderOptions) :
  let provider := text_or (provider_name options) (str "openai") in
  (text_eqb provider (str "claude-code") && negb (truthy (model options)) = false
   -> construct env_key options = createProvider env_key options)
  /\ (text_eqb provider (str "claude-code") && negb (truthy (model options)) = true
      -> construct env_key options
           = Returned (ClaudeCodeProvider (str "gpt-3.5-turbo"))
         /\ createProvider env_key options
           = Returned (ClaudeCodeProvider (str "haiku"))).
Proof.
  intros provider. unfold construct, createProvider. cbv zeta.
  cbn [provider_name apiKey model ollamaUrl].
  rewrite (@text_or_again (provider_name options) (str "openai") (str "openai"))
    by reflexivity. fold provider.
  rewrite !text_or_default_again by reflexivity.
  destruct (text_eqb provider (str "openai")) eqn:Eo.
  - apply text_eqb_eq in Eo. rewrite Eo.
    change (text_eqb (str "openai") (str "ollama")) with false.
    change (text_eqb (str "openai") (str "claude-code")) with false.
    cbn [andb]. split; [intros _ | discriminate].
    destruct (negb (truthy (first_truthy (apiKey options) env_key)));
      reflexivity.
  - cbn [andb]. destruct (text_eqb provider (str "ollama")) eqn:El.
    + apply text_eqb_eq in El. rewrite El.
      change (text_eqb (str "ollama") (str "claude-code")) with false.
      cbn [andb]. split; [intros _; reflexivity | discriminate].
    + destruct (text_eqb provider (str "claude-code")); cbn [andb].
      * unfold text_or. destruct (truthy (model options)); cbn [negb].
        -- split; [intros _; reflexivity | discriminate].
        -- split; [discriminate | intros _; split; reflexivity].
      * split; [intros _; reflexivity | discriminate].
Qed.

End ProviderFacts.

(** ** Staged changes *)

Module StagedFacts.

Import Lines Staged Composer.

(** X12. [generateForStaged] does not report a failure of the provider: when
    the repository has staged changes and the provider throws, the call
    resolves to the empty message. *)
Theorem staged_provider_failure_gives_empty_message
    (w : world) (options : RewriteOptions) (names diff e : text)
    (Hrepo : isRepository w = true) (Hconsent : hasConsent w = true)
    (Hnames : stagedNames w = Returned names)
    (Hfiles : lines_of names <> [])
    (Hdiff : stagedDiff w = Returned diff)
    (Hchanges : trim diff <> [])
    (Hthrows : provider w (build_prompt options diff (lines_of names) [])
                 systemPrompt = Thrown e) :
  generateForStaged w options = Returned [].
Proof.
  unfold generateForStaged. rewrite Hrepo, Hconsent, Hnames, Hdiff.
  cbn [negb]. destruct (lines_of names) as [| f fs] eqn:E; [congruence |].
  assert (Hd : nonempty diff = true).
  { destruct diff; [exfalso; apply Hchanges; reflexivity | reflexivity]. }
  assert (Ht : nonempty (trim diff) = true).
  { destruct (trim diff); [congruence | reflexivity]. }
  rewrite Hd, Ht. cbn [negb orb].
  unfold generateCommitMessage. rewrite Hthrows. reflexivity.
Qed.

Lemma staged_provider_failure_gives_empty_message_witness :
  generateForStaged (offline (str "src/index.ts") (str "+let x = 1;"))
    default_options = Returned [].
Proof.
  apply (@staged_provider_failure_gives_empty_message
           (offline (str "src/index.ts") (str "+let x = 1;")) default_options
           (str "src/index.ts") (str "+let x = 1;")
           (str "connect ECONNREFUSED"));
    try reflexivity; vm_compute; discriminate.
Defined.

End StagedFacts.

(** ** The command line of the Claude provider *)

Module ClaudeCodeFacts.

Import ClaudeCode.
















End ClaudeCodeFacts.

(** ** What the prompt holds *)

Module PromptFacts.

Import Composer Token TokenFacts OpenaiFacts ComposerFacts.

(** A key in the beginning of a text is a key in the text. *)
Lemma hit_firstn t : forall n p, hit p (firstn n t) = true -> hit p t = true.
Proof.
  induction t as [| c t IH]; intros n p.
  - rewrite firstn_nil. exact (fun H => H).
  - destruct n as [| n]; cbn [firstn].
    + rewrite hit_nil, (hit_unfold p (c :: t)). intros ->. reflexivity.
    + rewrite (hit_unfold p (c :: firstn n t)), (hit_unfold p (c :: t)).
      rewrite !orb_true_iff. intros [H | H]; [left; exact H | right].
      apply (IH n). exact H.
Qed.

Lemma has_key_firstn n t : has_key t = false -> has_key (firstn n t) = false.
Proof.
  unfold has_key. intros H. destruct (hit [] (firstn n t)) eqn:E; [| reflexivity].
  apply hit_firstn in E. congruence.
Qed.



(** X14. Whatever the diff, the part of the prompt that embeds it holds no
    OpenAI-style key, that is no [sk-] followed by 32 alphanumerics or more:
    redaction comes before the cut, and the cut makes no key. *)
Theorem embedded_diff_holds_no_key (diff : text) :
  has_key (embedded_diff diff) = false
  /\ forall w, forallb Chars.is_alnum w = true -> Token.run <= length w ->
       occurs (str "sk-" ++ w) (embedded_diff diff) = false.
Proof.
  assert (H : has_key (embedded_diff diff) = false).
  { unfold embedded_diff, substring0. apply has_key_firstn. apply redact_no_key. }
  split; [exact H |]. intros w Hw Hlen.
  apply no_key_no_token; assumption.
Qed.

Lemma In_join (sep x : text) (l : list text) :
  In x l -> exists u v, join sep l = u ++ x ++ v.
Proof.
  induction l as [| y l IH]; [intros [] |].
  intros [-> | Hin].
  - destruct l as [| z l].
    + exists [], []. cbn [join Scorer.join app]. rewrite app_nil_r. reflexivity.
    + exists [], (sep ++ join sep (z :: l)). reflexivity.
  - destruct (IH Hin) as (u & v & E). destruct l as [| z l]; [destruct Hin |].
    exists (y ++ sep ++ u), v.
    change (join sep (y :: z :: l)) with (y ++ sep ++ join sep (z :: l)).
    rewrite E, <- !app_assoc. reflexivity.
Qed.

Lemma occurs_part (f x u v : text) :
  occurs f x = true -> occurs f (u ++ x ++ v) = true.
Proof.
  intros H. apply occurs_split in H. destruct H as (a & b & ->).
  replace (u ++ (a ++ f ++ b) ++ v) with ((u ++ a) ++ f ++ (b ++ v))
    by (rewrite <- !app_assoc; reflexivity).
  apply occurs_middle.
Qed.

Lemma occurs_in_head (f x : text) options diff files oldMessage :
  In x (prompt_head options files oldMessage) -> occurs f x = true ->
  occurs f (build_prompt options diff files oldMessage) = true.
Proof.
  intros Hin Hf. rewrite build_prompt_shape.
  destruct (In_join nl _ _ Hin) as (u & v & E). rewrite E.
  rewrite <- (app_assoc u), <- (app_assoc x).
  apply occurs_part. exact Hf.
Qed.

(** X15. Only the diff is redacted: whatever the old commit message or a
    file name holds reaches the provider as it is.  Every piece of text that
    occurs in the old message or in the name of a changed file occurs in the
    prompt. *)
Theorem prompt_shows_message_and_files
    (options : RewriteOptions) (diff : text) (files : list text)
    (oldMessage piece : text)
    (Hpiece : occurs piece oldMessage = true
              \/ exists f, In f files /\ occurs piece f = true) :
  occurs piece (build_prompt options diff files oldMessage) = true.
Proof.
  destruct Hpiece as [H | (f & Hin & H)].
  - apply (@occurs_in_head piece
             (str "Old commit message: " ++ [dquote] ++ oldMessage ++ [dquote])).
    + unfold prompt_head. right. right. left. reflexivity.
    + apply (@occurs_part piece oldMessage (str "Old commit message: " ++ [dquote])
               [dquote]) in H.
      rewrite <- app_assoc in H. exact H.
  - apply (@occurs_in_head piece (join nl files)).
    + unfold prompt_head. do 5 right. left. reflexivity.
    + destruct (In_join nl _ _ Hin) as (u & v & ->). apply occurs_part. exact H.
Qed.

Lemma prompt_shows_message_and_files_witness :
  occurs (str "sk-live")
    (build_prompt default_options (str "+x") [str "config/prod.env"]
       (str "add key sk-live")) = true.
Proof.
  apply (@prompt_shows_message_and_files default_options (str "+x")
           [str "config/prod.env"] (str "add key sk-live") (str "sk-live")).
  left. reflexivity.
Defined.

(** X19. The language instruction is always the one of
    [getLanguageInstructions]: the case made for English and for a missing
    language gives what [getLanguageInstructions('en')] gives. *)
Theorem languageInstruction_is_uniform (options : RewriteOptions) :
  languageInstruction options
  = getLanguageInstructions (Providers.text_or (language options) (str "en")).
Proof.
  unfold languageInstruction, Providers.text_or.
  destruct (truthy (language options)); cbn [andb]; [| reflexivity].
  destruct (text_eqb (option_text (language options)) (str "en")) eqn:E;
    cbn [negb]; [| reflexivity].
  apply text_eqb_eq in E. rewrite E. reflexivity.
Qed.

End PromptFacts.

(** ** The rules that hide a file *)

Module HunkFacts.

Import Semantics SemanticsFacts Redactor HunkShapes RuleFacts.

Lemma terminator_listed x :
  Chars.is_line_terminator x = true -> In x line_terminators.
Proof.
  destruct x as [[] [] [] [] [] [] [] []]; intros H;
    solve [discriminate H | left; reflexivity | right; left; reflexivity].
Qed.

Lemma not_listed (p : ascii -> bool) x :
  forallb (fun y => negb (p y)) line_terminators = true -> p x = true ->
  not_terminator x = true.
Proof.
  intros Hall Hp. unfold not_terminator.
  destruct (Chars.is_line_terminator x) eqn:E; [| reflexivity].
  apply terminator_listed in E. rewrite forallb_forall in Hall.
  apply Hall in E. rewrite Hp in E. discriminate.
Qed.

Lemma iterates_texts (M : mstate -> mstate -> Prop) (P : ascii -> bool)
    inner lo hi
    (HM : forall s s1, M s s1 ->
            exists u, forallb P u = true /\ advanced u s s1) :
  forall cnt s s1, iterates M inner lo hi cnt s s1 ->
    exists u, forallb P u = true /\ advanced u s s1.
Proof.
  induction 1 as [cnt s Hle | cnt s s1 s2 Hb Hbody Hit IH].
  - exists []. split; [reflexivity | apply advanced_refl].
  - apply HM in Hbody. destruct Hbody as (u & Hu & Ha).
    destruct IH as (v & Hv & Hav).
    exists (u ++ v). split; [rewrite forallb_app, Hu, Hv; reflexivity |].
    eapply advanced_trans; [| exact Hav]. exact Ha.
Qed.

(** A match of a pattern that takes no line terminator lies on one line. *)
Lemma one_line_matches fl r :
  one_line fl r = true ->
  forall s s1, matches fl r s s1 ->
    exists u, forallb not_terminator u = true /\ advanced u s s1.
Proof.
  induction r as [| c | | neg items | | | a IHa b IHb | a IHa b IHb
                 | greedy lo hi body IH | n body IH | body IH];
    cbn [one_line]; intros Hone s s1 Hm; cbn [matches] in Hm.
  - subst s1. exists []. split; [reflexivity | apply advanced_refl].
  - destruct Hm as (x & t & Ha & Hc & ->). exists [x]. split.
    + cbn [forallb]. rewrite (not_listed _ x Hone Hc). reflexivity.
    + apply advanced_step. exact Ha.
  - destruct Hm as (x & t & Ha & Hc & ->). exists [x]. split.
    + cbn [forallb]. unfold not_terminator. rewrite Hc. reflexivity.
    + apply advanced_step. exact Ha.
  - destruct Hm as (x & t & Ha & Hc & ->). exists [x]. split.
    + cbn [forallb]. rewrite (not_listed _ x Hone Hc). reflexivity.
    + apply advanced_step. exact Ha.
  - destruct Hm as [_ ->]. exists []. split; [reflexivity | apply advanced_refl].
  - destruct Hm as [_ ->]. exists []. split; [reflexivity | apply advanced_refl].
  - apply andb_true_iff in Hone. destruct Hone as [H1 H2].
    destruct Hm as (sm & Hma & Hmb).
    destruct (IHa H1 _ _ Hma) as (u & Hu & Au).
    destruct (IHb H2 _ _ Hmb) as (v & Hv & Av).
    exists (u ++ v). split; [rewrite forallb_app, Hu, Hv; reflexivity |].
    eapply advanced_trans; eassumption.
  - apply andb_true_iff in Hone. destruct Hone as [H1 H2].
    destruct Hm as [Hm | Hm]; [exact (IHa H1 _ _ Hm) | exact (IHb H2 _ _ Hm)].
  - revert Hm. apply iterates_texts. exact (IH Hone).
  - destruct Hm as (sb & Hm & ->). destruct (IH Hone _ _ Hm) as (u & Hu & Au).
    exists u. split; [exact Hu | exact Au].
  - destruct Hm as (sb & Hm & ->). exists [].
    split; [reflexivity | split; reflexivity].
Qed.

Lemma rmatch_seq fl a b k s :
  rmatch fl (Seq a b) k s = rmatch fl a (rmatch fl b k) s.
Proof. reflexivity. Qed.

(** A lazy quantifier without a minimum stops at once where what follows
    it succeeds. *)
Lemma lazy_stops fl hi body k s r :
  k s = Some r -> rmatch fl (Quant false 0 hi body) k s = Some r.
Proof.
  intros Hk. cbn [rmatch].
  destruct (0 + length (after s)) as [| fuel]; cbn [repeat_loop Nat.leb];
    rewrite Hk; reflexivity.
Qed.

(** At the end of a line, the lookahead of [hunk_of] succeeds and keeps the
    captures. *)
Lemma lookahead_at_eol fl s :
  at_eol fl s = true ->
  exists s1,
    rmatch fl (Lookahead (Alt (Seq Bol (lit "diff --git ")) Eol)) Some s = Some s1
    /\ before s1 = before s /\ after s1 = after s
    /\ get_cap 1 (caps s1) = get_cap 1 (caps s).
Proof.
  intros Heol.
  assert (Hsome : exists sx,
             rmatch fl (Alt (Seq Bol (lit "diff --git ")) Eol) Some s = Some sx).
  { change (rmatch fl (Alt (Seq Bol (lit "diff --git ")) Eol) Some s)
      with (or_else (rmatch fl (Seq Bol (lit "diff --git ")) Some s)
              (fun _ => if at_eol fl s then Some s else None)).
    rewrite Heol.
    destruct (rmatch fl (Seq Bol (lit "diff --git ")) Some s) as [sx |];
      [exists sx | exists s]; reflexivity. }
  destruct Hsome as (sx & Hx).
  exists {| before := before s; after := after s; caps := caps sx |}.
  split; [| split; [reflexivity | split; [reflexivity |]]].
  - change (rmatch fl (Lookahead (Alt (Seq Bol (lit "diff --git ")) Eol)) Some s)
      with (match rmatch fl (Alt (Seq Bol (lit "diff --git ")) Eol) Some s with
            | Some s1 => Some {| before := before s; after := after s;
                                 caps := caps s1 |}
            | None => None
            end).
    rewrite Hx. reflexivity.
  - cbn [caps]. apply rmatch_sound in Hx. destruct Hx as (sy & Hm & E).
    injection E as ->.
    apply (@matches_frame fl 1 _ _ _ Hm). vm_compute. intros [].
Qed.

(** A match of [hunk_of P] ends where the [$] of its header held:
    [[\s\S]*?] takes nothing, since the [$] of the lookahead holds there
    too. *)
Lemma hunk_match fl path pre rest s1 :
  match_at fl (hunk_of path) pre rest = Some s1 ->
  exists sm,
    matches fl (header path) (start_state pre rest) sm
    /\ before s1 = before sm /\ after s1 = after sm
    /\ get_cap 1 (caps s1) = Some (consumed (start_state pre rest) sm)
    /\ at_bol fl (start_state pre rest) = true /\ at_eol fl sm = true.
Proof.
  intros H. unfold match_at in H.
  set (s0 := start_state pre rest) in *.
  change (hunk_of path)
    with (Seq Bol
            (Seq (Group 1
                    (Seq (lit "diff --git a/")
                       (Seq (star Dot)
                          (Seq path
                             (Seq (star_lazy Dot)
                                (Seq Eol (star_lazy any_all)))))))
               (Lookahead (Alt (Seq Bol (lit "diff --git ")) Eol)))) in H.
  rewrite rmatch_seq in H. apply rmatch_sound in H.
  destruct H as (sa & [Hbol ->] & H).
  rewrite rmatch_seq in H.
  change (rmatch fl (Group 1 ?b) ?k s0) with (rmatch fl b
            (fun s1 => k {| before := before s1; after := after s1;
                            caps := set_cap 1 (consumed s0 s1) (caps s1) |}) s0)
    in H.
  rewrite rmatch_seq in H. apply rmatch_sound in H. destruct H as (s2 & M1 & H).
  rewrite rmatch_seq in H. apply rmatch_sound in H. destruct H as (s3 & M2 & H).
  rewrite rmatch_seq in H. apply rmatch_sound in H. destruct H as (s4 & M3 & H).
  rewrite rmatch_seq in H. apply rmatch_sound in H. destruct H as (s5 & M4 & H).
  rewrite rmatch_seq in H. apply rmatch_sound in H. destruct H as (s6 & M5 & H).
  pose proof M5 as [Heol ->].
  exists s5. split.
  { change (header path)
      with (Seq (lit "diff --git a/")
              (Seq (star Dot) (Seq path (Seq (star_lazy Dot) Eol)))).
    exists s2. split; [exact M1 |]. exists s3. split; [exact M2 |].
    exists s4. split; [exact M3 |]. exists s5. split; [exact M4 | exact M5]. }
  destruct (@lookahead_at_eol fl
              {| before := before s5; after := after s5;
                 caps := set_cap 1 (consumed s0 s5) (caps s5) |} Heol)
    as (sr & Hr & Hb & Ha & Hc).
  unfold star_lazy in H. rewrite lazy_stops with (r := sr) in H by exact Hr.
  injection H as <-. cbn [before after caps] in Hb, Ha, Hc.
  split; [exact Hb |]. split; [exact Ha |].
  split; [rewrite Hc; apply get_cap_set_same |].
  split; [exact Hbol | exact Heol].
Qed.

Lemma first_line_whole u :
  forallb not_terminator u = true -> first_line u = u.
Proof.
  unfold first_line. induction u as [| c u IH]; [reflexivity |].
  cbn [forallb Scorer.first_line]. intros H. apply andb_true_iff in H.
  destruct H as [Hc Hu].
  destruct (ascii_eqb c (chr 10)) eqn:E.
  - apply ascii_eqb_eq in E. subst c. discriminate Hc.
  - rewrite (IH Hu). reflexivity.
Qed.

Lemma consumed_before s s' t t' :
  before s = before t -> before s' = before t' -> consumed s s' = consumed t t'.
Proof. intros H H'. unfold consumed. rewrite H, H'. reflexivity. Qed.

(** What a rule made with [hunk_of] matches. *)
Lemma hunk_rule_match fl path pre rest s1 :
  one_line fl (header path) = true ->
  match_at fl (hunk_of path) pre rest = Some s1 ->
  forallb not_terminator (whole (found_of pre s1)) = true
  /\ group 1 (found_of pre s1) = whole (found_of pre s1).
Proof.
  intros Hone H. apply hunk_match in H.
  destruct H as (sm & Hm & Hb & Ha & Hc & _).
  destruct (@one_line_matches fl (header path) Hone _ _ Hm) as (u & Hu & Au).
  assert (Hw : whole (found_of pre s1) = u).
  { unfold found_of, whole.
    rewrite (@consumed_before (start_state pre []) s1 (start_state pre rest) sm)
      by (reflexivity || exact Hb).
    apply consumed_advanced. exact Au. }
  rewrite Hw. split; [exact Hu |].
  apply group_found. rewrite Hc. f_equal. apply consumed_advanced. exact Au.
Qed.

Lemma file_rule_match path pre rest s1 :
  one_line flags_mi (header path) = true ->
  match_at flags_mi (hunk_of path) pre rest = Some s1 ->
  forallb not_terminator (whole (found_of pre s1)) = true
  /\ exists tail,
       hide_file (group 1 (found_of pre s1)) = whole (found_of pre s1) ++ tail.
Proof.
  intros Hone H.
  destruct (@hunk_rule_match flags_mi path pre rest s1 Hone H) as [Hw Hg].
  split; [exact Hw |]. rewrite Hg. unfold hide_file.
  rewrite first_line_whole by exact Hw. eexists. reflexivity.
Qed.

(** Every match of a rule that is to hide a file lies on the line of the
    header, and is replaced by itself and a marker. *)
Lemma file_rules_match_one_line
    (r : rule) (pre rest : text) (s1 : mstate)
    (Hrule : In r file_rules)
    (Hmatch : match_at (rflags r) (pattern r) pre rest = Some s1) :
  forallb not_terminator (whole (found_of pre s1)) = true
  /\ exists tail, replacement r (found_of pre s1) = whole (found_of pre s1) ++ tail.
Proof.
  unfold file_rules, sensitiveFiles in Hrule. cbn [map In] in Hrule.
  destruct Hrule as [<- | Hrule].
  { unfold env_rule in Hmatch |- *. cbn [rflags pattern replacement] in Hmatch |- *.
    assert (Hone : one_line flags_m (header (lit ".env")) = true)
      by (vm_compute; reflexivity).
    destruct (@hunk_rule_match flags_m (lit ".env") pre rest s1 Hone Hmatch)
      as [Hw Hg].
    split; [exact Hw |]. rewrite Hg. eexists. reflexivity. }
  do 8 (destruct Hrule as [<- | Hrule];
          [unfold file_rule in Hmatch |- *;
           cbn [rflags pattern replacement] in Hmatch |- *;
           eapply file_rule_match; [| exact Hmatch]; vm_compute; reflexivity |]).
  destruct Hrule.
Qed.








(** *** Nothing is taken out *)

Lemma kept_refl a : kept a a.
Proof. induction a; [apply kept_nil | apply kept_same; assumption]. Qed.

Lemma kept_inserted b : forall a c, kept a c -> kept a (b ++ c).
Proof.
  induction b as [| x b IH]; intros a c H; [exact H |].
  apply kept_insert. apply IH. exact H.
Qed.

Lemma kept_app a b : kept a b -> forall c d, kept c d -> kept (a ++ c) (b ++ d).
Proof.
  induction 1 as [| x a b H IH | x a b H IH]; intros c d Hcd; cbn [app].
  - exact Hcd.
  - apply kept_insert. apply IH. exact Hcd.
  - apply kept_same. apply IH. exact Hcd.
Qed.

Lemma kept_trans a b : kept a b -> forall c, kept b c -> kept a c.
Proof.
  intros Hab c Hbc. revert a Hab.
  induction Hbc as [| x b c H IH | x b c H IH]; intros a Hab.
  - exact Hab.
  - apply kept_insert. apply IH. exact Hab.
  - inversion Hab as [| y a' b' Ha | y a' b' Ha]; subst.
    + apply kept_insert. apply IH. exact Ha.
    + apply kept_same. apply IH. exact Ha.
Qed.

Lemma kept_length a b : kept a b -> length a <= length b.
Proof. induction 1; cbn [length]; lia. Qed.

(** A global replacement whose replacements start with the matched text
    takes nothing out. *)
Lemma replace_from_keeps fl r rep
    (Hrep : forall pre rest s1, match_at fl r pre rest = Some s1 ->
              exists tail, rep (found_of pre s1) = whole (found_of pre s1) ++ tail) :
  forall fuel pre rest, kept rest (replace_from fuel fl r rep pre rest).
Proof.
  induction fuel as [| fuel IH]; intros pre rest; cbn [replace_from].
  - apply kept_refl.
  - destruct (match_at fl r pre rest) as [s1 |] eqn:E.
    + destruct (Hrep _ _ _ E) as (tail & Ht).
      destruct (@found_of_match _ _ _ _ _ E) as (_ & Hrest & _).
      destruct (whole (found_of pre s1)) as [| c w] eqn:Ew.
      * destruct rest as [| x rest'].
        -- rewrite Ht. cbn [app]. rewrite <- (app_nil_r tail).
           apply kept_inserted. apply kept_nil.
        -- rewrite Ht. cbn [app]. apply kept_inserted. apply kept_same. apply IH.
      * rewrite Ht. rewrite Hrest at 1. rewrite <- app_assoc.
        apply kept_app; [apply kept_refl |]. apply kept_inserted. apply IH.
    + destruct rest as [| x rest']; [apply kept_nil |]. apply kept_same. apply IH.
Qed.

Lemma apply_rule_keeps r :
  In r file_rules -> forall t, kept t (apply_rule r t).
Proof.
  intros Hr t. unfold apply_rule, replace_all. apply replace_from_keeps.
  intros pre rest s1 Hm.
  exact (proj2 (@file_rules_match_one_line r pre rest s1 Hr Hm)).
Qed.

Lemma fold_keeps t : forall paths,
  (forall path, In path paths -> In (file_rule path) file_rules) ->
  forall acc, kept t acc ->
    kept t (fold_left (fun acc path => apply_rule (file_rule path) acc) paths acc).
Proof.
  induction paths as [| path paths IH]; intros Hin acc Hacc; [exact Hacc |].
  rewrite fold_left_cons. apply IH.
  - intros q Hq. apply Hin. right. exact Hq.
  - apply (kept_trans Hacc). apply apply_rule_keeps. apply Hin. left. reflexivity.
Qed.

(** X20. The part of [redactSensitivePatterns] that is to hide files takes
    nothing out of the diff: after the [.env] rule and the loop over
    [sensitiveFiles], every character of the diff is still there, in order;
    the text has only grown by the markers.  The other rules work on this
    text. *)
Theorem file_hiding_takes_nothing_out (t : text) :
  kept t (hide_files t)
  /\ length t <= length (hide_files t)
  /\ redactSensitivePatterns t
     = fold_left (fun acc r => apply_rule r acc) token_rules (hide_files t).
Proof.
  assert (H : kept t (hide_files t)).
  { unfold hide_files. apply fold_keeps.
    - intros path Hin. unfold file_rules. right. apply in_map. exact Hin.
    - apply apply_rule_keeps. left. reflexivity. }
  split; [exact H |]. split; [apply kept_length; exact H |].
  unfold redactSensitivePatterns, hide_files. cbv zeta. reflexivity.
Qed.

End HunkFacts.

(** ** The commit loop: what is left alone, and the counters *)

Module LoopFacts.

Import Composer Orchestrator Outcome OrchestratorFacts History.

Lemma final_message_kept w options orig h :
  match replacement_for w options h with
  | Some (_ :: _) => False
  | _ => True
  end ->
  final_message w options orig h = orig h.
Proof.
  unfold final_message. destruct (replacement_for w options h) as [[| c v] |];
    [reflexivity | intros [] | reflexivity].
Qed.

(** X17. Besides a failed generation, a commit keeps its original message in
    the ordered list when it cannot be read, when it is skipped as well
    formed (the provider is then not asked), and when the provider answers
    with the empty text or with the subject itself. *)
Theorem commits_left_alone
    (w : world) (options : RewriteOptions) (commits : list text)
    (orig : text -> text) (h : text)
    (Horig : forall c, In c commits -> originalMessage w c = Returned (orig c))
    (Hkeep :
       (exists e, getCommitInfo w h = Thrown e)
       \/ (exists ci, getCommitInfo w h = Returned ci
                      /\ skipWellFormed options = true
                      /\ Scorer.isWellFormed
                           (Scorer.assessCommitQuality options (info_message ci))
                         = true)
       \/ (exists ci m, getCommitInfo w h = Returned ci
                        /\ provider w (build_prompt options (diff ci) (files ci)
                                         (info_message ci)) systemPrompt
                           = Returned m
                        /\ (m = [] \/ m = info_message ci))) :
  exists l,
    orderedMessages w options commits = Returned l
    /\ forall i, nth_error commits i = Some h -> nth_error l i = Some (orig h).
Proof.
  exists (map (final_message w options orig) commits).
  split; [apply orderedMessages_map; exact Horig |].
  intros i Hi. rewrite nth_error_map, Hi. cbn [option_map]. f_equal.
  apply final_message_kept. unfold replacement_for.
  destruct Hkeep as [(e & He) | [(ci & Hci & Hs & Hwf) | (ci & m & Hci & Hp & Hm)]].
  - rewrite He. exact I.
  - rewrite Hci, Hs, Hwf. exact I.
  - rewrite Hci.
    destruct (skipWellFormed options
              && Scorer.isWellFormed
                   (Scorer.assessCommitQuality options (info_message ci)));
      [exact I |].
    unfold generateCommitMessage. rewrite Hp. cbn [message].
    destruct Hm as [-> | ->].
    + destruct (negb (text_eqb [] (info_message ci))); exact I.
    + rewrite text_eqb_refl. exact I.
Qed.

Lemma commits_left_alone_witness :
  exists l,
    orderedMessages History.w default_options History.commits = Returned l
    /\ forall i, nth_error History.commits i = Some (hash good) ->
         nth_error l i = Some (History.orig (hash good)).
Proof.
  apply (@commits_left_alone History.w default_options History.commits
           History.orig (hash good)).
  - intros c [<- | [<- | []]]; reflexivity.
  - right. left. exists good. repeat split; vm_compute; reflexivity.
Defined.

(** A commit that is sent to the provider. *)
Lemma generate_counts w options p h ci :
  let g := generateCommitMessage (provider w) options (diff ci) (files ci)
             (info_message ci) in
  let q := if negb (text_eqb (message g) (info_message ci))
           then {| map_ := set (map_ p) h (message g);
                   skippedCount := skippedCount p;
                   improvedCount := S (improvedCount p); failed := failed p;
                   logged := logged p ++ errors g |}
           else {| map_ := map_ p; skippedCount := skippedCount p;
                   improvedCount := improvedCount p; failed := failed p;
                   logged := logged p ++ errors g |} in
  (skipWellFormed options = false -> skippedCount q = skippedCount p)
  /\ failed q = failed p ++ []
  /\ skippedCount q + improvedCount q + length (failed q)
     <= S (skippedCount p + improvedCount p + length (failed p))
  /\ (verbose options = false -> logged q = logged p).
Proof.
  intros g q.
  assert (Hlog : verbose options = false -> errors g = []).
  { intros Hv. unfold g, generateCommitMessage.
    destruct (provider w _ systemPrompt); [reflexivity |].
    cbn [errors]. rewrite Hv. reflexivity. }
  unfold q. destruct (negb (text_eqb (message g) (info_message ci)));
    cbn [improvedCount map_ failed skippedCount logged];
    rewrite app_nil_r;
    (split; [reflexivity | split; [reflexivity | split; [lia |]]]);
    intros Hv; rewrite (Hlog Hv); apply app_nil_r.
Qed.

(** One iteration and the counters. *)
Lemma process_counts w options p h :
  let q := process w options p h in
  (skipWellFormed options = false -> skippedCount q = skippedCount p)
  /\ failed q = failed p ++ (if unreadable w h then [h] else [])
  /\ skippedCount q + improvedCount q + length (failed q)
     <= S (skippedCount p + improvedCount p + length (failed p))
  /\ (verbose options = false -> logged q = logged p).
Proof.
  unfold process, unreadable. destruct (getCommitInfo w h) as [ci | e].
  - destruct (skipWellFormed options
              && Scorer.isWellFormed
                   (Scorer.assessCommitQuality options (info_message ci)))
      eqn:E.
    + apply andb_true_iff in E. destruct E as [Es _].
      cbn [improvedCount map_ failed skippedCount logged].
      rewrite app_nil_r.
      split; [intros Hs; rewrite Hs in Es; discriminate |].
      split; [reflexivity | split; [lia | reflexivity]].
    + exact (generate_counts w options p h ci).
  - cbn [improvedCount map_ failed skippedCount logged].
    rewrite length_app. cbn [length].
    split; [reflexivity | split; [reflexivity | split; [lia | reflexivity]]].
Qed.

Lemma fold_counts w options commits : forall p,
  let q := fold_left (process w options) commits p in
  (skipWellFormed options = false -> skippedCount q = skippedCount p)
  /\ failed q = failed p ++ filter (unreadable w) commits
  /\ skippedCount q + improvedCount q + length (failed q)
     <= skippedCount p + improvedCount p + length (failed p) + length commits
  /\ (verbose options = false -> logged q = logged p).
Proof.
  induction commits as [| h commits IH]; intros p.
  - cbn [fold_left filter length]. rewrite app_nil_r.
    split; [reflexivity | split; [reflexivity | split; [lia | reflexivity]]].
  - cbn [fold_left]. specialize (IH (process w options p h)).
    destruct (process_counts w options p h) as (H1 & H2 & H3 & H5).
    cbv zeta in IH. destruct IH as (I1 & I2 & I3 & I5).
    split; [intros Hs; rewrite (I1 Hs); apply H1; exact Hs |]. split.
    + rewrite I2, H2. cbn [filter]. rewrite <- app_assoc.
      destruct (unreadable w h); reflexivity.
    + split; [cbn [length]; lia |].
      intros Hv. rewrite (I5 Hv). apply H5. exact Hv.
Qed.

(** X18. The counters of the commit loop: the failures are the commits that
    [getCommitInfo] could not read, in order; no commit is counted twice, as
    skipped, improved or failed; nothing is skipped when [skipWellFormed] is
    off; and nothing is written with [console.error] unless [verbose] is
    set. *)
Theorem loop_counters
    (w : world) (options : RewriteOptions) (commits : list text) :
  failed (run_loop w options commits) = filter (unreadable w) commits
  /\ skippedCount (run_loop w options commits)
     + improvedCount (run_loop w options commits)
     + length (failed (run_loop w options commits)) <= length commits
  /\ (skipWellFormed options = false ->
      skippedCount (run_loop w options commits) = 0)
  /\ (verbose options = false -> logged (run_loop w options commits) = []).
Proof.
  unfold run_loop.
  destruct (fold_counts w options commits initial) as (H1 & H2 & H3 & H4).
  cbn [initial improvedCount map_ failed skippedCount logged length app] in *.
  split; [exact H2 |]. split; [lia |]. split; [exact H1 | exact H4].
Qed.

End LoopFacts.
